(** * Quest-guide enrichment pipeline of the Tarkov bot

    A shallow embedding of the four services behind the [!e-quest]
    command:

    - [services/images.js]  (image collector and per-objective matching),
    - [services/gemini.js]  (prompt, bounded retry, response segmentation),
    - [services/cache.js]   (fingerprint and node-cache wrapper),
    - [commands/enhancedQuest.js] (the orchestration of the three, and the
      embeds it sends),

    together with the filter of the quest search in [tarkovApi.js] and the
    objectives field of the baseline view in [commands.js].

    JavaScript strings are sequences of code units; the embedding uses
    [string], reading every character as a code unit below 256.  Case
    folding and the whitespace class are those of JavaScript restricted to
    that range.  Relevance scores are quotients of two small integers; they
    are kept as exact rationals, on which the comparisons with [0.1] and
    [0.5] agree with the floating-point ones for every list that fits in
    memory. *)

From Stdlib Require Import Ascii String NArith ZArith QArith Lia DecimalString Sorted.
From stdpp Require Import base tactics option list gmap strings.

Local Open Scope string_scope.
Local Open Scope list_scope.

(** ** JavaScript string primitives *)

Module Js.

Definition code (c : ascii) : N := N_of_ascii c.

(** The class [\s] of JavaScript regular expressions, which is also what
    [String.prototype.trim] strips. *)
Definition is_space (c : ascii) : bool :=
  let n := code c in
  ((9 <=? n) && (n <=? 13) || (n =? 32) || (n =? 160))%N.

Definition is_digit (c : ascii) : bool :=
  let n := code c in ((48 <=? n) && (n <=? 57))%N.

Definition lower_char (c : ascii) : ascii :=
  let n := code c in
  if ((65 <=? n) && (n <=? 90) ||
      (192 <=? n) && (n <=? 222) && negb (n =? 215))%N
  then ascii_of_N (n + 32) else c.

Fixpoint toLowerCase (s : string) : string :=
  match s with
  | EmptyString => EmptyString
  | String c s' => String (lower_char c) (toLowerCase s')
  end.

Fixpoint startsWith (s p : string) : bool :=
  match p, s with
  | EmptyString, _ => true
  | String a p', String b s' => if Ascii.eqb a b then startsWith s' p' else false
  | String _ _, EmptyString => false
  end.

(** [s.includes(k)] *)
Fixpoint includes (s k : string) : bool :=
  startsWith s k ||
  match s with
  | EmptyString => false
  | String _ s' => includes s' k
  end.

(** [s.split(/\s+/)]: the pieces between maximal runs of whitespace; a
    leading or trailing run leaves an empty piece. *)
Fixpoint split_ws (s : string) : list string :=
  match s with
  | EmptyString => [EmptyString]
  | String c s' =>
      if is_space c then
        match s' with
        | EmptyString => [EmptyString; EmptyString]
        | String c' _ =>
            if is_space c' then split_ws s' else EmptyString :: split_ws s'
        end
      else
        match split_ws s' with
        | t :: ts => String c t :: ts
        | [] => [String c EmptyString]
        end
  end.

(** [arr.includes(x)] on an array of strings *)
Definition arr_includes (arr : list string) (x : string) : bool :=
  existsb (String.eqb x) arr.

(** [s.substring(0, n)] *)
Definition substring0 (n : nat) (s : string) : string := String.substring 0 n s.

Fixpoint trimStart (s : string) : string :=
  match s with
  | String c s' => if is_space c then trimStart s' else s
  | EmptyString => EmptyString
  end.

Fixpoint trimEnd (s : string) : string :=
  match s with
  | EmptyString => EmptyString
  | String c s' =>
      match trimEnd s' with
      | EmptyString => if is_space c then EmptyString else String c EmptyString
      | t => String c t
      end
  end.

Definition trim (s : string) : string := trimEnd (trimStart s).

(** Truthiness of a string: [!s] holds for the empty string only. *)
Definition truthy (s : string) : bool :=
  match s with EmptyString => false | _ => true end.

(** [a || b] on strings *)
Definition or_else (a b : string) : string := if truthy a then a else b.

(** [s.split(/\s+/).filter(w => w.length > 4)] *)
Definition long_words (s : string) : list string :=
  List.filter (fun w => (4 <? String.length w)%nat) (split_ws s).

(** [parseInt(s)]: leading whitespace, an optional sign, then the longest
    run of digits in radix 10, or in radix 16 after [0x]; [None] is NaN. *)
Definition digit_value (radix : N) (c : ascii) : option N :=
  let n := code c in
  let v := (if (48 <=? n) && (n <=? 57) then Some (n - 48)
            else if (97 <=? n) && (n <=? 122) then Some (n - 87)
            else if (65 <=? n) && (n <=? 90) then Some (n - 55)
            else None)%N in
  match v with
  | Some d => if (d <? radix)%N then Some d else None
  | None => None
  end.

Fixpoint parse_digits (radix : N) (s : string) (acc : option N) : option N :=
  match s with
  | EmptyString => acc
  | String c s' =>
      match digit_value radix c with
      | Some d => parse_digits radix s' (Some (default 0%N acc * radix + d)%N)
      | None => acc
      end
  end.

Definition parse_unsigned (s : string) : option N :=
  match s with
  | String "0" (String "x" s') | String "0" (String "X" s') =>
      parse_digits 16 s' None
  | _ => parse_digits 10 s None
  end.

Definition parseInt (s : string) : option Z :=
  match trimStart s with
  | String "-" s' => (fun n => (- Z.of_N n)%Z) <$> parse_unsigned s'
  | String "+" s' => Z.of_N <$> parse_unsigned s'
  | s' => Z.of_N <$> parse_unsigned s'
  end.

(** [parseInt(s) < k]; a comparison with NaN is false. *)
Definition parseInt_lt (s : string) (k : Z) : bool :=
  match parseInt s with
  | Some n => (n <? k)%Z
  | None => false
  end.

End Js.

(** ** Completions: a JavaScript evaluation returns or throws *)

Inductive completion (A : Type) : Type :=
| Normal (a : A)
| Throw (error : string).
Arguments Normal {A} a.
Arguments Throw {A} error.

Definition cbind {A B} (m : completion A) (k : A -> completion B) : completion B :=
  match m with
  | Normal a => k a
  | Throw e => Throw e
  end.

(** [try { body } catch (error) { handler(error) }] *)
Definition try_catch {A} (body : completion A) (handler : string -> A) : A :=
  match body with
  | Normal a => a
  | Throw e => handler e
  end.

(** [try { body } catch (error) { return fallback; }] around a body that
    also works on a state: the state reached at the throw is kept. *)
Definition catching {A S} (body : completion A * S) (fallback : A)
    : completion A * S :=
  match body with
  | (Normal a, s) => (Normal a, s)
  | (Throw _, s) => (Normal fallback, s)
  end.

#[global] Instance completion_ret : MRet completion := fun _ a => Normal a.
#[global] Instance completion_bind : MBind completion :=
  fun _ _ k m => cbind m k.

(** ** The quest value supplied by the game-data API *)

Record item_ref := {
  item_name : string;
  iconLink : option string
}.

Record objective := {
  obj_id : string;
  description : string;
  optional : bool;
  obj_type : string;
  item : option item_ref;
  items : option (list item_ref);
  markerItem : option item_ref
}.

Record map_ref := {
  map_name : string;
  imageLink : option string
}.

Record quest := {
  id : string;
  name : string;
  map : option map_ref;
  wikiLink : option string;
  objectives : list objective
}.


(** ** services/images.js : relevance of a context to a keyword list *)

Module Images.

Import Js.

(** One pass of the [keywords.forEach] callback over the two counters
    [score] and [matchedKeywords]. *)
Definition relevance_step (contextLower : string) (acc : Z * Z)
    (keyword : string) : Z * Z :=
  let '(score, matchedKeywords) := acc in
  if includes contextLower (toLowerCase keyword) then
    if arr_includes (split_ws contextLower) (toLowerCase keyword)
    then (score + 2, matchedKeywords + 1)%Z
    else (score + 1, matchedKeywords + 1)%Z
  else (score, matchedKeywords).

Definition calculateRelevance (context : string) (keywords : list string) : Q :=
  if negb (truthy context) || (length keywords =? 0)%nat then 0%Q
  else
    let contextLower := toLowerCase context in
    let '(score, matchedKeywords) :=
      fold_left (relevance_step contextLower) keywords (0, 0)%Z in
    let maxScore := (Z.of_nat (length keywords) * 2)%Z in
    if (0 <? matchedKeywords)%Z
    then (inject_Z score / inject_Z maxScore)%Q
    else 0%Q.

(** What cheerio reports for one [img] element of the fetched page: its
    attributes ([None] when absent) and the text of the closest enclosing
    [p], [div], [td], [li] or [table] (empty when there is none). *)
Record img_elem := {
  src : option string;
  alt_attr : option string;
  title_attr : option string;
  width : option string;
  height : option string;
  closest_text : string
}.

(** Outcome of fetching and loading the reference page. *)
Inductive fetch_result :=
| FetchThrows (error_name : string)
| FetchResponse (ok : bool) (page : list img_elem).

Record api_image := {
  ai_url : string;
  ai_description : string;
  ai_source : string;
  ai_objectiveIndex : option nat;
  ai_type : option string
}.

Record objective_images := {
  objectiveIndex : nat;
  images : list api_image
}.

Record api_images := {
  api_mapImage : option api_image;
  api_objectiveImages : list objective_images;
  api_itemImages : list api_image
}.

Record wiki_image := {
  url : string;
  alt : string;
  title : string;
  wi_description : string;
  relevanceScore : Q;
  source : string
}.

Record image_set := {
  mapImage : option api_image;
  objectiveImages : list objective_images;
  itemImages : list api_image;
  wikiImages : list wiki_image;
  totalImages : nat
}.

Definition Qlt_bool (a b : Q) : bool := negb (Qle_bool b a).

Definition icon_of (idx : nat) (it : item_ref) : list api_image :=
  match iconLink it with
  | Some link =>
      if truthy link then
        [ {| ai_url := link; ai_description := item_name it;
             ai_source := "api"; ai_objectiveIndex := Some idx;
             ai_type := Some "icon" |} ]
      else []
  | None => []
  end.

(** The images one objective refers to: its item, its items, its marker. *)
Definition objective_icons (idx : nat) (o : objective) : list api_image :=
  from_option (icon_of idx) [] (item o) ++
  from_option (fun its => concat (List.map (icon_of idx) its)) [] (items o) ++
  from_option (icon_of idx) [] (markerItem o).

Fixpoint extract_objectives (idx : nat) (objs : list objective)
    : list objective_images :=
  match objs with
  | [] => []
  | o :: rest =>
      let objImages := objective_icons idx o in
      (if (0 <? length objImages)%nat
       then [ {| objectiveIndex := idx; images := objImages |} ]
       else []) ++ extract_objectives (S idx) rest
  end.

Definition extractAPIImages (q : quest) : api_images :=
  {| api_mapImage :=
       match map q with
       | Some m =>
           match imageLink m with
           | Some link =>
               if truthy link then
                 Some {| ai_url := link;
                         ai_description := map_name m +:+ " map";
                         ai_source := "api"; ai_objectiveIndex := None;
                         ai_type := None |}
               else None
           | None => None
           end
       | None => None
       end;
     api_objectiveImages := extract_objectives 0 (objectives q);
     api_itemImages := [] |}.

(** Stable sort by decreasing [relevanceScore], as
    [images.sort((a, b) => b.relevanceScore - a.relevanceScore)]. *)
Fixpoint insert_desc (x : wiki_image) (l : list wiki_image) : list wiki_image :=
  match l with
  | [] => [x]
  | y :: l' =>
      if Qle_bool (relevanceScore y) (relevanceScore x)
      then x :: y :: l'
      else y :: insert_desc x l'
  end.

Definition sort_desc (l : list wiki_image) : list wiki_image :=
  foldr insert_desc [] l.

Definition quest_keywords (q : quest) : list string :=
  List.filter truthy
    ([name q] ++ from_option (fun m => [map_name m]) [] (map q) ++
     concat (List.map (fun obj => long_words (description obj)) (objectives q))).

Section Collector.

(** The network and the URL parser are outside the repository:
    [fetch wikiLink] is what the page fetch yields, and
    [resolve_url url baseUrl] is [new URL(url, new URL(baseUrl).origin).href],
    [None] when either constructor throws. *)
Context (fetch : string -> fetch_result).
Context (resolve_url : string -> string -> option string).

Definition normalizeImageUrl (url baseUrl : string) : option string :=
  if negb (truthy url) then None
  else if startsWith url "http://" || startsWith url "https://" then Some url
  else if startsWith url "//" then Some ("https:" +:+ url)
  else resolve_url url baseUrl.

(** [$(elem).closest('p, div, td, li, table').text() || alt || title] *)
Definition context_of (elem : img_elem) : string :=
  or_else (closest_text elem)
    (or_else (default "" (alt_attr elem)) (default "" (title_attr elem))).

Definition too_small (elem : img_elem) : bool :=
  match width elem, height elem with
  | Some w, Some h =>
      truthy w && truthy h && (parseInt_lt w 50 || parseInt_lt h 50)
  | _, _ => false
  end.

(** The body of the [$('img').each] callback: [Normal None] when the
    element is skipped, [Normal (Some image)] when it is pushed, and a
    throw when [src] is read on an element that has none. *)
Definition scrape_image (wikiLink : string) (keywords : list string)
    (elem : img_elem) : completion (option wiki_image) :=
  let alt := default "" (alt_attr elem) in
  let title := default "" (title_attr elem) in
  if too_small elem then Normal None
  else if includes (toLowerCase alt) "icon" then Normal None
  else
    match src elem with
    | None => Throw "TypeError"
    | Some src =>
        if includes (toLowerCase src) "/icon" ||
           includes (toLowerCase src) "_icon" then Normal None
        else
          let context := context_of elem in
          let relevanceScore := calculateRelevance context keywords in
          let isContentImage :=
            truthy src && negb (includes src "advertisements") &&
            negb (includes src "/thumb/") in
          if (Qlt_bool (1 # 10) relevanceScore || isContentImage) && truthy src
          then
            match normalizeImageUrl src wikiLink with
            | Some normalizedUrl =>
                if truthy normalizedUrl &&
                   negb (includes normalizedUrl "data:image")
                then Normal (Some
                  {| url := normalizedUrl; alt := alt; title := title;
                     wi_description := substring0 100 context;
                     relevanceScore :=
                       if Qeq_bool relevanceScore 0 then 1 # 10
                       else relevanceScore;
                     source := "wiki" |})
                else Normal None
            | None => Normal None
            end
          else Normal None
    end.

Fixpoint scrape_each (wikiLink : string) (keywords : list string)
    (elems : list img_elem) (images : list wiki_image)
    : completion (list wiki_image) :=
  match elems with
  | [] => Normal images
  | elem :: rest =>
      pushed ← scrape_image wikiLink keywords elem;
      scrape_each wikiLink keywords rest
        (images ++ from_option (fun i => [i]) [] pushed)
  end.

Definition scrapeWikiImages (wikiLink : string) (q : quest) : list wiki_image :=
  if negb (truthy wikiLink) then []
  else
    try_catch
      (match fetch wikiLink with
       | FetchThrows e => Throw e
       | FetchResponse ok page =>
           if negb ok then Normal []
           else
             images ← scrape_each wikiLink (quest_keywords q) page [];
             Normal (firstn 10 (sort_desc images))
       end)
      (fun _ => []).

Definition getQuestImages (q : quest) : image_set :=
  let apiImages := extractAPIImages q in
  let wikiImages :=
    match wikiLink q with
    | Some link => if truthy link then scrapeWikiImages link q else []
    | None => []
    end in
  {| mapImage := api_mapImage apiImages;
     objectiveImages := api_objectiveImages apiImages;
     itemImages := api_itemImages apiImages;
     wikiImages := wikiImages;
     totalImages :=
       (match api_mapImage apiImages with Some _ => 1 | None => 0 end) +
       foldl (fun sum obj => sum + length (images obj)) 0
         (api_objectiveImages apiImages) +
       length wikiImages |}.

End Collector.


(** The callback reads [src] off an element that has none: the element
    is neither small nor marked as an icon by its alternative text. *)
Definition reads_missing_src (elem : img_elem) : bool :=
  negb (too_small elem) &&
  negb (includes (toLowerCase (default "" (alt_attr elem))) "icon") &&
  negb (bool_decide (is_Some (src elem))).

(** An icon as [extractAPIImages] makes them for objective [idx]. *)
Definition is_icon_of (idx : nat) (img : api_image) : Prop :=
  ai_type img = Some "icon" /\ ai_source img = "api" /\
  ai_objectiveIndex img = Some idx /\ truthy (ai_url img) = true.

Definition is_full_image (img : api_image) : bool :=
  match ai_type img with
  | Some t => String.eqb t "image"
  | None => false
  end.

Definition findImageForObjective (o : objective) (objectiveIndex0 : nat)
    (allImages : image_set) : option string :=
  let objectiveImageData :=
    List.find (fun obj => (objectiveIndex obj =? objectiveIndex0)%nat)
      (objectiveImages allImages) in
  match objectiveImageData with
  | Some {| images := first :: rest |} =>
      match List.find is_full_image (first :: rest) with
      | Some fullImage => Some (ai_url fullImage)
      | None => Some (ai_url first)
      end
  | _ =>
      match wikiImages allImages with
      | firstWiki :: _ =>
          let keywords := long_words (description o) in
          let matchedImage :=
            List.find (fun img =>
              Qlt_bool (1 # 2)
                (calculateRelevance (wi_description img +:+ " " +:+ alt img)
                   keywords))
              (wikiImages allImages) in
          match matchedImage with
          | Some img => Some (url img)
          | None => Some (url firstWiki)
          end
      | [] => None
      end
  end.

(** *** The matching contract in the words of the specification *)

Definition keyword_points (context keyword : string) : Z :=
  let c := toLowerCase context in
  let k := toLowerCase keyword in
  if includes c k then
    if arr_includes (split_ws c) k then 2%Z else 1%Z
  else 0%Z.

Definition sum_points (context : string) (keywords : list string) : Z :=
  foldr Z.add 0%Z (List.map (keyword_points context) keywords).

(** Sum of the points of the keywords, normalised by twice their number. *)
Definition relevance_spec (context : string) (keywords : list string) : Q :=
  (inject_Z (sum_points context keywords) /
   inject_Z (2 * Z.of_nat (length keywords)))%Q.

(** A keyword occurs in a context when it is a substring of it, case
    apart. *)
Definition occurs (context keyword : string) : bool :=
  includes (toLowerCase context) (toLowerCase keyword).

(** How a computed relevance [r] is stored with a kept image:
    [relevanceScore || 0.1]. *)
Definition stored_as (r : Q) (img : wiki_image) : Prop :=
  (r == 0 /\ relevanceScore img = 1 # 10)%Q \/
  (0 < r /\ relevanceScore img = r)%Q.

(** Scraped images come ordered by decreasing stored score. *)
Definition sorted_desc (l : list wiki_image) : Prop :=
  StronglySorted (fun a b => (relevanceScore b <= relevanceScore a)%Q) l.

(** The structural images of an objective index: those of every entry
    recorded for it. *)
Definition structural_images (idx : nat) (imgs : image_set) : list api_image :=
  concat
    (List.map images
       (List.filter (fun obj => (objectiveIndex obj =? idx)%nat)
          (objectiveImages imgs))).

(** At most one entry is recorded for the index. *)
Definition single_entry (idx : nat) (imgs : image_set) : Prop :=
  (length (List.filter (fun obj => (objectiveIndex obj =? idx)%nat)
             (objectiveImages imgs)) <= 1)%nat.

Definition objective_relevance (o : objective) (img : wiki_image) : Q :=
  calculateRelevance (wi_description img +:+ " " +:+ alt img)
    (long_words (description o)).

(** The earliest image among those with the highest stored score. *)
Fixpoint best_scoring (l : list wiki_image) : option wiki_image :=
  match l with
  | [] => None
  | x :: l' =>
      match best_scoring l' with
      | Some y =>
          if Qle_bool (relevanceScore y) (relevanceScore x) then Some x
          else Some y
      | None => Some x
      end
  end.

Definition matchImage (o : objective) (idx : nat) (imgs : image_set)
    : option string :=
  match List.find is_full_image (structural_images idx imgs) with
  | Some full => Some (ai_url full)
  | None =>
      match List.find (fun i => negb (is_full_image i))
              (structural_images idx imgs) with
      | Some icon => Some (ai_url icon)
      | None =>
          match best_scoring
                  (List.filter
                     (fun w => Qlt_bool (1 # 2) (objective_relevance o w))
                     (wikiImages imgs)) with
          | Some w => Some (url w)
          | None =>
              match wikiImages imgs with
              | w :: _ => Some (url w)
              | [] => None
              end
          end
      end
  end.

End Images.

(** ** Regular expressions, as far as [services/gemini.js] uses them

    Every pattern of the file is written under the [i] flag and is built
    from literals, single-character classes under a star or a bounded
    repetition, alternation, one capture group, a lookahead and [$].  The
    matcher is the backtracking one of the language: alternatives are tried
    left to right, a greedy star gives characters back, a lazy one takes
    them one at a time, and a lookahead is not re-entered. *)

Module Regex.

Import Js.

Inductive re :=
| Lit (s : string)
| Cls (p : ascii -> bool)
| Seq (r1 r2 : re)
| Alt (r1 r2 : re)
| Star (greedy : bool) (p : ascii -> bool)
| Upto (n : nat) (p : ascii -> bool)
| Group (r : re)
| Ahead (r : re)
| Eos.

(** What a successful match leaves: the rest of the input and group 1. *)
Definition mstate : Type := string * option string.

Fixpoint strip_ci (lit s : string) : option string :=
  match lit, s with
  | EmptyString, _ => Some s
  | String a lit', String b s' =>
      if Ascii.eqb (lower_char a) (lower_char b) then strip_ci lit' s' else None
  | String _ _, EmptyString => None
  end.

Fixpoint star_greedy (p : ascii -> bool) (s : string)
    (k : string -> option mstate) : option mstate :=
  match s with
  | String c s' =>
      if p c then
        match star_greedy p s' k with
        | Some m => Some m
        | None => k s
        end
      else k s
  | EmptyString => k s
  end.

Fixpoint star_lazy (p : ascii -> bool) (s : string)
    (k : string -> option mstate) : option mstate :=
  match k s with
  | Some m => Some m
  | None =>
      match s with
      | String c s' => if p c then star_lazy p s' k else None
      | EmptyString => None
      end
  end.

Fixpoint upto_greedy (n : nat) (p : ascii -> bool) (s : string)
    (k : string -> option mstate) : option mstate :=
  match n, s with
  | S n', String c s' =>
      if p c then
        match upto_greedy n' p s' k with
        | Some m => Some m
        | None => k s
        end
      else k s
  | _, _ => k s
  end.

(** The part of [s] in front of its suffix [rest]. *)
Definition consumed (s rest : string) : string :=
  substring0 (String.length s - String.length rest) s.

Fixpoint run (r : re) (s : string) (cap : option string)
    (k : string -> option string -> option mstate) : option mstate :=
  match r with
  | Lit lit =>
      match strip_ci lit s with
      | Some s' => k s' cap
      | None => None
      end
  | Cls p =>
      match s with
      | String c s' => if p c then k s' cap else None
      | EmptyString => None
      end
  | Seq r1 r2 => run r1 s cap (fun s' cap' => run r2 s' cap' k)
  | Alt r1 r2 =>
      match run r1 s cap k with
      | Some m => Some m
      | None => run r2 s cap k
      end
  | Star true p => star_greedy p s (fun s' => k s' cap)
  | Star false p => star_lazy p s (fun s' => k s' cap)
  | Upto n p => upto_greedy n p s (fun s' => k s' cap)
  | Group r1 => run r1 s cap (fun s' _ => k s' (Some (consumed s s')))
  | Ahead r1 =>
      match run r1 s cap (fun s' cap' => Some (s', cap')) with
      | Some (_, cap') => k s cap'
      | None => None
      end
  | Eos =>
      match s with
      | EmptyString => k s cap
      | String _ _ => None
      end
  end.

(** A match anchored at the front of [s]. *)
Definition match_here (r : re) (s : string) : option mstate :=
  run r s None (fun s' cap => Some (s', cap)).

(** The result of [text.match(r)] for a pattern without the [g] flag:
    [match[0]] and [match[1]] of the leftmost match. *)
Definition match_result : Type := string * option string.

Fixpoint search (r : re) (s : string) : option match_result :=
  match match_here r s with
  | Some (rest, cap) => Some (consumed s rest, cap)
  | None =>
      match s with
      | String _ s' => search r s'
      | EmptyString => None
      end
  end.

(** [s.split(r)] for a pattern without groups.  [piece] is the text since
    the last separator and [skip] counts the characters of a separator
    still to be passed over.  A match is not looked for at the end of the
    input, and an empty match at the start of a piece is no separator. *)
Fixpoint split_go (r : re) (s : string) (skip : nat) (piece : string)
    : list string :=
  match s with
  | EmptyString => [piece]
  | String c s' =>
      match skip with
      | S n => split_go r s' n piece
      | O =>
          match match_here r s with
          | Some (rest, _) =>
              match String.length s - String.length rest with
              | O =>
                  if truthy piece
                  then piece :: split_go r s' 0 (String c EmptyString)
                  else split_go r s' 0 (piece +:+ String c EmptyString)
              | S n => piece :: split_go r s' n EmptyString
              end
          | None => split_go r s' 0 (piece +:+ String c EmptyString)
          end
      end
  end.

Definition split (r : re) (s : string) : list string :=
  match s with
  | EmptyString =>
      match match_here r s with
      | Some _ => []
      | None => [s]
      end
  | _ => split_go r s 0 EmptyString
  end.

Definition any (c : ascii) : bool := true.
Definition colon_or_space (c : ascii) : bool := Ascii.eqb c ":" || is_space c.

Definition LF : string := String "010" EmptyString.

Definition seq (rs : list re) : re := foldr Seq (Lit EmptyString) rs.
Definition alt (r : re) (rs : list re) : re := foldl Alt r rs.

(** Patterns every match of which goes through the group. *)
Fixpoint sets_group (r : re) : bool :=
  match r with
  | Group _ => true
  | Seq r1 r2 => sets_group r1 || sets_group r2
  | Alt r1 r2 => sets_group r1 && sets_group r2
  | _ => false
  end.

End Regex.

(** ** services/gemini.js : segmentation of the model's answer *)

(** The guide built by [parseLLMResponse]; [guide_objectives] is its
    [objectives] array. *)
Record guide := {
  overview : string;
  guide_objectives : list string;
  tips : string;
  raw : string
}.

(** What [new RegExp(source, 'i')] gives for a source assembled from
    quest text: a syntax error, or a pattern with its [text.match]. *)
Inductive compiled :=
| SyntaxError
| Pattern (exec : string -> option Regex.match_result).

Module Gemini.

Import Js Regex.

Definition dec (n : nat) : string := NilZero.string_of_uint (Nat.to_uint n).

(** [/(?:Brief Overview|Overview)[:\s]*\n([\s\S]*?)(?=\n##|\n\*\*Step-by-Step|\nObjective)/i] *)
Definition overview_re : re :=
  seq [ alt (Lit "Brief Overview") [Lit "Overview"];
        Star true colon_or_space;
        Lit LF;
        Group (Star false any);
        Ahead (alt (Lit (LF +:+ "##"))
                 [Lit (LF +:+ "**Step-by-Step"); Lit (LF +:+ "Objective")]) ].

(** [/(?:Priority Tips|Tips)[:\s]*\n([\s\S]*?)$/i] *)
Definition tips_re : re :=
  seq [ alt (Lit "Priority Tips") [Lit "Tips"];
        Star true colon_or_space;
        Lit LF;
        Group (Star false any);
        Eos ].

(** The heading pattern of objective number [n]:
    [(?:Objective n|n\.)([\s\S]*?)(?=\n(?:Objective n+1|n+1\.)|\n##|Priority Tips|$)] *)
Definition objective_re (n : nat) : re :=
  seq [ alt (Lit ("Objective " +:+ dec n)) [Lit (dec n +:+ ".")];
        Group (Star false any);
        Ahead (alt (seq [ Lit LF;
                          alt (Lit ("Objective " +:+ dec (n + 1)))
                            [Lit (dec (n + 1) +:+ ".")] ])
                 [Lit (LF +:+ "##"); Lit "Priority Tips"; Eos]) ].

(** [/Step-by-Step Guide[:\s]*\n([\s\S]*?)(?=\n##|Priority Tips|$)/i] *)
Definition guide_section_re : re :=
  seq [ Lit "Step-by-Step Guide";
        Star true colon_or_space;
        Lit LF;
        Group (Star false any);
        Ahead (alt (Lit (LF +:+ "##")) [Lit "Priority Tips"; Eos]) ].

(** [/\n\n+|\n(?=\d+\.)/] *)
Definition parts_re : re :=
  alt (seq [Lit LF; Lit LF; Star true (fun c => Ascii.eqb c "010")])
    [seq [Lit LF; Ahead (seq [Cls is_digit; Star true is_digit; Lit "."])]].

(** Characters that are syntax in a pattern source. *)
Definition is_syntax_char (c : ascii) : bool :=
  existsb (Ascii.eqb c) (list_ascii_of_string "^$\.*+?()[]{}|").

Section Segmentation.

(** The pattern compiler of the runtime, consulted for the sources that
    contain syntax characters. *)
Context (js_regexp : string -> compiled).

(** [new RegExp(`${obj.description.substring(0, 30)}[\s\S]{0,500}`, 'i')]:
    a prefix free of syntax characters is a literal. *)
Definition description_pattern (desc : string) : compiled :=
  let anchor := substring0 30 desc in
  if existsb is_syntax_char (list_ascii_of_string anchor)
  then js_regexp (anchor +:+ "[\s\S]{0,500}")
  else Pattern (search (seq [Lit anchor; Upto 500 any])).

(** [sections.objectives[idx] = v]; the code writes slot [idx] when the
    array holds at least [idx] slots, so the write is in place or appends. *)
Definition array_set (arr : list string) (idx : nat) (v : string) : list string :=
  if (idx <? length arr)%nat then <[idx := v]> arr else arr ++ [v].

Definition set_objective (sections : guide) (idx : nat) (v : string) : guide :=
  {| overview := overview sections;
     guide_objectives := array_set (guide_objectives sections) idx v;
     tips := tips sections;
     raw := raw sections |}.

(** The [for (const pattern of patterns)] loop: the first pattern that
    matches decides the slot. *)
Fixpoint first_match (patterns : list (string -> option match_result))
    (text : string) : option string :=
  match patterns with
  | [] => None
  | pattern :: rest =>
      match pattern text with
      | Some (m0, m1) =>
          Some (match m1 with
                | Some g => if truthy g then trim g else trim m0
                | None => trim m0
                end)
      | None => first_match rest text
      end
  end.

(** What the two patterns of objective [idx] find in the text. *)
Definition heading_or_description (text : string) (idx : nat) (obj : objective)
    : option string :=
  match description_pattern (description obj) with
  | SyntaxError => None
  | Pattern by_description =>
      first_match [search (objective_re (idx + 1)); by_description] text
  end.

(** The slot of objective [idx] after the first loop: what its patterns
    find, or the empty string. *)
Definition first_slot (text : string) (idx : nat) (obj : objective) : string :=
  default "" (heading_or_description text idx obj).

(** The pattern built from the description of an objective compiles. *)
Definition compiles (obj : objective) : bool :=
  match description_pattern (description obj) with
  | Pattern _ => true
  | SyntaxError => false
  end.

(** The slot of objective [idx] when the guide block is cut in parts:
    [parts[idx] || guideText]. *)
Definition part_slot (guideText : string) (idx : nat) : string :=
  or_else (default "" (split parts_re guideText !! idx)) guideText.

(** The first [quest.objectives.forEach]; the sections written so far
    survive a throw. *)
Fixpoint segment_each (text : string) (objs : list objective) (idx : nat)
    (sections : guide) : guide * completion unit :=
  match objs with
  | [] => (sections, Normal ())
  | obj :: rest =>
      let objectiveNum := idx + 1 in
      match description_pattern (description obj) with
      | SyntaxError => (sections, Throw "SyntaxError")
      | Pattern by_description =>
          let patterns := [search (objective_re objectiveNum); by_description] in
          let sections :=
            match first_match patterns text with
            | Some v => set_objective sections idx v
            | None => sections
            end in
          let sections :=
            if negb (truthy (default "" (guide_objectives sections !! idx)))
            then set_objective sections idx ""
            else sections in
          segment_each text rest (S idx) sections
      end
  end.

(** The second [forEach]: [sections.objectives[idx] = parts[idx] || guideText]. *)
Fixpoint assign_parts (parts : list string) (guideText : string)
    (objs : list objective) (idx : nat) (sections : guide) : guide :=
  match objs with
  | [] => sections
  | _ :: rest =>
      assign_parts parts guideText rest (S idx)
        (set_objective sections idx
           (or_else (default "" (parts !! idx)) guideText))
  end.

(** The [forEach] of the [catch] block. *)
Fixpoint assign_raw (text : string) (objs : list objective) (idx : nat)
    (sections : guide) : guide :=
  match objs with
  | [] => sections
  | _ :: rest => assign_raw text rest (S idx) (set_objective sections idx text)
  end.

(** The group of a match that has one; reading [.trim()] off a missing
    group throws. *)
Definition group1 (m : match_result) : completion string :=
  match snd m with
  | Some g => Normal g
  | None => Throw "TypeError"
  end.

(** A statement of the [try] block: it updates [sections] and may throw. *)
Definition stmt : Type := guide -> guide * completion unit.

Definition then_ (first next : stmt) : stmt :=
  fun sections =>
    match first sections with
    | (sections', Normal _) => next sections'
    | (sections', Throw e) => (sections', Throw e)
    end.

Definition extract_overview (text : string) : stmt :=
  fun sections =>
    match search overview_re text with
    | Some overviewMatch =>
        match group1 overviewMatch with
        | Normal g =>
            ({| overview := trim g;
                guide_objectives := guide_objectives sections;
                tips := tips sections; raw := raw sections |}, Normal ())
        | Throw e => (sections, Throw e)
        end
    | None => (sections, Normal ())
    end.

Definition extract_tips (text : string) : stmt :=
  fun sections =>
    match search tips_re text with
    | Some tipsMatch =>
        match group1 tipsMatch with
        | Normal g =>
            ({| overview := overview sections;
                guide_objectives := guide_objectives sections;
                tips := trim g; raw := raw sections |}, Normal ())
        | Throw e => (sections, Throw e)
        end
    | None => (sections, Normal ())
    end.

(** [if (sections.objectives.every(obj => obj === '')) { ... }] *)
Definition split_guide_section (text : string) (q : quest) : stmt :=
  fun sections =>
    if forallb (fun obj => String.eqb obj "") (guide_objectives sections) then
      match search guide_section_re text with
      | Some guideSectionMatch =>
          match group1 guideSectionMatch with
          | Normal g =>
              let guideText := trim g in
              let parts := split parts_re guideText in
              (assign_parts parts guideText (objectives q) 0 sections, Normal ())
          | Throw e => (sections, Throw e)
          end
      | None => (sections, Normal ())
      end
    else (sections, Normal ()).

(** The [try] block up to and including the per-objective matching. *)
Definition match_objectives (text : string) (q : quest) : stmt :=
  then_ (extract_overview text)
    (then_ (extract_tips text) (segment_each text (objectives q) 0)).

(** The whole [try] block. *)
Definition segment (text : string) (q : quest) : stmt :=
  then_ (match_objectives text q) (split_guide_section text q).

Definition sections0 (text : string) : guide :=
  {| overview := ""; guide_objectives := []; tips := ""; raw := text |}.

Definition parseLLMResponse (text : string) (q : quest) : guide :=
  match segment text q (sections0 text) with
  | (sections, Normal _) => sections
  | (sections, Throw _) => assign_raw text (objectives q) 0 sections
  end.

End Segmentation.

End Gemini.

(** ** MD5 (RFC 1321), the digest behind [crypto.createHash('md5')] *)

Module Md5.

Local Open Scope N_scope.

Definition w32 (x : N) : N := N.land x 4294967295.
Definition not32 (x : N) : N := N.lxor x 4294967295.
Definition rotl (x c : N) : N :=
  w32 (N.lor (N.shiftl x c) (N.shiftr x (32 - c))).

Definition K : list N :=
  [ 3614090360; 3905402710; 606105819; 3250441966;
    4118548399; 1200080426; 2821735955; 4249261313;
    1770035416; 2336552879; 4294925233; 2304563134;
    1804603682; 4254626195; 2792965006; 1236535329;
    4129170786; 3225465664; 643717713; 3921069994;
    3593408605; 38016083; 3634488961; 3889429448;
    568446438; 3275163606; 4107603335; 1163531501;
    2850285829; 4243563512; 1735328473; 2368359562;
    4294588738; 2272392833; 1839030562; 4259657740;
    2763975236; 1272893353; 4139469664; 3200236656;
    681279174; 3936430074; 3572445317; 76029189;
    3654602809; 3873151461; 530742520; 3299628645;
    4096336452; 1126891415; 2878612391; 4237533241;
    1700485571; 2399980690; 4293915773; 2240044497;
    1873313359; 4264355552; 2734768916; 1309151649;
    4149444226; 3174756917; 718787259; 3951481745 ].

Definition shifts : list N :=
  [ 7; 12; 17; 22; 7; 12; 17; 22; 7; 12; 17; 22; 7; 12; 17; 22;
    5; 9; 14; 20; 5; 9; 14; 20; 5; 9; 14; 20; 5; 9; 14; 20;
    4; 11; 16; 23; 4; 11; 16; 23; 4; 11; 16; 23; 4; 11; 16; 23;
    6; 10; 15; 21; 6; 10; 15; 21; 6; 10; 15; 21; 6; 10; 15; 21 ].

Definition state : Type := N * N * N * N.

Definition step (M : list N) (st : state) (i : nat) : state :=
  let '(A, B, C, D) := st in
  let j := N.of_nat i in
  let '(F, g) :=
    if (i <? 16)%nat then (N.lor (N.land B C) (N.land (not32 B) D), j)
    else if (i <? 32)%nat then
      (N.lor (N.land D B) (N.land (not32 D) C), (5 * j + 1) mod 16)
    else if (i <? 48)%nat then (N.lxor (N.lxor B C) D, (3 * j + 5) mod 16)
    else (N.lxor C (N.lor B (not32 D)), (7 * j) mod 16) in
  let F := w32 (F + A + List.nth i K 0 + List.nth (N.to_nat g) M 0) in
  (D, w32 (B + rotl F (List.nth i shifts 0)), B, C).

(** Sixteen little-endian words of a 64-byte block. *)
Fixpoint words (n : nat) (bytes : list N) : list N :=
  match n, bytes with
  | S n', b0 :: b1 :: b2 :: b3 :: rest =>
      (b0 + 256 * b1 + 65536 * b2 + 16777216 * b3) :: words n' rest
  | _, _ => []
  end.

Definition block (st : state) (bytes : list N) : state :=
  let '(a0, b0, c0, d0) := st in
  let '(A, B, C, D) := foldl (step (words 16 bytes)) st (seq 0 64) in
  (w32 (a0 + A), w32 (b0 + B), w32 (c0 + C), w32 (d0 + D)).

Fixpoint le_bytes (n : nat) (x : N) : list N :=
  match n with
  | O => []
  | S n' => (x mod 256) :: le_bytes n' (x / 256)
  end.

Definition pad (msg : list N) : list N :=
  let len := N.of_nat (length msg) in
  msg ++ [128] ++ repeat 0 (N.to_nat ((119 - len mod 64) mod 64)) ++
  le_bytes 8 (8 * len).

Fixpoint blocks (n : nat) (st : state) (bytes : list N) : state :=
  match n with
  | O => st
  | S n' => blocks n' (block st (firstn 64 bytes)) (skipn 64 bytes)
  end.

Definition hex_digit (d : N) : ascii :=
  ascii_of_N (if d <? 10 then 48 + d else 87 + d).

Definition hex_byte (b : N) : string :=
  String (hex_digit (b / 16)) (String (hex_digit (b mod 16)) EmptyString).

Definition digest_hex (msg : list N) : string :=
  let padded := pad msg in
  let '(a, b, c, d) :=
    blocks (length padded / 64)
      (1732584193, 4023233417, 2562383102, 271733878) padded in
  String.concat ""
    (List.map hex_byte (le_bytes 4 a ++ le_bytes 4 b ++ le_bytes 4 c ++ le_bytes 4 d)).

End Md5.

(** ** [JSON.stringify] of the objective list, and its UTF-8 bytes *)

Module Json.

Import Js.

Definition DQ : string := String "034" EmptyString.
Definition BS : string := String "092" EmptyString.

Definition quote_char (c : ascii) : string :=
  let n := code c in
  if (n =? 34)%N then BS +:+ DQ
  else if (n =? 92)%N then BS +:+ BS
  else if (n =? 8)%N then BS +:+ "b"
  else if (n =? 9)%N then BS +:+ "t"
  else if (n =? 10)%N then BS +:+ "n"
  else if (n =? 12)%N then BS +:+ "f"
  else if (n =? 13)%N then BS +:+ "r"
  else if (n <? 32)%N then BS +:+ "u00" +:+ Md5.hex_byte n
  else String c EmptyString.

Fixpoint quote_body (s : string) : string :=
  match s with
  | EmptyString => EmptyString
  | String c s' => quote_char c +:+ quote_body s'
  end.

Definition str (s : string) : string := DQ +:+ quote_body s +:+ DQ.

Definition member (key value : string) : string := str key +:+ ":" +:+ value.

Definition object (members : list string) : string :=
  "{" +:+ String.concat "," members +:+ "}".

Definition array (elements : list string) : string :=
  "[" +:+ String.concat "," elements +:+ "]".

Definition of_item (it : item_ref) : string :=
  object ([member "name" (str (item_name it))] ++
          from_option (fun l => [member "iconLink" (str l)]) [] (iconLink it)).

(** The properties of an objective in the order of the API answer. *)
Definition of_objective (o : objective) : string :=
  object ([ member "id" (str (obj_id o));
            member "description" (str (description o));
            member "optional" (if optional o then "true" else "false");
            member "type" (str (obj_type o)) ] ++
          from_option (fun it => [member "item" (of_item it)]) [] (item o) ++
          from_option (fun its => [member "items" (array (List.map of_item its))])
            [] (items o) ++
          from_option (fun it => [member "markerItem" (of_item it)]) []
            (markerItem o)).

Definition stringify (objs : list objective) : string :=
  array (List.map of_objective objs).

(** UTF-8 of a code unit below 256. *)
Definition utf8_char (c : ascii) : list N :=
  let n := code c in
  if (n <? 128)%N then [n] else [192 + n / 64; 128 + n mod 64]%N.

Definition utf8 (s : string) : list N :=
  concat (List.map utf8_char (list_ascii_of_string s)).

End Json.

(** ** The store: the part of node-cache that [services/cache.js] uses

    An entry carries its value and the instant [t] (in milliseconds) after
    which it has expired, [0] meaning never.  [get] drops an expired entry
    and counts a miss; [set] refuses with [ECACHEFULL] once [maxKeys] keys
    are stored, also when the key is already there. *)

Module NodeCache.

Section Store.

Context {V : Type}.

Record entry := { v : V; t : Z }.

Record store := {
  stdTTL : Z;
  maxKeys : Z;
  data : gmap string entry;
  hits : nat;
  misses : nat
}.

Definition create (stdTTL maxKeys : Z) : store :=
  {| stdTTL := stdTTL; maxKeys := maxKeys; data := ∅; hits := 0; misses := 0 |}.

Definition keys (c : store) : Z := Z.of_nat (size (data c)).

Definition expired (now : Z) (e : entry) : bool :=
  negb (t e =? 0)%Z && (t e <? now)%Z.

Definition get (key : string) (now : Z) (c : store) : completion (option V) * store :=
  match data c !! key with
  | Some e =>
      if expired now e then
        (Normal None,
         {| stdTTL := stdTTL c; maxKeys := maxKeys c;
            data := delete key (data c);
            hits := hits c; misses := S (misses c) |})
      else
        (Normal (Some (v e)),
         {| stdTTL := stdTTL c; maxKeys := maxKeys c; data := data c;
            hits := S (hits c); misses := misses c |})
  | None =>
      (Normal None,
       {| stdTTL := stdTTL c; maxKeys := maxKeys c; data := data c;
          hits := hits c; misses := S (misses c) |})
  end.

Definition set (key : string) (value : V) (ttl : Z) (now : Z) (c : store)
    : completion bool * store :=
  if (-1 <? maxKeys c)%Z && (maxKeys c <=? keys c)%Z then (Throw "ECACHEFULL", c)
  else
    (Normal true,
     {| stdTTL := stdTTL c; maxKeys := maxKeys c;
        data := <[key := {| v := value;
                            t := if (ttl =? 0)%Z then 0%Z
                                 else (now + ttl * 1000)%Z |}]> (data c);
        hits := hits c; misses := misses c |}).

(** [del(key)]: the number of entries removed; expiry is not looked at. *)
Definition del (key : string) (c : store) : completion nat * store :=
  match data c !! key with
  | Some _ =>
      (Normal 1,
       {| stdTTL := stdTTL c; maxKeys := maxKeys c;
          data := delete key (data c);
          hits := hits c; misses := misses c |})
  | None => (Normal 0, c)
  end.

(** [flushAll()]: no entry is left and the counters start again. *)
Definition flushAll (c : store) : store :=
  {| stdTTL := stdTTL c; maxKeys := maxKeys c; data := ∅;
     hits := 0; misses := 0 |}.

End Store.

Arguments entry : clear implicits.
Arguments store : clear implicits.

End NodeCache.

(** ** services/cache.js *)

Record enrichment := {
  llmGuide : guide;
  images : Images.image_set
}.

Module Cache.

Import Js.

Abbreviation quest_cache := (NodeCache.store enrichment).

(** [new NodeCache({ stdTTL: 604800, checkperiod: 3600, maxKeys: 500, ... })] *)
Definition questCache0 : quest_cache := NodeCache.create 604800 500.

(** The first eight hexadecimal digits of the MD5 digest of
    [JSON.stringify(objectives || [])]. *)
Definition objectivesHash (objectives : option (list objective)) : string :=
  substring0 8
    (Md5.digest_hex (Json.utf8 (Json.stringify (default [] objectives)))).

Definition generateCacheKey (questId : string)
    (objectives : option (list objective)) : string :=
  "quest:" +:+ questId +:+ ":" +:+ objectivesHash objectives.

Definition getCachedQuestGuide (questId : string)
    (objectives : option (list objective)) (now : Z) (questCache : quest_cache)
    : completion (option enrichment) * quest_cache :=
  catching
    (let cacheKey := generateCacheKey questId objectives in
     match NodeCache.get cacheKey now questCache with
     | (Normal cachedData, c) => (Normal cachedData, c)
     | (Throw e, c) => (Throw e, c)
     end)
    None.

Definition defaultTTL : Z := 604800.

(** [ttl || defaultTTL] *)
Definition ttl_or_default (ttl : option Z) : Z :=
  match ttl with
  | Some n => if (n =? 0)%Z then defaultTTL else n
  | None => defaultTTL
  end.

Definition setCachedQuestGuide (questId : string)
    (objectives : option (list objective)) (data : enrichment)
    (ttl : option Z) (now : Z) (questCache : quest_cache)
    : completion bool * quest_cache :=
  catching
    (let cacheKey := generateCacheKey questId objectives in
     match NodeCache.set cacheKey data (ttl_or_default ttl) now questCache with
     | (Normal success, c) => (Normal success, c)
     | (Throw e, c) => (Throw e, c)
     end)
    false.

(** The instant at which an entry written at [now] expires. *)
Definition expiry (ttl : option Z) (now : Z) : Z :=
  (now + ttl_or_default ttl * 1000)%Z.

(** The store refuses every further [set]. *)
Definition is_full (c : quest_cache) : bool :=
  (-1 <? NodeCache.maxKeys c)%Z && (NodeCache.maxKeys c <=? NodeCache.keys c)%Z.

Definition getCacheStats (questCache : quest_cache) : Z * nat * nat :=
  (NodeCache.keys questCache, NodeCache.hits questCache,
   NodeCache.misses questCache).

Definition clearCache (questCache : quest_cache) : quest_cache :=
  NodeCache.flushAll questCache.

Definition clearQuestCache (questId : string)
    (objectives : option (list objective)) (questCache : quest_cache)
    : completion nat * quest_cache :=
  catching
    (let cacheKey := generateCacheKey questId objectives in
     NodeCache.del cacheKey questCache)
    0.

(** The calls a client of [cache.js] can make, and the store they leave. *)
Inductive cache_call :=
| CallGet (questId : string) (objectives : option (list objective)) (now : Z)
| CallSet (questId : string) (objectives : option (list objective))
    (data : enrichment) (ttl : option Z) (now : Z)
| CallClear
| CallClearQuest (questId : string) (objectives : option (list objective)).

Definition call (op : cache_call) (c : quest_cache) : quest_cache :=
  match op with
  | CallGet questId objectives now =>
      snd (getCachedQuestGuide questId objectives now c)
  | CallSet questId objectives data ttl now =>
      snd (setCachedQuestGuide questId objectives data ttl now c)
  | CallClear => clearCache c
  | CallClearQuest questId objectives =>
      snd (clearQuestCache questId objectives c)
  end.

Definition calls (ops : list cache_call) (c : quest_cache) : quest_cache :=
  foldl (fun c op => call op c) c ops.
End Cache.

(** ** The surroundings of a request *)

(** An answer of the generative model: it throws, or it returns a response
    object whose [text] may be missing. *)
Inductive model_result :=
| ModelThrows (message : string)
| ModelReturns (text : option string).

(** Everything the pipeline asks of the outside. [model n prompt] is the
    outcome of the [n]-th call of [client.models.generateContent]. *)
Record Env := {
  GEMINI_API_KEY : option string;
  new_GoogleGenAI : completion unit;
  model : nat -> string -> model_result;
  buildQuestPrompt : quest -> completion string;
  js_regexp : string -> compiled;
  fetch : string -> Images.fetch_result;
  resolve_url : string -> string -> option string;
  searchQuest : string -> option (list quest)
}.

Inductive event :=
| EvGuideGenerator (questId : string)
| EvImageCollector (questId : string)
| EvModelCall (prompt : string)
| EvDelay (ms : nat).

(** The module-level state of the services and the calls made so far. *)
Record world := {
  client : bool;
  model_calls : nat;
  trace : list event;
  questCache : Cache.quest_cache
}.

Definition record (e : event) (w : world) : world :=
  {| client := client w; model_calls := model_calls w;
     trace := trace w ++ [e]; questCache := questCache w |}.

Definition with_cache (c : Cache.quest_cache) (w : world) : world :=
  {| client := client w; model_calls := model_calls w;
     trace := trace w; questCache := c |}.

Definition with_client (w : world) : world :=
  {| client := true; model_calls := model_calls w;
     trace := trace w; questCache := questCache w |}.

Definition count_call (w : world) : world :=
  {| client := client w; model_calls := S (model_calls w);
     trace := trace w; questCache := questCache w |}.

(** ** services/gemini.js : the generator and its bounded retry *)

Module Generator.

Import Js.

Section WithEnv.

Context (E : Env).

Definition initializeGemini (w : world) : bool * world :=
  match GEMINI_API_KEY E with
  | Some apiKey =>
      if truthy apiKey then
        match new_GoogleGenAI E with
        | Normal _ => (true, with_client w)
        | Throw _ => (false, w)
        end
      else (false, w)
  | None => (false, w)
  end.

(** A client is at hand: created earlier, or creatable now. *)
Definition client_available (w : world) : bool :=
  client w || fst (initializeGemini w).

Definition maxAttempts : nat := 2.

(** The [while (!result && attempts < maxAttempts)] loop; [fuel] bounds
    the number of passes. *)
Fixpoint retry_loop (fuel : nat) (prompt : string)
    (result : option (option string)) (attempts : nat) (w : world)
    : option (option string) * nat * world :=
  match fuel with
  | O => (result, attempts, w)
  | S fuel' =>
      if negb (bool_decide (is_Some result)) && (attempts <? maxAttempts)%nat then
        let attempts := S attempts in
        let w := record (EvModelCall prompt) w in
        match model E (model_calls w) prompt with
        | ModelReturns text =>
            retry_loop fuel' prompt (Some text) attempts (count_call w)
        | ModelThrows _ =>
            let w := count_call w in
            let w := if (attempts <? maxAttempts)%nat
                     then record (EvDelay 1000) w else w in
            retry_loop fuel' prompt None attempts w
        end
      else (result, attempts, w)
  end.

Definition generateQuestGuide (q : quest) (w : world)
    : completion (option guide) * world :=
  let '(ready, w) := if client w then (true, w) else initializeGemini w in
  if negb ready then (Normal None, w)
  else
    catching
      (match buildQuestPrompt E q with
       | Throw e => (Throw e, w)
       | Normal prompt =>
           let '(result, _, w) := retry_loop (S maxAttempts) prompt None 0 w in
           match result with
           | None => (Throw "Failed after maximum retry attempts", w)
           | Some response =>
               let text := or_else (default "" response) "" in
               (Normal (Some (Gemini.parseLLMResponse (js_regexp E) text q)), w)
           end
       end)
      None.

End WithEnv.

End Generator.

(** ** commands/enhancedQuest.js : the orchestration *)

Inductive reply :=
| Usage
| NotFound
| Enhanced (data : enrichment)
| Regular (content : option string)
| ErrorReply.

(** What the handler asks of the chat platform and of the builders of the
    views, each of which returns or throws: [message.reply] with the usage
    text or with the notice that the guide is being made, [thinking.edit]
    with a text or with the regular view, the call of
    [sendEnhancedResponse] ([send_enhanced]), and [createQuestEmbed]
    followed by the footer that names the other results
    ([regular_embed]). *)
Inductive notice :=
| UsageNotice
| ThinkingNotice (questName : string).

Record Presenter := {
  message_reply : notice -> completion unit;
  thinking_edit : reply -> completion unit;
  send_enhanced : quest -> enrichment -> option (list quest) -> completion unit;
  regular_embed : quest -> list quest -> completion unit
}.

Module Orchestrator.

Import Js.

Section WithEnv.

Context (P : Presenter) (E : Env).

(** [return thinking.edit(...)]: the reply is the one sent when the edit
    is accepted; a refused edit is not awaited inside the [try] blocks and
    makes the handler itself fail. *)
Definition deliver (r : reply) : completion reply :=
  match thinking_edit P r with
  | Normal _ => Normal r
  | Throw e => Throw e
  end.

(** The outer [catch]: [await thinking.edit('An error occurred ...')]. *)
Definition outer_catch : completion reply := deliver ErrorReply.

(** The inner [catch]: the regular view under the notice that the
    enhancement is unavailable; what [createQuestEmbed] throws there
    reaches the outer [catch]. *)
Definition inner_catch (q : quest) (quests : list quest) : completion reply :=
  match regular_embed P q quests with
  | Throw _ => outer_catch
  | Normal _ =>
      deliver (Regular (Some "AI enhancement unavailable, showing standard quest info:"))
  end.

(** [quests.length > 1 ? quests : null] *)
Definition allQuests (quests : list quest) : option (list quest) :=
  if (1 <? length quests)%nat then Some quests else None.

(** [handleEnhancedQuestCommand] from the cache lookup on, for the quest
    found first among [quests]; the reply is the one the chat platform
    accepted, and a [Throw] is a failure of the handler itself. *)
Definition enrich (q : quest) (quests : list quest) (now : Z) (w : world)
    : completion reply * world :=
  match Cache.getCachedQuestGuide (id q) (Some (objectives q)) now (questCache w) with
  | (Throw _, c) => (outer_catch, with_cache c w)
  | (Normal (Some cachedData), c) =>
      (match send_enhanced P q cachedData (allQuests quests) with
       | Normal _ => Normal (Enhanced cachedData)
       | Throw _ => outer_catch
       end,
       with_cache c w)
  | (Normal None, c) =>
      let w := with_cache c w in
      let w := record (EvGuideGenerator (id q)) w in
      let '(generated, w) := Generator.generateQuestGuide E q w in
      let w := record (EvImageCollector (id q)) w in
      let images := Images.getQuestImages (fetch E) (resolve_url E) q in
      match generated with
      | Throw _ => (inner_catch q quests, w)
      | Normal None =>
          (match regular_embed P q quests with
           | Throw _ => inner_catch q quests
           | Normal _ => deliver (Regular None)
           end,
           w)
      | Normal (Some llmGuide) =>
          let data := {| llmGuide := llmGuide; images := images |} in
          match Cache.setCachedQuestGuide (id q) (Some (objectives q)) data None
                  now (questCache w) with
          | (Throw _, c) => (inner_catch q quests, with_cache c w)
          | (Normal _, c) =>
              (match send_enhanced P q data (allQuests quests) with
               | Normal _ => Normal (Enhanced data)
               | Throw _ => inner_catch q quests
               end,
               with_cache c w)
          end
      end
  end.

Definition handleEnhancedQuestCommand (args : list string) (now : Z) (w : world)
    : completion reply * world :=
  match args with
  | [] =>
      (match message_reply P UsageNotice with
       | Normal _ => Normal Usage
       | Throw e => Throw e
       end,
       w)
  | _ =>
      let questName := String.concat " " args in
      match message_reply P (ThinkingNotice questName) with
      | Throw e => (Throw e, w)
      | Normal _ =>
          match searchQuest E questName with
          | None | Some [] => (deliver NotFound, w)
          | Some (q :: rest) => enrich q (q :: rest) now w
          end
      end
  end.

Definition cache_key (q : quest) : string :=
  Cache.generateCacheKey (id q) (Some (objectives q)).

(** What the cache lookup of a request answers, and the store it leaves. *)
Definition lookup (q : quest) (now : Z) (c : Cache.quest_cache)
    : completion (option enrichment) :=
  fst (Cache.getCachedQuestGuide (id q) (Some (objectives q)) now c).

Definition after_lookup (q : quest) (now : Z) (c : Cache.quest_cache)
    : Cache.quest_cache :=
  snd (Cache.getCachedQuestGuide (id q) (Some (objectives q)) now c).

(** The world in which the generator is started after a miss. *)
Definition miss_world (q : quest) (now : Z) (w : world) : world :=
  record (EvGuideGenerator (id q))
    (with_cache (after_lookup q now (questCache w)) w).

(** Number of calls into the guide generator, the image collector and the
    model recorded in a trace. *)
Definition generator_calls (tr : list event) : nat :=
  length (List.filter (fun e => match e with EvGuideGenerator _ => true | _ => false end) tr).

Definition collector_calls (tr : list event) : nat :=
  length (List.filter (fun e => match e with EvImageCollector _ => true | _ => false end) tr).

Definition model_invocations (tr : list event) : nat :=
  length (List.filter (fun e => match e with EvModelCall _ => true | _ => false end) tr).

(** The events that the generator leaves in a trace. *)
Definition is_model_event (e : event) : bool :=
  match e with
  | EvModelCall _ | EvDelay _ => true
  | _ => false
  end.

End WithEnv.

End Orchestrator.

(** ** tarkovApi.js : the selection of the quests that match a name *)

Module Search.

Import Js.

(** [task => task.name.toLowerCase().includes(searchLower)] *)
Definition phrase_match (searchLower : string) (task : quest) : bool :=
  includes (toLowerCase (name task)) searchLower.

(** [searchLower.split(/\s+/).filter(w => w.length > 0)] *)
Definition searchWords (searchLower : string) : list string :=
  List.filter (fun w => (0 <? String.length w)%nat) (split_ws searchLower).

(** [task => searchWords.every(word => taskNameLower.includes(word))] *)
Definition words_match (searchWords : list string) (task : quest) : bool :=
  forallb (fun word => includes (toLowerCase (name task)) word) searchWords.

(** The filter of [searchQuest] over the tasks the API returned: the
    tasks whose name contains the query, and when there is none, the tasks
    whose name contains every word of it; case apart in both. *)
Definition matchingTasks (allTasks : list quest) (questName : string)
    : list quest :=
  let searchLower := toLowerCase questName in
  let matching := List.filter (phrase_match searchLower) allTasks in
  if (length matching =? 0)%nat then
    List.filter (words_match (searchWords searchLower)) allTasks
  else matching.

End Search.

(** ** commands/enhancedQuest.js and commands.js : what is put in the embeds

    An embed is kept with its texts and its image; colour, link and
    timestamp are left out. *)

Record embed := {
  title : string;
  embed_description : option string;
  image : option string;
  fields : list (string * string);
  footer : option string
}.

Module Embeds.

Import Js.

Definition setFooter (text : string) (e : embed) : embed :=
  {| title := title e; embed_description := embed_description e;
     image := image e; fields := fields e; footer := Some text |}.

Definition createGuideEmbed (llmGuide : guide) : embed :=
  {| title := "Quest Guide";
     embed_description :=
       if truthy (overview llmGuide)
       then Some (substring0 4096 (overview llmGuide)) else None;
     image := None;
     fields :=
       if truthy (tips llmGuide)
       then [("Priority Tips", substring0 1024 (tips llmGuide))] else [];
     footer := None |}.

Definition createObjectiveEmbed (o : objective) (index : nat)
    (guideText : string) (images : Images.image_set) : embed :=
  let description :=
    "**" +:+ description o +:+ "**" +:+ Regex.LF +:+ Regex.LF +:+
    (if truthy guideText then substring0 3800 guideText
     else "_No detailed guide available for this objective._") in
  {| title := "Objective " +:+ Gemini.dec (index + 1) +:+
              (if optional o then " (Optional)" else "");
     embed_description := Some (substring0 4096 description);
     image :=
       match Images.findImageForObjective o index images with
       | Some imageUrl => if truthy imageUrl then Some imageUrl else None
       | None => None
       end;
     fields := [];
     footer := None |}.

(** The [for] loop of [sendEnhancedResponse] over the first
    [objectivesToShow] objectives, from index [i] on. *)
Fixpoint objective_embeds (objs : list objective) (i : nat) (count : nat)
    (llmGuide : guide) (images : Images.image_set) : list embed :=
  match count, objs with
  | S count', o :: rest =>
      let guideText := or_else (default "" (guide_objectives llmGuide !! i)) "" in
      createObjectiveEmbed o i guideText images ::
      objective_embeds rest (S i) count' llmGuide images
  | _, _ => []
  end.

(** [embeds[embeds.length - 1].setFooter({ text })] *)
Definition footer_on_last (text : string) (embeds : list embed) : list embed :=
  match reverse embeds with
  | e :: before => reverse (setFooter text e :: before)
  | [] => []
  end.

(** [sendEnhancedResponse]: the embeds handed to the chat platform.
    [overviewEmbed] and [rewardsEmbed] are what [createOverviewEmbed] and
    [createRewardsEmbed] return, and [otherQuests] holds the names of the
    further search results when there are any. *)
Definition sendEnhancedResponse (overviewEmbed : embed)
    (rewardsEmbed : option embed) (q : quest) (data : enrichment)
    (allQuests : option (list quest)) : list embed :=
  let llmGuide := llmGuide data in
  let images := images data in
  let overviewEmbed :=
    match allQuests with
    | Some qs =>
        if (1 <? length qs)%nat then
          setFooter
            ("Enhanced with AI | " +:+ Gemini.dec (length qs - 1) +:+
             " other result(s): " +:+
             String.concat ", " (List.map name (firstn 3 (skipn 1 qs))))
            overviewEmbed
        else overviewEmbed
    | None => overviewEmbed
    end in
  let embeds := [overviewEmbed] in
  let embeds :=
    if truthy (overview llmGuide) || truthy (tips llmGuide)
    then embeds ++ [createGuideEmbed llmGuide] else embeds in
  let maxObjectiveEmbeds := 6 in
  let objectivesToShow := Nat.min (length (objectives q)) maxObjectiveEmbeds in
  let embeds :=
    embeds ++ objective_embeds (objectives q) 0 objectivesToShow llmGuide images in
  let embeds :=
    if (objectivesToShow <? length (objectives q))%nat then
      footer_on_last
        (Gemini.dec (length (objectives q) - objectivesToShow) +:+
         " more objective(s) not shown. Check the wiki for full details.")
        embeds
    else embeds in
  let embeds :=
    match rewardsEmbed with
    | Some r => if (length embeds <? 10)%nat then embeds ++ [r] else embeds
    | None => embeds
    end in
  firstn 10 embeds.

(** The text of the objectives field of [createQuestEmbed], the baseline
    view: the first ten objectives, numbered, cut to 1024 characters. *)
Definition objective_line (idx : nat) (o : objective) : string :=
  Gemini.dec (idx + 1) +:+ ". " +:+ description o +:+
  (if optional o then " (Optional)" else "").

Definition objectives_field (q : quest) : option string :=
  match objectives q with
  | [] => None
  | objs =>
      let objText :=
        String.concat Regex.LF (imap objective_line (firstn 10 objs)) in
      Some (if (1024 <? String.length objText)%nat
            then substring0 1021 objText +:+ "..."
            else objText)
  end.

End Embeds.

(** ** Quests, pages and answers used in the examples *)

Module Examples.

Import Js Images.

Definition plain_objective (ident desc : string) : objective :=
  {| obj_id := ident; description := desc; optional := false;
     obj_type := "visit"; item := None; items := None; markerItem := None |}.

Definition no_resolve (url baseUrl : string) : option string := None.

(** A quest with eight keywords and a page whose only image sits next to
    a text that contains one of them inside a longer word. *)
Definition bunker_quest : quest :=
  {| id := "q-delivery"; name := "Delivery"; map := None;
     wikiLink := Some "https://wiki.example/Delivery";
     objectives :=
       [ plain_objective "o1"
           "Locate hidden bunker beneath abandoned factory building" ] |}.

Definition bunker_page : list img_elem :=
  [ {| src := Some "https://static.example/images/entrance.png";
       alt_attr := None; title_attr := None; width := None; height := None;
       closest_text := "Entrance of the bunkers" |} ].

Definition bunker_fetch (url : string) : fetch_result :=
  FetchResponse true bunker_page.

Definition bunker_image : wiki_image :=
  {| url := "https://static.example/images/entrance.png"; alt := ""; title := "";
     wi_description := "Entrance of the bunkers";
     relevanceScore := (inject_Z 1 / inject_Z (8 * 2))%Q; source := "wiki" |}.

(** A quest with three objectives and two answers of the model that hold a
    guide block without any objective heading. *)
Definition three_objectives : quest :=
  {| id := "q-three"; name := "Shortage"; map := None; wikiLink := None;
     objectives :=
       [ plain_objective "o1" "Alpha task"; plain_objective "o2" "Bravo task";
         plain_objective "o3" "Charlie task" ] |}.

Definition three_chunks : string :=
  "Step-by-Step Guide:" +:+ Regex.LF +:+ "Go to dorms" +:+ Regex.LF +:+ Regex.LF +:+
  "Find the key" +:+ Regex.LF +:+ Regex.LF +:+ "Extract".

Definition two_chunks : string :=
  "Step-by-Step Guide:" +:+ Regex.LF +:+ "Go to dorms" +:+ Regex.LF +:+ Regex.LF +:+
  "Find the key".

Definition no_regexp (source : string) : compiled := SyntaxError.

(** Surroundings in which the model fails at every call. *)
Definition failing_env : Env :=
  {| GEMINI_API_KEY := Some "key";
     new_GoogleGenAI := Normal ();
     model := fun _ _ => ModelThrows "503";
     buildQuestPrompt := fun q => Normal ("Quest: " +:+ name q);
     js_regexp := no_regexp;
     fetch := fun _ => FetchThrows "AbortError";
     resolve_url := no_resolve;
     searchQuest := fun _ => None |}.

(** Surroundings in which the model answers [three_chunks]. *)
Definition answering_env : Env :=
  {| GEMINI_API_KEY := Some "key";
     new_GoogleGenAI := Normal ();
     model := fun _ _ => ModelReturns (Some three_chunks);
     buildQuestPrompt := fun q => Normal ("Quest: " +:+ name q);
     js_regexp := no_regexp;
     fetch := fun _ => FetchThrows "AbortError";
     resolve_url := no_resolve;
     searchQuest := fun _ => None |}.

(** Surroundings without an API key. *)
Definition keyless_env : Env :=
  {| GEMINI_API_KEY := None;
     new_GoogleGenAI := Normal ();
     model := fun _ _ => ModelReturns (Some three_chunks);
     buildQuestPrompt := fun q => Normal ("Quest: " +:+ name q);
     js_regexp := no_regexp;
     fetch := fun _ => FetchThrows "AbortError";
     resolve_url := no_resolve;
     searchQuest := fun _ => None |}.

(** Surroundings in which the model fails at every call and is never
    reached: without an API key, and with a quest for which no prompt can
    be built. *)
Definition keyless_failing_env : Env :=
  {| GEMINI_API_KEY := None;
     new_GoogleGenAI := Normal ();
     model := fun _ _ => ModelThrows "503";
     buildQuestPrompt := fun q => Normal ("Quest: " +:+ name q);
     js_regexp := no_regexp;
     fetch := fun _ => FetchThrows "AbortError";
     resolve_url := no_resolve;
     searchQuest := fun _ => None |}.

Definition promptless_env : Env :=
  {| GEMINI_API_KEY := Some "key";
     new_GoogleGenAI := Normal ();
     model := fun _ _ => ModelThrows "503";
     buildQuestPrompt := fun _ => Throw "Cannot read properties of undefined";
     js_regexp := no_regexp;
     fetch := fun _ => FetchThrows "AbortError";
     resolve_url := no_resolve;
     searchQuest := fun _ => None |}.

(** A result of the pipeline, and a store that holds it under 500 keys. *)
Definition sample_guide : guide :=
  {| overview := "Three errands."; guide_objectives := ["a"; "b"; "c"];
     tips := "Go at night."; raw := "raw" |}.

Definition no_images : image_set :=
  {| mapImage := None; objectiveImages := []; itemImages := [];
     wikiImages := []; totalImages := 0 |}.

Definition sample_data : enrichment := Build_enrichment sample_guide no_images.

Definition full_cache : Cache.quest_cache :=
  {| NodeCache.stdTTL := 604800; NodeCache.maxKeys := 500;
     NodeCache.data :=
       list_to_map
         (List.map
            (fun n => ("quest:" +:+ Gemini.dec n +:+ ":00000000",
                       {| NodeCache.v := sample_data; NodeCache.t := 0 |}))
            (seq 0 500));
     NodeCache.hits := 0; NodeCache.misses := 0 |}.

(** The services as the process starts. *)
Definition world0 : world :=
  {| client := false; model_calls := 0; trace := [];
     questCache := Cache.questCache0 |}.

(** A quest whose second objective refers to two items, and a page with
    one image that is kept and one [img] element without [src]. *)
Definition items_quest : quest :=
  {| id := "q-items"; name := "Supplier"; map := None;
     wikiLink := Some "https://wiki.example/Supplier";
     objectives :=
       [ plain_objective "o1" "Reach the depot";
         {| obj_id := "o2"; description := "Hand over the tools";
            optional := false; obj_type := "giveItem";
            item := Some {| item_name := "Wrench";
                            iconLink := Some "https://assets.example/wrench.webp" |};
            items := Some [ {| item_name := "Pliers";
                               iconLink := Some "https://assets.example/pliers.webp" |} ];
            markerItem := None |} ] |}.

Definition srcless_page : list img_elem :=
  bunker_page ++
  [ {| src := None; alt_attr := Some "Depot"; title_attr := None;
       width := None; height := None; closest_text := "" |} ].

Definition srcless_fetch (url : string) : fetch_result :=
  FetchResponse true srcless_page.

(** A quest one description of which is no pattern: its parenthesis is
    never closed. *)
Definition unclosed_quest : quest :=
  {| id := "q-paren"; name := "Supplier"; map := None; wikiLink := None;
     objectives :=
       [ plain_objective "o1" "Alpha task";
         plain_objective "o2" "Hand over (found in raid" ] |}.

(** An answer with a heading for each of the first two objectives. *)
Definition headed_answer : string :=
  "## Overview" +:+ Regex.LF +:+ "Short one." +:+ Regex.LF +:+
  "## Step-by-Step Guide" +:+ Regex.LF +:+
  "Objective 1: go there" +:+ Regex.LF +:+
  "Objective 2: do that" +:+ Regex.LF +:+
  "## Priority Tips" +:+ Regex.LF +:+ "Be fast.".

(** Two objectives that differ in their description only. *)
Definition scavs_35940 : objective :=
  {| obj_id := "obj-1"; description := "Eliminate 35940 Scavs on Customs";
     optional := false; obj_type := "shoot";
     item := None; items := None; markerItem := None |}.

Definition scavs_48311 : objective :=
  {| obj_id := "obj-1"; description := "Eliminate 48311 Scavs on Customs";
     optional := false; obj_type := "shoot";
     item := None; items := None; markerItem := None |}.

(** An image set with a structural icon for objective 0 and a scraped
    image of score 0.9. *)
Definition relay_objective : objective :=
  plain_objective "o1" "Find the relay station near the checkpoint".

Definition relay_icon : api_image :=
  {| ai_url := "https://assets.example/relay-icon.webp";
     ai_description := "Relay"; ai_source := "api";
     ai_objectiveIndex := Some 0; ai_type := Some "icon" |}.

Definition relay_scraped : wiki_image :=
  {| url := "https://static.example/images/relay.png"; alt := "relay station";
     title := ""; wi_description := "The relay station near the checkpoint";
     relevanceScore := 9 # 10; source := "wiki" |}.

Definition relay_images : image_set :=
  {| mapImage := None;
     objectiveImages := [ {| objectiveIndex := 0; images := [relay_icon] |} ];
     itemImages := [];
     wikiImages := [relay_scraped];
     totalImages := 2 |}.

(** Scraped images that are not in the order of their scores: the second
    and the third both match the relay objective, the third better on
    every count. *)
Definition portrait_scraped : wiki_image :=
  {| url := "https://static.example/images/trader.png"; alt := "";
     title := ""; wi_description := "Trader portrait";
     relevanceScore := 3 # 10; source := "wiki" |}.

Definition station_scraped : wiki_image :=
  {| url := "https://static.example/images/station.png"; alt := "";
     title := ""; wi_description := "relay station";
     relevanceScore := 2 # 10; source := "wiki" |}.

Definition unsorted_images : image_set :=
  {| mapImage := None; objectiveImages := []; itemImages := [];
     wikiImages := [portrait_scraped; station_scraped; relay_scraped];
     totalImages := 3 |}.

(** The icon of objective 0 sits in a second entry for that index, behind
    an entry without images. *)
Definition split_images : image_set :=
  {| mapImage := None;
     objectiveImages := [ {| objectiveIndex := 0; images := [] |};
                          {| objectiveIndex := 0; images := [relay_icon] |} ];
     itemImages := [];
     wikiImages := [relay_scraped];
     totalImages := 2 |}.

(** The guide made of [three_chunks], the result it gives with the images
    of [three_objectives], the world after a first request for that quest,
    and a world whose store is full. *)
Definition three_guide : guide :=
  Gemini.parseLLMResponse no_regexp three_chunks three_objectives.

Definition three_data : enrichment :=
  Build_enrichment three_guide
    (getQuestImages (fetch answering_env) no_resolve three_objectives).

(** A chat platform that accepts everything, one on which
    [sendEnhancedResponse] throws, one on which [createQuestEmbed] throws,
    and one that refuses every edit of the message. *)
Definition accepting : Presenter :=
  {| message_reply := fun _ => Normal tt;
     thinking_edit := fun _ => Normal tt;
     send_enhanced := fun _ _ _ => Normal tt;
     regular_embed := fun _ _ => Normal tt |}.

Definition refusing_enhanced : Presenter :=
  {| message_reply := fun _ => Normal tt;
     thinking_edit := fun _ => Normal tt;
     send_enhanced := fun _ _ _ => Throw "Invalid embed";
     regular_embed := fun _ _ => Normal tt |}.

Definition refusing_regular : Presenter :=
  {| message_reply := fun _ => Normal tt;
     thinking_edit := fun _ => Normal tt;
     send_enhanced := fun _ _ _ => Normal tt;
     regular_embed := fun _ _ => Throw "Cannot read properties of undefined" |}.

Definition unreachable : Presenter :=
  {| message_reply := fun _ => Normal tt;
     thinking_edit := fun _ => Throw "Unknown Message";
     send_enhanced := fun _ _ _ => Normal tt;
     regular_embed := fun _ _ => Normal tt |}.

Definition warm_world : world :=
  snd (Orchestrator.enrich accepting answering_env three_objectives
         [three_objectives] 0 world0).

Definition full_world : world :=
  {| client := false; model_calls := 0; trace := [];
     questCache := full_cache |}.

(** Three tasks as the API lists them, and a quest of seven objectives. *)
Definition named_task (i n : string) : quest :=
  {| id := i; name := n; map := None; wikiLink := None; objectives := [] |}.

Definition punisher_tasks : list quest :=
  [ named_task "t1" "Delivery From the Past";
    named_task "t2" "The Punisher - Part 1";
    named_task "t3" "The Punisher - Part 2" ].

Definition seven_objectives : quest :=
  {| id := "q-seven"; name := "Collector"; map := None; wikiLink := None;
     objectives :=
       [ plain_objective "o1" "Alpha task"; plain_objective "o2" "Bravo task";
         plain_objective "o3" "Charlie task"; plain_objective "o4" "Delta task";
         plain_objective "o5" "Echo task"; plain_objective "o6" "Foxtrot task";
         plain_objective "o7" "Golf task" ] |}.

Definition overview_embed : embed :=
  Build_embed "Collector" (Some "**Trader:** Fence") None []
    (Some "Enhanced with AI | Powered by Google Gemini").

End Examples.

(** * Properties *)

(** ** Relevance of a context *)

Section Relevance.

Import Js Images.

Lemma keyword_points_range context k :
  (0 <= keyword_points context k <= 2)%Z.
Proof. unfold keyword_points. repeat case_match; lia. Qed.

Lemma keyword_points_occurs context k :
  occurs context k = true -> (1 <= keyword_points context k)%Z.
Proof. unfold occurs, keyword_points. intros ->. case_match; lia. Qed.

Lemma keyword_points_absent context k :
  occurs context k = false -> keyword_points context k = 0%Z.
Proof. unfold occurs, keyword_points. by intros ->. Qed.

Lemma sum_points_range context ks :
  (0 <= sum_points context ks <= 2 * Z.of_nat (length ks))%Z.
Proof.
  induction ks as [|k ks IH]; [cbn; lia|].
  unfold sum_points in *. cbn [List.map foldr length].
  pose proof (keyword_points_range context k). lia.
Qed.

(** The loop adds the points of the keywords to [score] and the number
    [m] of keywords that occur to [matchedKeywords]. *)
Lemma relevance_fold context ks score matched :
  exists m,
    fold_left (relevance_step (toLowerCase context)) ks (score, matched)
      = ((score + sum_points context ks)%Z, (matched + m)%Z) /\
    (0 <= m)%Z /\
    (m = 0 -> sum_points context ks = 0)%Z /\
    (m = 0%Z <-> Forall (fun k => occurs context k = false) ks).
Proof.
  revert score matched. induction ks as [|k ks IH]; intros score matched.
  - exists 0%Z. cbn. rewrite !Z.add_0_r. split_and!; auto; try lia; by split.
  - cbn [fold_left]. unfold sum_points. cbn [List.map foldr].
    fold (sum_points context ks).
    pose proof (sum_points_range context ks) as Hs.
    destruct (occurs context k) eqn:Hocc.
    + pose proof (keyword_points_occurs _ _ Hocc) as H1.
      assert (relevance_step (toLowerCase context) (score, matched) k
              = ((score + keyword_points context k)%Z, (matched + 1)%Z)) as ->.
      { unfold relevance_step, keyword_points. unfold occurs in Hocc.
        rewrite Hocc. case_match; f_equal. }
      destruct (IH (score + keyword_points context k)%Z (matched + 1)%Z)
        as (m & -> & Hm0 & Hz & Hall).
      exists (1 + m)%Z. split_and!; try lia.
      * f_equal; lia.
      * split; [lia|]. intros Hall'. inversion Hall'; subst. congruence.
    + pose proof (keyword_points_absent _ _ Hocc) as H0.
      assert (relevance_step (toLowerCase context) (score, matched) k
              = (score, matched)) as ->.
      { unfold relevance_step. unfold occurs in Hocc. by rewrite Hocc. }
      destruct (IH score matched) as (m & -> & Hm0 & Hz & Hall).
      exists m. rewrite H0. split_and!; try lia.
      * f_equal; lia.
      * split.
        -- intros Hm. constructor; [done | by apply Hall].
        -- intros Hall'. inversion Hall'; subst. by apply Hall.
Qed.

Lemma quotient_range a b : (0 <= a <= b)%Z -> (0 < b)%Z ->
  (0 <= inject_Z a / inject_Z b)%Q /\ (inject_Z a / inject_Z b <= 1)%Q.
Proof.
  intros Ha Hb.
  assert (0 < inject_Z b)%Q as Hb'.
  { change 0%Q with (inject_Z 0). rewrite <- Zlt_Qlt. lia. }
  split.
  - apply Qle_shift_div_l; [done|]. rewrite Qmult_0_l.
    change 0%Q with (inject_Z 0). rewrite <- Zle_Qle. lia.
  - apply Qle_shift_div_r; [done|]. rewrite Qmult_1_l. rewrite <- Zle_Qle. lia.
Qed.

(** The two ways out of [calculateRelevance] on a non-empty keyword list. *)
Lemma calculateRelevance_cases context ks :
  ks <> [] ->
  (context = "" /\ calculateRelevance context ks = 0%Q) \/
  (context <> "" /\
   exists m, (0 <= m)%Z /\
     (m = 0 -> sum_points context ks = 0)%Z /\
     (m = 0%Z <-> Forall (fun k => occurs context k = false) ks) /\
     calculateRelevance context ks =
       if (0 <? m)%Z
       then (inject_Z (sum_points context ks) / inject_Z (Z.of_nat (length ks) * 2))%Q
       else 0%Q).
Proof.
  intros Hks. unfold calculateRelevance.
  destruct context as [|c context']; [left; done|right]. split; [done|].
  destruct ks as [|k ks']; [done|]. cbn [truthy negb orb length Nat.eqb].
  destruct (relevance_fold (String c context') (k :: ks') 0 0) as (m & -> & H).
  exists m. rewrite !Z.add_0_l. destruct H as (?&?&?). by split_and!.
Qed.

Lemma calculateRelevance_nonneg context ks :
  (0 <= calculateRelevance context ks)%Q.
Proof.
  destruct ks as [|k ks].
  - unfold calculateRelevance. cbn. by rewrite orb_true_r.
  - destruct (calculateRelevance_cases context (k :: ks))
      as [[_ ->] | (_ & m & _ & _ & _ & ->)]; [done | done |].
    case_match; [|done].
    pose proof (sum_points_range context (k :: ks)).
    rewrite (Z.mul_comm (Z.of_nat _) 2).
    apply quotient_range; [lia|]. cbn [length]. lia.
Qed.

Lemma relevance_example :
  (calculateRelevance "Go north" ["relay"; "checkpoint"] <
   calculateRelevance "Find the relay station near the checkpoint"
     ["relay"; "checkpoint"])%Q.
Proof. by vm_compute. Qed.

(** C6, as stated, fails on the empty context: the guard on the context
    answers 0 before any keyword is looked at, while the empty keyword is
    one of the words of the empty context and earns the 2 points of the
    formula. *)
Lemma calculateRelevance_empty_context :
  [""] <> [] /\
  calculateRelevance "" [""] = 0%Q /\
  (relevance_spec "" [""] == 1)%Q /\
  ~ (calculateRelevance "" [""] == relevance_spec "" [""])%Q.
Proof.
  split; [discriminate|]. split; [reflexivity|]. split; [by vm_compute|].
  by vm_compute.
Qed.

(** C6, amended. On a non-empty list of keywords and a non-empty context,
    the relevance is the sum of 2 points per keyword that is one of the
    whitespace-separated words of the context and 1 point per keyword that
    only occurs inside it, case apart, divided by twice the number of
    keywords; on the empty context it is 0.  In both cases it lies between
    0 and 1 and is 0 when no keyword occurs, and the relay-station context
    scores higher than "Go north" against "relay" and "checkpoint". *)
Theorem calculateRelevance_spec (context : string) (keywords : list string) :
  keywords <> [] ->
  (context <> "" ->
   (calculateRelevance context keywords == relevance_spec context keywords)%Q) /\
  (context = "" -> calculateRelevance context keywords = 0%Q) /\
  (0 <= calculateRelevance context keywords)%Q /\
  (calculateRelevance context keywords <= 1)%Q /\
  (Forall (fun k => occurs context k = false) keywords ->
   calculateRelevance context keywords = 0%Q) /\
  (calculateRelevance "Go north" ["relay"; "checkpoint"] <
   calculateRelevance "Find the relay station near the checkpoint"
     ["relay"; "checkpoint"])%Q.
Proof.
  intros Hks.
  assert (0 < 2 * Z.of_nat (length keywords))%Z as Hlen.
  { destruct keywords; [done | cbn [length]; lia]. }
  pose proof (sum_points_range context keywords) as Hsum.
  unfold relevance_spec.
  split_and!; [..| apply relevance_example];
    destruct (calculateRelevance_cases context keywords Hks)
      as [[-> ->] | (Hctx & m & Hm & Hz & Hall & ->)];
    try done.
  - intros _. destruct (Z.ltb_spec 0 m) as [Hpos | Hzero].
    + by rewrite (Z.mul_comm (Z.of_nat _) 2).
    + assert (m = 0%Z) as -> by lia. rewrite Hz by done.
      unfold Qdiv. by rewrite Qmult_0_l.
  - destruct (Z.ltb_spec 0 m) as [Hpos | Hzero]; [|done].
    rewrite (Z.mul_comm (Z.of_nat _) 2). apply quotient_range; lia.
  - destruct (Z.ltb_spec 0 m) as [Hpos | Hzero]; [|done].
    rewrite (Z.mul_comm (Z.of_nat _) 2). apply quotient_range; lia.
  - intros Hnone. apply Hall in Hnone. by subst m.
Qed.

Lemma calculateRelevance_spec_witness :
  ["relay"; "tow"; "bunker"] <> [] /\
  "Relay tower" <> "" /\
  (calculateRelevance "Relay tower" ["relay"; "tow"; "bunker"] ==
   relevance_spec "Relay tower" ["relay"; "tow"; "bunker"])%Q.
Proof.
  assert (["relay"; "tow"; "bunker"] <> []) as Hks by discriminate.
  assert ("Relay tower" <> "") as Hctx by discriminate.
  split; [exact Hks|]. split; [exact Hctx|].
  exact (proj1 (calculateRelevance_spec "Relay tower" ["relay"; "tow"; "bunker"] Hks)
           Hctx).
Defined.

End Relevance.

(** ** Order of the scraped images and the per-objective match *)

Section Matching.

Import Js Images Examples.

Lemma Qle_bool_false x y : Qle_bool x y = false -> (y <= x)%Q.
Proof.
  intros H. destruct (Qlt_le_dec y x) as [Hlt | Hle].
  - by apply Qlt_le_weak.
  - apply Qle_bool_iff in Hle. congruence.
Qed.

Lemma elem_of_insert_desc x y l : y ∈ insert_desc x l <-> y = x \/ y ∈ l.
Proof.
  induction l as [|z l IH]; cbn.
  - rewrite list_elem_of_singleton, elem_of_nil. tauto.
  - case_match.
    + rewrite !elem_of_cons. tauto.
    + rewrite !elem_of_cons, IH. tauto.
Qed.

Lemma elem_of_sort_desc y l : y ∈ sort_desc l <-> y ∈ l.
Proof.
  induction l as [|x l IH]; cbn; [done|].
  rewrite elem_of_insert_desc, elem_of_cons. unfold sort_desc in IH. by rewrite IH.
Qed.

Lemma insert_desc_sorted x l : sorted_desc l -> sorted_desc (insert_desc x l).
Proof.
  unfold sorted_desc. induction 1 as [|y l Hl IH Hy]; cbn.
  - repeat constructor.
  - destruct (Qle_bool (relevanceScore y) (relevanceScore x)) eqn:Hle.
    + apply Qle_bool_iff in Hle. constructor; [by constructor|].
      constructor; [done|]. eapply Forall_impl; [exact Hy|].
      cbn. intros z Hz. eapply Qle_trans; eassumption.
    + apply Qle_bool_false in Hle. constructor; [done|].
      apply Forall_forall. intros z Hz.
      apply elem_of_insert_desc in Hz as [->|Hz]; [done|].
      rewrite Forall_forall in Hy. by apply Hy.
Qed.

Lemma sort_desc_sorted l : sorted_desc (sort_desc l).
Proof.
  induction l as [|x l IH]; cbn; [constructor|]. by apply insert_desc_sorted.
Qed.

Lemma firstn_sorted n l : sorted_desc l -> sorted_desc (firstn n l).
Proof.
  unfold sorted_desc. intros H. revert n.
  induction H as [|y l Hl IH Hy]; intros [|n]; cbn; try constructor; [apply IH|].
  apply Forall_forall. intros z Hz. rewrite Forall_forall in Hy. apply Hy.
  rewrite <- (take_drop n l). apply elem_of_app. by left.
Qed.

Lemma filter_sorted (P : wiki_image -> bool) l :
  sorted_desc l -> sorted_desc (List.filter P l).
Proof.
  unfold sorted_desc. induction 1 as [|y l Hl IH Hy]; cbn; [constructor|].
  case_match; [|done]. constructor; [done|].
  apply Forall_forall. intros z Hz. rewrite Forall_forall in Hy. apply Hy.
  apply list_elem_of_In, filter_In in Hz. by apply list_elem_of_In, Hz.
Qed.

(** In a list ordered by decreasing score the best-scoring image is the
    first one. *)
Lemma best_scoring_sorted l : sorted_desc l -> best_scoring l = head l.
Proof.
  unfold sorted_desc. induction 1 as [|y l Hl IH Hy]; cbn; [done|].
  rewrite IH. destruct l as [|z l']; cbn; [done|].
  inversion Hy as [|? ? Hz _]; subst.
  apply Qle_bool_iff in Hz. by rewrite Hz.
Qed.

Lemma find_head_filter {A} (P : A -> bool) l :
  List.find P l = head (List.filter P l).
Proof. induction l as [|x l IH]; cbn; [done|]. by case_match. Qed.

(** What the collector returns is ordered by decreasing score. *)
Lemma scrapeWikiImages_sorted fetch resolve link q :
  sorted_desc (scrapeWikiImages fetch resolve link q).
Proof.
  unfold scrapeWikiImages. case_match; [constructor|].
  destruct (fetch link) as [e | ok page]; cbn; [constructor|].
  destruct ok; cbn; [|constructor].
  destruct (scrape_each _ _ _ _ _) as [imgs | e]; cbn; [|constructor].
  apply firstn_sorted, sort_desc_sorted.
Qed.

Lemma getQuestImages_sorted fetch resolve q :
  sorted_desc (wikiImages (getQuestImages fetch resolve q)).
Proof.
  unfold getQuestImages. cbn. repeat case_match; try constructor.
  apply scrapeWikiImages_sorted.
Qed.

(** ** Stored score of a kept image *)

Lemma scrape_image_stored resolve link kw elem img :
  scrape_image resolve link kw elem = Normal (Some img) ->
  stored_as (calculateRelevance (context_of elem) kw) img.
Proof.
  unfold scrape_image. intros H.
  repeat (case_match; try discriminate); simplify_eq; unfold stored_as; cbn.
  - left. split; [|done]. by apply Qeq_bool_iff.
  - right. split; [|done].
    pose proof (calculateRelevance_nonneg (context_of elem) kw) as Hnn.
    apply Qle_lteq in Hnn as [Hlt | Heq]; [done|].
    symmetry in Heq. apply Qeq_bool_iff in Heq. congruence.
Qed.

Lemma scrape_each_origin resolve link kw elems acc imgs img :
  scrape_each resolve link kw elems acc = Normal imgs ->
  img ∈ imgs ->
  img ∈ acc \/
  exists elem, elem ∈ elems /\ scrape_image resolve link kw elem = Normal (Some img).
Proof.
  revert acc. induction elems as [|elem elems IH]; intros acc; cbn.
  - intros [= ->]. by left.
  - destruct (scrape_image resolve link kw elem) as [pushed|e] eqn:Hs; cbn; [|done].
    intros Heach Himg. destruct (IH _ Heach Himg) as [Hacc | (elem' & Hin & Hs')].
    + apply elem_of_app in Hacc as [Hacc | Hnew]; [by left|].
      right. exists elem. split; [left|].
      destruct pushed as [i|]; cbn in Hnew; [|by apply elem_of_nil in Hnew].
      apply list_elem_of_singleton in Hnew. by subst.
    + right. exists elem'. split; [by right | done].
Qed.

Lemma stored_as_positive r img : stored_as r img -> (0 < relevanceScore img)%Q.
Proof. intros [[_ ->] | [Hr ->]]; [reflexivity | done]. Qed.

(** The image kept from [bunker_page] carries the score 1/16. *)
Lemma bunker_scrape :
  scrapeWikiImages bunker_fetch no_resolve "https://wiki.example/Delivery"
    bunker_quest = [bunker_image].
Proof. by vm_compute. Qed.

(** C10, as stated, fails: an image whose context holds one of eight
    keywords inside a longer word is kept as a content image with the
    score 1/16, below 0.1. *)
Lemma kept_image_below_tenth :
  ~ Forall (fun img => (1 # 10 <= relevanceScore img)%Q)
      (scrapeWikiImages bunker_fetch no_resolve "https://wiki.example/Delivery"
         bunker_quest).
Proof.
  rewrite bunker_scrape. intros H. inversion H as [|? ? Hle _]; subst.
  by vm_compute in Hle.
Qed.

(** C10, amended. Every kept image comes from an element of the fetched
    page and carries a stored score above 0: the score is 0.1 when the
    computed relevance of the element is 0, and the computed relevance
    itself otherwise. *)
Theorem kept_image_score_positive fetch resolve link (q : quest) (img : wiki_image) :
  img ∈ scrapeWikiImages fetch resolve link q ->
  (0 < relevanceScore img)%Q /\
  exists page elem,
    fetch link = FetchResponse true page /\ elem ∈ page /\
    stored_as (calculateRelevance (context_of elem) (quest_keywords q)) img.
Proof.
  unfold scrapeWikiImages. case_match; [by intros ?%elem_of_nil|].
  destruct (fetch link) as [e | ok page] eqn:Hfetch; cbn;
    [by intros ?%elem_of_nil|].
  destruct ok; cbn; [|by intros ?%elem_of_nil].
  destruct (scrape_each _ _ _ _ _) as [imgs | e] eqn:Heach; cbn;
    [|by intros ?%elem_of_nil].
  intros Himg.
  assert (img ∈ imgs) as Hin.
  { apply elem_of_sort_desc. rewrite <- (take_drop 10 (sort_desc imgs)).
    apply elem_of_app. by left. }
  destruct (scrape_each_origin _ _ _ _ _ _ _ Heach Hin)
    as [Hnil | (elem & Helem & Hs)]; [by apply elem_of_nil in Hnil|].
  apply scrape_image_stored in Hs.
  split; [by eapply stored_as_positive|]. by exists page, elem.
Qed.

Lemma kept_image_score_positive_witness :
  bunker_image ∈ scrapeWikiImages bunker_fetch no_resolve
                   "https://wiki.example/Delivery" bunker_quest /\
  (0 < relevanceScore bunker_image)%Q.
Proof.
  assert (bunker_image ∈ scrapeWikiImages bunker_fetch no_resolve
                           "https://wiki.example/Delivery" bunker_quest) as Hin.
  { rewrite bunker_scrape. apply list_elem_of_singleton. reflexivity. }
  split; [exact Hin|].
  exact (proj1 (kept_image_score_positive bunker_fetch no_resolve
                  "https://wiki.example/Delivery" bunker_quest bunker_image Hin)).
Defined.

End Matching.

(** ** The fingerprint *)

Section Fingerprint.

Import Js Cache Examples.

Lemma string_app_cons c s t : String c s +:+ t = String c (s +:+ t).
Proof. reflexivity. Qed.

Lemma string_length_cons c s : String.length (String c s) = S (String.length s).
Proof. reflexivity. Qed.

Lemma string_length_app s t :
  String.length (s +:+ t) = String.length s + String.length t.
Proof.
  induction s as [|c s IH]; [done|].
  by rewrite string_app_cons, !string_length_cons, IH.
Qed.


Lemma string_app_inv_head p s1 s2 : p +:+ s1 = p +:+ s2 -> s1 = s2.
Proof.
  induction p as [|c p IH]; [done|].
  rewrite !string_app_cons. intros [= Heq]. by apply IH.
Qed.

Lemma substring0_length n s :
  String.length (substring0 n s) = Nat.min n (String.length s).
Proof.
  unfold substring0. revert s.
  induction n as [|n IH]; intros [|c s]; simpl; try done. by rewrite IH.
Qed.









End Fingerprint.

(** ** The generator *)

Section GeneratorProps.

Import Js Generator Orchestrator Examples.

Lemma model_invocations_app tr1 tr2 :
  model_invocations (tr1 ++ tr2) = model_invocations tr1 + model_invocations tr2.
Proof. unfold model_invocations. by rewrite List.filter_app, length_app. Qed.

Lemma initializeGemini_world E w :
  trace (snd (initializeGemini E w)) = trace w /\
  model_calls (snd (initializeGemini E w)) = model_calls w /\
  questCache (snd (initializeGemini E w)) = questCache w /\
  (fst (initializeGemini E w) = true -> client (snd (initializeGemini E w)) = true).
Proof. unfold initializeGemini. repeat case_match; cbn; done. Qed.

(** The three courses of the retry loop started afresh. *)
Lemma retry_loop_cases E prompt w :
  let n := model_calls w in
  retry_loop E (S maxAttempts) prompt None 0 w =
  match model E n prompt with
  | ModelReturns text =>
      (Some text, 1, count_call (record (EvModelCall prompt) w))
  | ModelThrows _ =>
      let w1 := record (EvDelay 1000) (count_call (record (EvModelCall prompt) w)) in
      match model E (S n) prompt with
      | ModelReturns text =>
          (Some text, 2, count_call (record (EvModelCall prompt) w1))
      | ModelThrows _ =>
          (None, 2, count_call (record (EvModelCall prompt) w1))
      end
  end.
Proof.
  cbn. destruct (model E (model_calls w) prompt); cbn; [|done].
  destruct (model E (S (model_calls w)) prompt); cbn; done.
Qed.

Lemma retry_loop_fuel E fuel prompt w :
  retry_loop E (maxAttempts + fuel) prompt None 0 w
  = retry_loop E maxAttempts prompt None 0 w.
Proof.
  cbn. destruct (model E (model_calls w) prompt); cbn.
  - destruct (model E (S (model_calls w)) prompt); cbn; by destruct fuel.
  - by destruct fuel.
Qed.

(** The generator as a function of the world in which a client is at hand. *)
Lemma generateQuestGuide_ready E q w :
  client_available E w = true ->
  exists w', trace w' = trace w /\ model_calls w' = model_calls w /\
    questCache w' = questCache w /\
    generateQuestGuide E q w =
    catching
      (match buildQuestPrompt E q with
       | Throw e => (Throw e, w')
       | Normal prompt =>
           let '(result, _, w'') := retry_loop E (S maxAttempts) prompt None 0 w' in
           match result with
           | None => (Throw "Failed after maximum retry attempts", w'')
           | Some response =>
               (Normal (Some (Gemini.parseLLMResponse (js_regexp E)
                                (or_else (default "" response) "") q)), w'')
           end
       end) None.
Proof.
  unfold client_available, generateQuestGuide. intros Hav.
  destruct (client w) eqn:Hc.
  - exists w. by split_and!.
  - cbn in Hav. destruct (initializeGemini_world E w) as (Ht & Hm & Hq & _).
    destruct (initializeGemini E w) as [ready w'] eqn:Hi. cbn in *. subst ready.
    exists w'. by split_and!.
Qed.

Lemma generateQuestGuide_unready E q w :
  client_available E w = false ->
  fst (generateQuestGuide E q w) = Normal None /\
  trace (snd (generateQuestGuide E q w)) = trace w /\
  questCache (snd (generateQuestGuide E q w)) = questCache w.
Proof.
  unfold client_available, generateQuestGuide. intros Hav.
  apply orb_false_iff in Hav as [-> Hav].
  destruct (initializeGemini_world E w) as (Ht & Hm & Hq & _).
  destruct (initializeGemini E w) as [ready w'] eqn:Hi. cbn in *. subst ready. done.
Qed.

(** What a run of the generator does to the world: it appends calls of the
    model and delays to the trace, at most [maxAttempts] calls, and leaves
    the cache alone. *)
Lemma generateQuestGuide_frame E q w :
  (exists g, fst (generateQuestGuide E q w) = Normal g) /\
  questCache (snd (generateQuestGuide E q w)) = questCache w /\
  exists evs, trace (snd (generateQuestGuide E q w)) = trace w ++ evs /\
    forallb is_model_event evs = true /\ (model_invocations evs <= maxAttempts)%nat.
Proof.
  destruct (client_available E w) eqn:Hav.
  - destruct (generateQuestGuide_ready E q w Hav) as (w' & Ht & Hm & Hq & ->).
    destruct (buildQuestPrompt E q) as [prompt|e].
    + rewrite retry_loop_cases. rewrite Hm.
      destruct (model E (model_calls w) prompt) as [message|text]; cbn -[Gemini.parseLLMResponse].
      * destruct (model E (S (model_calls w)) prompt); cbn -[Gemini.parseLLMResponse]; rewrite Ht, Hq.
        -- split; [eauto|]. split; [done|].
           exists [EvModelCall prompt; EvDelay 1000; EvModelCall prompt].
           rewrite <- !app_assoc. split; [done|].
           split; [reflexivity | unfold maxAttempts; cbn -[Gemini.parseLLMResponse]; lia].
        -- split; [eauto|]. split; [done|].
           exists [EvModelCall prompt; EvDelay 1000; EvModelCall prompt].
           rewrite <- !app_assoc. split; [done|].
           split; [reflexivity | unfold maxAttempts; cbn -[Gemini.parseLLMResponse]; lia].
      * rewrite Ht, Hq. split; [eauto|]. split; [done|].
        exists [EvModelCall prompt]. split; [done|].
        split; [reflexivity | unfold maxAttempts; cbn -[Gemini.parseLLMResponse]; lia].
    + cbn -[Gemini.parseLLMResponse]. rewrite Ht, Hq. split; [eauto|]. split; [done|]. exists [].
      rewrite app_nil_r. split; [done|]. split; [reflexivity | unfold maxAttempts; cbn -[Gemini.parseLLMResponse]; lia].
  - destruct (generateQuestGuide_unready E q w Hav) as (-> & -> & ->).
    split; [eauto|]. split; [done|]. exists [].
    rewrite app_nil_r. split; [done|]. split; [reflexivity | unfold maxAttempts; cbn -[Gemini.parseLLMResponse]; lia].
Qed.

(** X8. [generateQuestGuide] returns without throwing and calls the model
    at most twice.  With a client at hand and a prompt built, a first
    answer ends the run after one call; after a first failure the
    generator waits 1000 ms and calls once more; two failures give [null].
    A model that always fails is called exactly twice. *)
Theorem generateQuestGuide_retry (E : Env) (q : quest) (w : world) :
  (exists g, fst (generateQuestGuide E q w) = Normal g) /\
  (model_invocations (trace (snd (generateQuestGuide E q w)))
     <= model_invocations (trace w) + 2)%nat /\
  (forall prompt,
     client_available E w = true ->
     buildQuestPrompt E q = Normal prompt ->
     (forall text,
        model E (model_calls w) prompt = ModelReturns text ->
        trace (snd (generateQuestGuide E q w)) = trace w ++ [EvModelCall prompt] /\
        fst (generateQuestGuide E q w)
          = Normal (Some (Gemini.parseLLMResponse (js_regexp E)
                            (or_else (default "" text) "") q))) /\
     (forall message,
        model E (model_calls w) prompt = ModelThrows message ->
        trace (snd (generateQuestGuide E q w))
          = trace w ++ [EvModelCall prompt; EvDelay 1000; EvModelCall prompt] /\
        (forall text,
           model E (S (model_calls w)) prompt = ModelReturns text ->
           fst (generateQuestGuide E q w)
             = Normal (Some (Gemini.parseLLMResponse (js_regexp E)
                               (or_else (default "" text) "") q))) /\
        (forall message',
           model E (S (model_calls w)) prompt = ModelThrows message' ->
           fst (generateQuestGuide E q w) = Normal None)) /\
     ((forall n, exists message, model E n prompt = ModelThrows message) ->
      model_invocations (trace (snd (generateQuestGuide E q w)))
        = model_invocations (trace w) + 2 /\
      fst (generateQuestGuide E q w) = Normal None)).
Proof.
  destruct (generateQuestGuide_frame E q w) as (Hret & _ & evs & Htr & _ & Hle).
  split; [done|]. split.
  { rewrite Htr, model_invocations_app. unfold maxAttempts in Hle. lia. }
  clear Hret evs Htr Hle. intros prompt Hav Hprompt.
  destruct (generateQuestGuide_ready E q w Hav) as (w' & Ht & Hm & Hq & ->).
  rewrite Hprompt, retry_loop_cases, Hm. split_and!.
  - intros text ->. cbn -[Gemini.parseLLMResponse]. by rewrite Ht.
  - intros message ->.
    destruct (model E (S (model_calls w)) prompt) eqn:Hsecond; cbn -[Gemini.parseLLMResponse];
      rewrite Ht, <- !app_assoc; (split; [done|]); split; intros; by simplify_eq.
  - intros Hfail. destruct (Hfail (model_calls w)) as [m1 ->].
    destruct (Hfail (S (model_calls w))) as [m2 ->]. cbn -[model_invocations].
    rewrite Ht, <- !app_assoc, model_invocations_app. done.
Qed.

Lemma generateQuestGuide_retry_witness :
  client_available failing_env world0 = true /\
  buildQuestPrompt failing_env three_objectives = Normal "Quest: Shortage" /\
  (forall n, exists message,
     model failing_env n "Quest: Shortage" = ModelThrows message) /\
  model_invocations (trace (snd (generateQuestGuide failing_env three_objectives world0)))
    = model_invocations (trace world0) + 2 /\
  fst (generateQuestGuide failing_env three_objectives world0) = Normal None.
Proof.
  assert (forall n, exists message,
            model failing_env n "Quest: Shortage" = ModelThrows message) as Hfail.
  { intros n. by exists "503". }
  split; [reflexivity|]. split; [reflexivity|]. split; [exact Hfail|].
  destruct (generateQuestGuide_retry failing_env three_objectives world0)
    as (_ & _ & Hrun).
  destruct (Hrun "Quest: Shortage" eq_refl eq_refl) as (_ & _ & Hboth).
  exact (Hboth Hfail).
Defined.

(** X9. Without a client (no API key, or a constructor that throws), or
    when the prompt cannot be built, [generateQuestGuide] returns [null]
    and neither calls the model nor waits: the trace and the call counter
    are as before. *)
Theorem generateQuestGuide_unavailable (E : Env) (q : quest) (w : world) :
  (client_available E w = false \/
   exists e, buildQuestPrompt E q = Throw e) ->
  fst (generateQuestGuide E q w) = Normal None /\
  trace (snd (generateQuestGuide E q w)) = trace w /\
  model_calls (snd (generateQuestGuide E q w)) = model_calls w.
Proof.
  intros [Hav | [e He]].
  - unfold client_available, generateQuestGuide in *.
    apply orb_false_iff in Hav as [-> Hav].
    destruct (initializeGemini_world E w) as (Ht & Hm & _ & _).
    destruct (initializeGemini E w) as [ready w'] eqn:Hi.
    cbn in *. by subst ready.
  - destruct (client_available E w) eqn:Hav.
    + destruct (generateQuestGuide_ready E q w Hav) as (w' & Ht & Hm & Hq & ->).
      rewrite He. cbn. done.
    + unfold client_available, generateQuestGuide in *.
      apply orb_false_iff in Hav as [-> Hav].
      destruct (initializeGemini_world E w) as (Ht & Hm & _ & _).
      destruct (initializeGemini E w) as [ready w'] eqn:Hi.
      cbn in *. by subst ready.
Qed.

Lemma generateQuestGuide_unavailable_witness :
  (client_available keyless_env world0 = false \/
   exists e, buildQuestPrompt keyless_env three_objectives = Throw e) /\
  fst (generateQuestGuide keyless_env three_objectives world0) = Normal None /\
  trace (snd (generateQuestGuide keyless_env three_objectives world0)) = [].
Proof.
  assert (client_available keyless_env world0 = false \/
          exists e, buildQuestPrompt keyless_env three_objectives = Throw e) as H.
  { left. reflexivity. }
  split; [exact H|].
  destruct (generateQuestGuide_unavailable keyless_env three_objectives world0 H)
    as (Hnull & Htrace & _).
  split; [exact Hnull | exact Htrace].
Defined.

End GeneratorProps.

(** ** The store behind [services/cache.js] *)

Section StoreProps.

Import Js Cache Examples.

Lemma ttl_or_default_nonzero ttl : ttl_or_default ttl <> 0%Z.
Proof.
  unfold ttl_or_default, defaultTTL. destruct ttl as [n|]; [|done].
  destruct (Z.eqb_spec n 0); lia.
Qed.

Lemma setCachedQuestGuide_cases questId objectives data ttl now c :
  setCachedQuestGuide questId objectives data ttl now c =
  if is_full c then (Normal false, c)
  else
    (Normal true,
     {| NodeCache.stdTTL := NodeCache.stdTTL c;
        NodeCache.maxKeys := NodeCache.maxKeys c;
        NodeCache.data :=
          <[generateCacheKey questId objectives :=
              {| NodeCache.v := data; NodeCache.t := expiry ttl now |}]>
            (NodeCache.data c);
        NodeCache.hits := NodeCache.hits c;
        NodeCache.misses := NodeCache.misses c |}).
Proof.
  unfold setCachedQuestGuide, NodeCache.set, is_full, expiry.
  destruct (_ && _); [done|]. cbn.
  pose proof (ttl_or_default_nonzero ttl) as Hnz.
  destruct (Z.eqb_spec (ttl_or_default ttl) 0); [done|]. done.
Qed.

(** X1. [setCachedQuestGuide] never throws.  On a full store the refusal
    of node-cache is swallowed: the answer is [false] and the store is
    left as it was.  Otherwise the answer is [true] and the entry is stored
    under the fingerprint with the expiry instant [now + ttl * 1000], the
    time to live being seven days when none (or 0) is given. *)
Theorem setCachedQuestGuide_never_throws questId objectives (data : enrichment)
    (ttl : option Z) (now : Z) (c : quest_cache) :
  (exists success,
     fst (setCachedQuestGuide questId objectives data ttl now c) = Normal success) /\
  (is_full c = true ->
   setCachedQuestGuide questId objectives data ttl now c = (Normal false, c)) /\
  (is_full c = false ->
   fst (setCachedQuestGuide questId objectives data ttl now c) = Normal true /\
   NodeCache.data (snd (setCachedQuestGuide questId objectives data ttl now c))
     !! generateCacheKey questId objectives
   = Some {| NodeCache.v := data; NodeCache.t := expiry ttl now |}).
Proof.
  rewrite setCachedQuestGuide_cases. destruct (is_full c); cbn.
  - split; [eauto|]. split; [done|]. discriminate.
  - split; [eauto|]. split; [discriminate|]. intros _. split; [done|].
    apply lookup_insert_eq.
Qed.

Lemma full_cache_is_full : is_full full_cache = true.
Proof. by vm_compute. Qed.

(** A lookup that follows a write in time finds what was written. *)
Lemma get_after_set questId objectives (data : enrichment) (ttl : option Z)
    (now now' : Z) (c c' : quest_cache) :
  setCachedQuestGuide questId objectives data ttl now c = (Normal true, c') ->
  (now' <= expiry ttl now)%Z ->
  fst (getCachedQuestGuide questId objectives now' c') = Normal (Some data) /\
  NodeCache.data (snd (getCachedQuestGuide questId objectives now' c'))
    = NodeCache.data c' /\
  NodeCache.hits (snd (getCachedQuestGuide questId objectives now' c'))
    = S (NodeCache.hits c).
Proof.
  rewrite setCachedQuestGuide_cases. destruct (is_full c); [done|].
  intros [= <-] Hnow. unfold getCachedQuestGuide, NodeCache.get. cbn.
  rewrite lookup_insert_eq. unfold NodeCache.expired. cbn.
  destruct (Z.ltb_spec (expiry ttl now) now'); [lia|].
  rewrite andb_false_r. cbn. done.
Qed.

(** X2. Round trip: after a successful [setCachedQuestGuide], a
    [getCachedQuestGuide] for the same quest and objectives, made no later
    than the expiry instant, returns the very data that was stored, keeps
    the entries and counts one hit. *)
Theorem cache_round_trip questId objectives (data : enrichment) (ttl : option Z)
    (now now' : Z) (c c' : quest_cache) :
  setCachedQuestGuide questId objectives data ttl now c = (Normal true, c') ->
  (now' <= expiry ttl now)%Z ->
  fst (getCachedQuestGuide questId objectives now' c') = Normal (Some data) /\
  NodeCache.data (snd (getCachedQuestGuide questId objectives now' c'))
    = NodeCache.data c' /\
  NodeCache.hits (snd (getCachedQuestGuide questId objectives now' c'))
    = S (NodeCache.hits c).
Proof. apply get_after_set. Qed.

(** X3. Expiry: after a successful [setCachedQuestGuide] whose expiry
    instant [now + ttl * 1000] is not 0, a [getCachedQuestGuide] made after
    that instant returns [null], drops the entry and counts one miss.  An
    expiry instant of exactly 0, which a negative time to live can give,
    is read by the store as no expiry: the entry is then served at every
    instant. *)
Theorem cache_expiry questId objectives (data : enrichment) (ttl : option Z)
    (now now' : Z) (c c' : quest_cache) :
  setCachedQuestGuide questId objectives data ttl now c = (Normal true, c') ->
  (expiry ttl now <> 0%Z ->
   (expiry ttl now < now')%Z ->
   fst (getCachedQuestGuide questId objectives now' c') = Normal None /\
   NodeCache.data (snd (getCachedQuestGuide questId objectives now' c'))
     !! generateCacheKey questId objectives = None /\
   NodeCache.misses (snd (getCachedQuestGuide questId objectives now' c'))
     = S (NodeCache.misses c)) /\
  (expiry ttl now = 0%Z ->
   fst (getCachedQuestGuide questId objectives now' c') = Normal (Some data)).
Proof.
  rewrite setCachedQuestGuide_cases. destruct (is_full c); [done|].
  intros [= <-]. unfold getCachedQuestGuide, NodeCache.get. cbn.
  rewrite lookup_insert_eq. unfold NodeCache.expired. cbn. split.
  - intros Hnz Hnow.
    destruct (Z.eqb_spec (expiry ttl now) 0); [done|].
    destruct (Z.ltb_spec (expiry ttl now) now'); [|lia]. cbn.
    split; [done|]. split; [apply lookup_delete_eq | done].
  - intros ->. done.
Qed.

Lemma getCachedQuestGuide_get questId objectives now (c : quest_cache) :
  getCachedQuestGuide questId objectives now c
  = NodeCache.get (generateCacheKey questId objectives) now c.
Proof.
  unfold getCachedQuestGuide, NodeCache.get.
  destruct (NodeCache.data c !! _) as [e|]; [|done]. by destruct (NodeCache.expired now e).
Qed.

(** After a lookup that missed, the key is not in the store. *)
Lemma get_miss_absent key now (c : quest_cache) :
  fst (NodeCache.get key now c) = Normal None ->
  NodeCache.data (snd (NodeCache.get key now c)) !! key = None.
Proof.
  unfold NodeCache.get. destruct (NodeCache.data c !! key) as [e|] eqn:Hk; [|done].
  destruct (NodeCache.expired now e); cbn; [|done]. intros _. apply lookup_delete_eq.
Qed.

Lemma get_keys_le key now (c : quest_cache) :
  (NodeCache.keys (snd (NodeCache.get key now c)) <= NodeCache.keys c)%Z /\
  NodeCache.maxKeys (snd (NodeCache.get key now c)) = NodeCache.maxKeys c.
Proof.
  unfold NodeCache.get, NodeCache.keys.
  destruct (NodeCache.data c !! key) as [e|] eqn:Hk; [|cbn; lia].
  destruct (NodeCache.expired now e); cbn; [|lia].
  split; [|done]. rewrite map_size_delete_Some by eauto. lia.
Qed.

(** X4. [clearQuestCache] returns 1 when the fingerprint was stored and 0
    otherwise; afterwards the quest is no longer served from the store, at
    any instant, and the entries under other keys are untouched. *)
Theorem clearQuestCache_spec questId objectives (now : Z) (c : quest_cache) :
  fst (clearQuestCache questId objectives c)
    = Normal (match NodeCache.data c !! generateCacheKey questId objectives with
              | Some _ => 1
              | None => 0
              end) /\
  fst (getCachedQuestGuide questId objectives now
         (snd (clearQuestCache questId objectives c))) = Normal None /\
  (forall key, key <> generateCacheKey questId objectives ->
     NodeCache.data (snd (clearQuestCache questId objectives c)) !! key
       = NodeCache.data c !! key).
Proof.
  unfold clearQuestCache, NodeCache.del.
  destruct (NodeCache.data c !! generateCacheKey questId objectives) as [e|] eqn:Hk;
    cbn.
  - split; [done|]. split.
    + rewrite getCachedQuestGuide_get. unfold NodeCache.get. cbn.
      by rewrite lookup_delete_eq.
    + intros key Hne. by apply lookup_delete_ne.
  - split; [done|]. split; [|done].
    rewrite getCachedQuestGuide_get. unfold NodeCache.get. by rewrite Hk.
Qed.

(** X5. After [clearCache] the statistics read no key, no hit and no
    miss, no quest is served from the store, and a store with a positive
    key limit accepts the next write, also when it was full before. *)
Theorem clearCache_spec questId objectives (data : enrichment) (ttl : option Z)
    (now : Z) (c : quest_cache) :
  getCacheStats (clearCache c) = (0%Z, 0, 0) /\
  fst (getCachedQuestGuide questId objectives now (clearCache c)) = Normal None /\
  ((0 < NodeCache.maxKeys c)%Z ->
   fst (setCachedQuestGuide questId objectives data ttl now (clearCache c))
     = Normal true).
Proof.
  split; [reflexivity|]. split.
  - rewrite getCachedQuestGuide_get. unfold NodeCache.get, clearCache. cbn.
    by rewrite lookup_empty.
  - intros Hmax. rewrite setCachedQuestGuide_cases.
    assert (is_full (clearCache c) = false) as ->; [|done].
    unfold is_full, clearCache, NodeCache.flushAll, NodeCache.keys. cbn.
    rewrite map_size_empty. apply andb_false_iff. right.
    apply Z.leb_gt. lia.
Qed.

Lemma setCachedQuestGuide_never_throws_witness :
  is_full full_cache = true /\
  setCachedQuestGuide "q-three" (Some (objectives three_objectives)) sample_data
    None 0 full_cache = (Normal false, full_cache).
Proof.
  assert (is_full full_cache = true) as Hfull by (vm_compute; reflexivity).
  split; [exact Hfull|].
  exact (proj1 (proj2 (setCachedQuestGuide_never_throws "q-three"
                         (Some (objectives three_objectives)) sample_data None 0
                         full_cache)) Hfull).
Defined.

Lemma cache_round_trip_witness :
  setCachedQuestGuide "q-three" (Some (objectives three_objectives)) sample_data
    (Some 60%Z) 1000 questCache0
  = (Normal true,
     snd (setCachedQuestGuide "q-three" (Some (objectives three_objectives))
            sample_data (Some 60%Z) 1000 questCache0)) /\
  (61000 <= expiry (Some 60%Z) 1000)%Z /\
  fst (getCachedQuestGuide "q-three" (Some (objectives three_objectives)) 61000
         (snd (setCachedQuestGuide "q-three" (Some (objectives three_objectives))
                 sample_data (Some 60%Z) 1000 questCache0)))
  = Normal (Some sample_data).
Proof.
  assert (setCachedQuestGuide "q-three" (Some (objectives three_objectives))
            sample_data (Some 60%Z) 1000 questCache0
          = (Normal true,
             snd (setCachedQuestGuide "q-three" (Some (objectives three_objectives))
                    sample_data (Some 60%Z) 1000 questCache0))) as Hset
    by (vm_compute; reflexivity).
  assert (61000 <= expiry (Some 60%Z) 1000)%Z as Hnow by (vm_compute; discriminate).
  split; [exact Hset|]. split; [exact Hnow|].
  exact (proj1 (cache_round_trip _ _ _ _ _ _ _ _ Hset Hnow)).
Defined.

Lemma cache_expiry_witness :
  setCachedQuestGuide "q-three" (Some (objectives three_objectives)) sample_data
    (Some 60%Z) 1000 questCache0
  = (Normal true,
     snd (setCachedQuestGuide "q-three" (Some (objectives three_objectives))
            sample_data (Some 60%Z) 1000 questCache0)) /\
  expiry (Some 60%Z) 1000 <> 0%Z /\
  (expiry (Some 60%Z) 1000 < 61001)%Z /\
  fst (getCachedQuestGuide "q-three" (Some (objectives three_objectives)) 61001
         (snd (setCachedQuestGuide "q-three" (Some (objectives three_objectives))
                 sample_data (Some 60%Z) 1000 questCache0)))
  = Normal None /\
  expiry (Some (-5)%Z) 5000 = 0%Z /\
  fst (getCachedQuestGuide "q-three" (Some (objectives three_objectives))
         1000000000
         (snd (setCachedQuestGuide "q-three" (Some (objectives three_objectives))
                 sample_data (Some (-5)%Z) 5000 questCache0)))
  = Normal (Some sample_data).
Proof.
  assert (setCachedQuestGuide "q-three" (Some (objectives three_objectives))
            sample_data (Some 60%Z) 1000 questCache0
          = (Normal true,
             snd (setCachedQuestGuide "q-three" (Some (objectives three_objectives))
                    sample_data (Some 60%Z) 1000 questCache0))) as Hset
    by (vm_compute; reflexivity).
  assert (expiry (Some 60%Z) 1000 <> 0%Z) as Hnz by (vm_compute; discriminate).
  assert (expiry (Some 60%Z) 1000 < 61001)%Z as Hnow by (vm_compute; reflexivity).
  assert (setCachedQuestGuide "q-three" (Some (objectives three_objectives))
            sample_data (Some (-5)%Z) 5000 questCache0
          = (Normal true,
             snd (setCachedQuestGuide "q-three" (Some (objectives three_objectives))
                    sample_data (Some (-5)%Z) 5000 questCache0))) as Hset0
    by (vm_compute; reflexivity).
  assert (expiry (Some (-5)%Z) 5000 = 0%Z) as Hzero by (vm_compute; reflexivity).
  split; [exact Hset|]. split; [exact Hnz|]. split; [exact Hnow|].
  split; [exact (proj1 (proj1 (cache_expiry _ _ _ _ _ 61001 _ _ Hset) Hnz Hnow))|].
  split; [exact Hzero|].
  exact (proj2 (cache_expiry _ _ _ _ _ 1000000000 _ _ Hset0) Hzero).
Defined.

Lemma clearQuestCache_spec_witness :
  "quest:7:00000000" <> generateCacheKey "q-three" (Some (objectives three_objectives)) /\
  NodeCache.data
    (snd (clearQuestCache "q-three" (Some (objectives three_objectives)) full_cache))
    !! "quest:7:00000000"
  = NodeCache.data full_cache !! "quest:7:00000000".
Proof.
  assert ("quest:7:00000000"
          <> generateCacheKey "q-three" (Some (objectives three_objectives))) as Hne
    by (vm_compute; discriminate).
  split; [exact Hne|].
  exact (proj2 (proj2 (clearQuestCache_spec "q-three"
                         (Some (objectives three_objectives)) 0 full_cache))
           "quest:7:00000000" Hne).
Defined.

Lemma clearCache_spec_witness :
  (0 < NodeCache.maxKeys full_cache)%Z /\
  fst (setCachedQuestGuide "q-three" (Some (objectives three_objectives))
         sample_data None 0 (clearCache full_cache)) = Normal true.
Proof.
  assert (0 < NodeCache.maxKeys full_cache)%Z as Hmax by (vm_compute; reflexivity).
  split; [exact Hmax|].
  exact (proj2 (proj2 (clearCache_spec "q-three"
                         (Some (objectives three_objectives)) sample_data None 0
                         full_cache)) Hmax).
Defined.

End StoreProps.

(** ** The orchestration *)

Section OrchestrationProps.

Import Js Cache Generator Orchestrator Examples.

Lemma generator_calls_app tr1 tr2 :
  generator_calls (tr1 ++ tr2) = generator_calls tr1 + generator_calls tr2.
Proof. unfold generator_calls. by rewrite List.filter_app, length_app. Qed.

Lemma collector_calls_app tr1 tr2 :
  collector_calls (tr1 ++ tr2) = collector_calls tr1 + collector_calls tr2.
Proof. unfold collector_calls. by rewrite List.filter_app, length_app. Qed.

Lemma model_events_no_calls evs :
  forallb is_model_event evs = true ->
  generator_calls evs = 0 /\ collector_calls evs = 0.
Proof.
  induction evs as [|e evs IH]; [done|]. cbn.
  intros [He Hevs]%andb_true_iff. destruct (IH Hevs) as [Hg Hc].
  unfold generator_calls, collector_calls in *. cbn.
  destruct e; try done; cbn; by rewrite ?Hg, ?Hc.
Qed.

Lemma lookup_get q now c :
  lookup q now c = fst (NodeCache.get (cache_key q) now c) /\
  after_lookup q now c = snd (NodeCache.get (cache_key q) now c).
Proof.
  unfold lookup, after_lookup, cache_key. by rewrite getCachedQuestGuide_get.
Qed.

(** The run of [enrich] after a miss, in terms of the generator's run. *)
Lemma enrich_miss P E q quests now w :
  lookup q now (questCache w) = Normal None ->
  enrich P E q quests now w =
  let '(generated, w1) := generateQuestGuide E q (miss_world q now w) in
  let w2 := record (EvImageCollector (id q)) w1 in
  let images := Images.getQuestImages (fetch E) (resolve_url E) q in
  match generated with
  | Throw _ => (inner_catch P q quests, w2)
  | Normal None =>
      (match regular_embed P q quests with
       | Throw _ => inner_catch P q quests
       | Normal _ => deliver P (Regular None)
       end,
       w2)
  | Normal (Some llmGuide) =>
      let data := {| llmGuide := llmGuide; images := images |} in
      match setCachedQuestGuide (id q) (Some (objectives q)) data None now
              (questCache w2) with
      | (Throw _, c) => (inner_catch P q quests, with_cache c w2)
      | (Normal _, c) =>
          (match send_enhanced P q data (allQuests quests) with
           | Normal _ => Normal (Enhanced data)
           | Throw _ => inner_catch P q quests
           end,
           with_cache c w2)
      end
  end.
Proof.
  unfold lookup, enrich, miss_world, after_lookup.
  destruct (getCachedQuestGuide _ _ _ _) as [[[d|]|e] c]; cbn; try done.
Qed.

(** The run of [enrich] on a hit. *)
Lemma enrich_hit (P : Presenter) (E : Env) (q : quest) (quests : list quest)
    (now : Z) (w : world) (d : enrichment) :
  lookup q now (questCache w) = Normal (Some d) ->
  fst (enrich P E q quests now w)
    = match send_enhanced P q d (allQuests quests) with
      | Normal _ => Normal (Enhanced d)
      | Throw _ => deliver P ErrorReply
      end /\
  trace (snd (enrich P E q quests now w)) = trace w /\
  model_calls (snd (enrich P E q quests now w)) = model_calls w /\
  NodeCache.data (questCache (snd (enrich P E q quests now w)))
    = NodeCache.data (questCache w) /\
  NodeCache.hits (questCache (snd (enrich P E q quests now w)))
    = S (NodeCache.hits (questCache w)).
Proof.
  unfold lookup, enrich. rewrite getCachedQuestGuide_get. unfold NodeCache.get.
  destruct (NodeCache.data (questCache w) !! _) as [e|]; [|done].
  destruct (NodeCache.expired now e); [done|]. cbn. by intros [= ->].
Qed.

(** The inner [catch] ends on the error text when the regular view cannot
    be built, and on the regular view under the notice otherwise. *)
Lemma inner_catch_cases P q quests :
  inner_catch P q quests
  = match regular_embed P q quests with
    | Throw _ => deliver P ErrorReply
    | Normal _ =>
        deliver P
          (Regular (Some "AI enhancement unavailable, showing standard quest info:"))
    end.
Proof. reflexivity. Qed.

(** X14. A request whose fingerprint is served by the store hands the
    stored result to [sendEnhancedResponse] and does nothing else: the
    trace and the call counter are as before, the entries are the same,
    and one hit is counted.  The reply is the enhanced view of the stored
    result when [sendEnhancedResponse] returns, and the error text (as far
    as the chat platform accepts it) when it throws. *)
Theorem enrich_cache_hit (P : Presenter) (E : Env) (q : quest)
    (quests : list quest) (now : Z) (w : world) (d : enrichment) :
  lookup q now (questCache w) = Normal (Some d) ->
  (forall u, send_enhanced P q d (allQuests quests) = Normal u ->
     fst (enrich P E q quests now w) = Normal (Enhanced d)) /\
  (forall e, send_enhanced P q d (allQuests quests) = Throw e ->
     fst (enrich P E q quests now w) = deliver P ErrorReply) /\
  trace (snd (enrich P E q quests now w)) = trace w /\
  model_calls (snd (enrich P E q quests now w)) = model_calls w /\
  NodeCache.data (questCache (snd (enrich P E q quests now w)))
    = NodeCache.data (questCache w) /\
  NodeCache.hits (questCache (snd (enrich P E q quests now w)))
    = S (NodeCache.hits (questCache w)).
Proof.
  intros Hhit. destruct (enrich_hit P E q quests now w d Hhit) as (Hr & Hrest).
  split; [|split; [|exact Hrest]].
  - intros u Hu. by rewrite Hr, Hu.
  - intros e He. by rewrite Hr, He.
Qed.

(** X15. When the lookup misses and the generator returns [null], the
    request writes nothing: the store is as the lookup left it, it holds no
    entry under the quest's fingerprint, and it has no more keys than
    before.  The reply is the regular quest view when [createQuestEmbed]
    returns, and the error text when it throws (each as far as the chat
    platform accepts it). *)
Theorem enrich_fallback (P : Presenter) (E : Env) (q : quest)
    (quests : list quest) (now : Z) (w : world) :
  lookup q now (questCache w) = Normal None ->
  fst (generateQuestGuide E q (miss_world q now w)) = Normal None ->
  (forall u, regular_embed P q quests = Normal u ->
     fst (enrich P E q quests now w) = deliver P (Regular None)) /\
  (forall e, regular_embed P q quests = Throw e ->
     fst (enrich P E q quests now w) = deliver P ErrorReply) /\
  questCache (snd (enrich P E q quests now w)) = after_lookup q now (questCache w) /\
  NodeCache.data (questCache (snd (enrich P E q quests now w))) !! cache_key q = None /\
  (NodeCache.keys (questCache (snd (enrich P E q quests now w)))
   <= NodeCache.keys (questCache w))%Z.
Proof.
  intros Hmiss Hnull. rewrite (enrich_miss P E q quests now w Hmiss).
  destruct (generateQuestGuide_frame E q (miss_world q now w)) as (_ & Hcache & _).
  destruct (generateQuestGuide E q (miss_world q now w)) as [generated w1].
  cbn in Hnull, Hcache. subst generated. cbn [fst snd].
  split; [|split].
  - intros u Hu. by rewrite Hu.
  - intros e He. by rewrite inner_catch_cases, He.
  - unfold record. cbn [questCache]. rewrite Hcache. unfold miss_world. cbn.
    destruct (lookup_get q now (questCache w)) as [Hl ->].
    rewrite Hl in Hmiss. split; [done|].
    split; [by apply get_miss_absent | apply get_keys_le].
Qed.

Lemma after_lookup_not_full q now c :
  is_full c = false -> is_full (after_lookup q now c) = false.
Proof.
  destruct (lookup_get q now c) as [_ ->].
  destruct (get_keys_le (cache_key q) now c) as [Hk Hm].
  unfold is_full. rewrite Hm. intros [H|H]%andb_false_iff; apply andb_false_iff.
  - by left.
  - right. apply Z.leb_gt. apply Z.leb_gt in H. lia.
Qed.

(** The first of two requests, when the generator returns a guide and the
    store has room: what it answers, and what the store serves next. *)
Lemma enrich_stores P E q quests now1 now2 w g :
  lookup q now1 (questCache w) = Normal None ->
  fst (generateQuestGuide E q (miss_world q now1 w)) = Normal (Some g) ->
  is_full (questCache w) = false ->
  (now2 <= expiry None now1)%Z ->
  let data :=
    {| llmGuide := g;
       images := Images.getQuestImages (fetch E) (resolve_url E) q |} in
  let w1 := snd (enrich P E q quests now1 w) in
  fst (enrich P E q quests now1 w)
    = match send_enhanced P q data (allQuests quests) with
      | Normal _ => Normal (Enhanced data)
      | Throw _ => inner_catch P q quests
      end /\
  lookup q now2 (questCache w1) = Normal (Some data) /\
  generator_calls (trace w1) = generator_calls (trace w) + 1 /\
  collector_calls (trace w1) = collector_calls (trace w) + 1.
Proof.
  intros Hmiss Hgen Hroom Hnow data w1.
  subst w1. rewrite (enrich_miss P E q quests now1 w Hmiss).
  destruct (generateQuestGuide_frame E q (miss_world q now1 w))
    as (_ & Hcache & evs & Htrace & Hevs & _).
  destruct (generateQuestGuide E q (miss_world q now1 w)) as [generated w'].
  cbn in Hgen, Hcache, Htrace. subst generated. cbn zeta iota beta.
  fold data. rewrite setCachedQuestGuide_cases.
  assert (is_full (questCache (record (EvImageCollector (id q)) w')) = false)
    as Hnf.
  { cbn. rewrite Hcache. unfold miss_world. cbn.
    by apply after_lookup_not_full. }
  rewrite Hnf. cbn [fst snd]. split; [done|].
  destruct (model_events_no_calls evs Hevs) as [Hg0 Hc0].
  split_and!.
  - unfold lookup. pose proof (get_after_set (id q) (Some (objectives q))
      data None now1 now2 (questCache (record (EvImageCollector (id q)) w'))) as Hrt.
    rewrite setCachedQuestGuide_cases, Hnf in Hrt.
    destruct (Hrt _ eq_refl Hnow) as [Hrt1 _].
    unfold lookup, with_cache. cbn [snd questCache]. exact Hrt1.
  - unfold with_cache, record. cbn [snd trace]. rewrite Htrace.
    unfold miss_world, record, with_cache. cbn [trace].
    rewrite !generator_calls_app, Hg0. cbn. lia.
  - unfold with_cache, record. cbn [snd trace]. rewrite Htrace.
    unfold miss_world, record, with_cache. cbn [trace].
    rewrite !collector_calls_app, Hc0. cbn. lia.
Qed.

(** X16. When the lookup misses, the generator returns a guide and the
    store is not full, the request stores the guide with the collected
    images; a second request for the same quest, made no later than seven
    days after, finds them in the store and adds nothing to the trace:
    over both requests the generator and the collector are called once
    each.  Both replies are the enhanced view of that result when
    [sendEnhancedResponse] returns; when it throws, the first request ends
    in the inner [catch] and the second on the error text. *)
Theorem enrich_twice (P : Presenter) (E : Env) (q : quest) (quests : list quest)
    (now1 now2 : Z) (w : world) (g : guide) :
  lookup q now1 (questCache w) = Normal None ->
  fst (generateQuestGuide E q (miss_world q now1 w)) = Normal (Some g) ->
  is_full (questCache w) = false ->
  (now2 <= expiry None now1)%Z ->
  let data :=
    {| llmGuide := g;
       images := Images.getQuestImages (fetch E) (resolve_url E) q |} in
  let w1 := snd (enrich P E q quests now1 w) in
  let w2 := snd (enrich P E q quests now2 w1) in
  lookup q now2 (questCache w1) = Normal (Some data) /\
  generator_calls (trace w2) = generator_calls (trace w) + 1 /\
  collector_calls (trace w2) = collector_calls (trace w) + 1 /\
  trace w2 = trace w1 /\
  (forall u, send_enhanced P q data (allQuests quests) = Normal u ->
     fst (enrich P E q quests now1 w) = Normal (Enhanced data) /\
     fst (enrich P E q quests now2 w1) = Normal (Enhanced data)) /\
  (forall e, send_enhanced P q data (allQuests quests) = Throw e ->
     fst (enrich P E q quests now1 w) = inner_catch P q quests /\
     fst (enrich P E q quests now2 w1) = deliver P ErrorReply).
Proof.
  intros Hmiss Hgen Hroom Hnow data w1 w2.
  destruct (enrich_stores P E q quests now1 now2 w g Hmiss Hgen Hroom Hnow)
    as (Hfirst & Hhit & Hg & Hc).
  fold data w1 in Hfirst, Hhit, Hg, Hc.
  destruct (enrich_hit P E q quests now2 w1 data Hhit) as (Hsecond & Htr & _).
  fold w2 in Htr. rewrite Htr. split_and!; try done.
  - intros u Hu. rewrite Hfirst, Hsecond, Hu. done.
  - intros e He. rewrite Hfirst, Hsecond, He. done.
Qed.




Lemma lookup_normal q now c : exists r, lookup q now c = Normal r.
Proof.
  destruct (lookup_get q now c) as [-> _]. unfold NodeCache.get.
  destruct (NodeCache.data c !! _) as [e|]; [|eauto].
  destruct (NodeCache.expired now e); eauto.
Qed.

(** What a reply of [enrich] tells about the run. *)
Lemma enrich_replies P E q quests now w :
  match fst (enrich P E q quests now w) with
  | Normal (Enhanced d) => exists u, send_enhanced P q d (allQuests quests) = Normal u
  | Normal (Regular _) =>
      lookup q now (questCache w) = Normal None /\
      exists u, regular_embed P q quests = Normal u
  | Normal ErrorReply =>
      (exists d e, lookup q now (questCache w) = Normal (Some d) /\
         send_enhanced P q d (allQuests quests) = Throw e) \/
      (lookup q now (questCache w) = Normal None /\
       exists e, regular_embed P q quests = Throw e)
  | Normal Usage | Normal NotFound => False
  | Throw e => exists r, thinking_edit P r = Throw e
  end.
Proof.
  assert (forall r, match deliver P r with
                    | Normal r' => r' = r
                    | Throw e => exists r, thinking_edit P r = Throw e
                    end) as Hdeliver.
  { intros r. unfold deliver. destruct (thinking_edit P r) eqn:Ht; eauto. }
  assert (lookup q now (questCache w) = Normal None ->
          match inner_catch P q quests with
          | Normal (Regular _) =>
              lookup q now (questCache w) = Normal None /\
              exists u, regular_embed P q quests = Normal u
          | Normal ErrorReply =>
              (exists d e, lookup q now (questCache w) = Normal (Some d) /\
                 send_enhanced P q d (allQuests quests) = Throw e) \/
              (lookup q now (questCache w) = Normal None /\
               exists e, regular_embed P q quests = Throw e)
          | Normal _ => False
          | Throw e => exists r, thinking_edit P r = Throw e
          end) as Hinner.
  { intros Hmiss. rewrite inner_catch_cases.
    destruct (regular_embed P q quests) as [u|e] eqn:Hre.
    - specialize (Hdeliver
        (Regular (Some "AI enhancement unavailable, showing standard quest info:"))).
      destruct (deliver P _) as [r'|e']; [subst r'; eauto | done].
    - specialize (Hdeliver ErrorReply).
      destruct (deliver P ErrorReply) as [r'|e']; [subst r'; eauto | done]. }
  destruct (lookup_normal q now (questCache w)) as [[d|] Hl].
  - destruct (enrich_hit P E q quests now w d Hl) as [-> _].
    destruct (send_enhanced P q d (allQuests quests)) as [u|e] eqn:Hs; [eauto|].
    specialize (Hdeliver ErrorReply).
    destruct (deliver P ErrorReply) as [r'|e']; [subst r'; eauto | done].
  - specialize (Hinner Hl). rewrite (enrich_miss P E q quests now w Hl).
    destruct (generateQuestGuide E q (miss_world q now w)) as [[[llm|]|err] w'];
      cbn zeta iota beta.
    + destruct (setCachedQuestGuide _ _ _ _ _ _) as [[b|err] c]; cbn [fst];
        [|by destruct (inner_catch P q quests) as [[| |d'|c'|]|e']].
      destruct (send_enhanced P q _ (allQuests quests)) as [u|e] eqn:Hs; [eauto|].
      by destruct (inner_catch P q quests) as [[| |d'|c'|]|e'].
    + cbn [fst]. destruct (regular_embed P q quests) as [u|e] eqn:Hre;
        [|by destruct (inner_catch P q quests) as [[| |d'|c'|]|e']].
      specialize (Hdeliver (Regular None)).
      destruct (deliver P (Regular None)) as [r'|e']; [subst r'; eauto | done].
    + cbn [fst]. by destruct (inner_catch P q quests) as [[| |d'|c'|]|e'].
Qed.

(** X19. [handleEnhancedQuestCommand] answers with the usage text exactly
    when no argument is given and with the not-found text when the search
    returns nothing, leaving the services untouched in both cases;
    otherwise it runs the pipeline on the first quest found.  An enhanced
    view was accepted by [sendEnhancedResponse]; a regular view follows a
    miss and was built by [createQuestEmbed]; the error text follows a
    throw of [sendEnhancedResponse] on a hit or of [createQuestEmbed] on a
    miss, never the search, the lookup or the generator; and the handler
    itself fails only when the chat platform refuses a message. *)
Theorem handleEnhancedQuestCommand_replies (P : Presenter) (E : Env)
    (args : list string) (now : Z) (w : world) :
  match fst (handleEnhancedQuestCommand P E args now w) with
  | Normal Usage => args = [] /\ snd (handleEnhancedQuestCommand P E args now w) = w
  | Normal NotFound =>
      args <> [] /\
      (searchQuest E (String.concat " " args) = None \/
       searchQuest E (String.concat " " args) = Some []) /\
      snd (handleEnhancedQuestCommand P E args now w) = w
  | Normal (Enhanced d) =>
      exists q rest, searchQuest E (String.concat " " args) = Some (q :: rest) /\
        exists u, send_enhanced P q d (allQuests (q :: rest)) = Normal u
  | Normal (Regular _) =>
      exists q rest, searchQuest E (String.concat " " args) = Some (q :: rest) /\
        lookup q now (questCache w) = Normal None /\
        exists u, regular_embed P q (q :: rest) = Normal u
  | Normal ErrorReply =>
      exists q rest, searchQuest E (String.concat " " args) = Some (q :: rest) /\
        ((exists d e, lookup q now (questCache w) = Normal (Some d) /\
            send_enhanced P q d (allQuests (q :: rest)) = Throw e) \/
         (lookup q now (questCache w) = Normal None /\
          exists e, regular_embed P q (q :: rest) = Throw e))
  | Throw e =>
      (exists n, message_reply P n = Throw e) \/
      (exists r, thinking_edit P r = Throw e)
  end.
Proof.
  unfold handleEnhancedQuestCommand. destruct args as [|a args].
  { cbn [fst snd]. destruct (message_reply P UsageNotice) eqn:Hm; eauto. }
  destruct (message_reply P (ThinkingNotice _)) as [u|e] eqn:Hm; [|cbn; eauto].
  destruct (searchQuest E _) as [[|q rest]|] eqn:Hs.
  - cbn [fst snd]. unfold deliver.
    destruct (thinking_edit P NotFound) eqn:Ht; [|eauto].
    split; [done|]. split; [by right | done].
  - pose proof (enrich_replies P E q (q :: rest) now w) as Hr.
    destruct (fst (enrich P E q (q :: rest) now w)) as [[| |d|c|]|e]; try done; eauto.
  - cbn [fst snd]. unfold deliver.
    destruct (thinking_edit P NotFound) eqn:Ht; [|eauto].
    split; [done|]. split; [by left | done].
Qed.

Lemma enrich_cache_hit_witness :
  lookup three_objectives 5 (questCache warm_world) = Normal (Some three_data) /\
  fst (enrich refusing_enhanced answering_env three_objectives [three_objectives]
         5 warm_world) = Normal ErrorReply /\
  trace (snd (enrich refusing_enhanced answering_env three_objectives
                [three_objectives] 5 warm_world)) = trace warm_world.
Proof.
  assert (lookup three_objectives 5 (questCache warm_world)
          = Normal (Some three_data)) as Hhit by (vm_compute; reflexivity).
  split; [exact Hhit|].
  destruct (enrich_cache_hit refusing_enhanced answering_env three_objectives
              [three_objectives] 5 warm_world three_data Hhit)
    as (_ & Hreply & Htrace & _).
  split; [exact (Hreply _ eq_refl) | exact Htrace].
Defined.

Lemma enrich_fallback_witness :
  lookup three_objectives 0 (questCache world0) = Normal None /\
  fst (generateQuestGuide failing_env three_objectives
         (miss_world three_objectives 0 world0)) = Normal None /\
  fst (enrich accepting failing_env three_objectives [three_objectives] 0 world0)
    = Normal (Regular None).
Proof.
  assert (lookup three_objectives 0 (questCache world0) = Normal None) as Hmiss
    by (vm_compute; reflexivity).
  assert (fst (generateQuestGuide failing_env three_objectives
                 (miss_world three_objectives 0 world0)) = Normal None) as Hnull
    by (vm_compute; reflexivity).
  split; [exact Hmiss|]. split; [exact Hnull|].
  exact (proj1 (enrich_fallback accepting failing_env three_objectives
                  [three_objectives] 0 world0 Hmiss Hnull) tt eq_refl).
Defined.

Lemma enrich_twice_witness :
  lookup three_objectives 0 (questCache world0) = Normal None /\
  fst (generateQuestGuide answering_env three_objectives
         (miss_world three_objectives 0 world0)) = Normal (Some three_guide) /\
  is_full (questCache world0) = false /\
  (1000 <= expiry None 0)%Z /\
  fst (enrich accepting answering_env three_objectives [three_objectives] 1000
         (snd (enrich accepting answering_env three_objectives [three_objectives]
                 0 world0)))
  = Normal (Enhanced three_data).
Proof.
  assert (lookup three_objectives 0 (questCache world0) = Normal None) as Hmiss
    by (vm_compute; reflexivity).
  assert (fst (generateQuestGuide answering_env three_objectives
                 (miss_world three_objectives 0 world0))
          = Normal (Some three_guide)) as Hgen by (vm_compute; reflexivity).
  assert (is_full (questCache world0) = false) as Hroom by (vm_compute; reflexivity).
  assert (1000 <= expiry None 0)%Z as Hnow by (vm_compute; discriminate).
  split; [exact Hmiss|]. split; [exact Hgen|]. split; [exact Hroom|].
  split; [exact Hnow|].
  destruct (enrich_twice accepting answering_env three_objectives
              [three_objectives] 0 1000 world0 three_guide Hmiss Hgen Hroom Hnow)
    as (_ & _ & _ & _ & Hok & _).
  exact (proj2 (Hok tt eq_refl)).
Defined.


End OrchestrationProps.

(** ** Segmentation of the answer *)

Section SegmentationProps.

Import Js Regex Gemini Examples.

Lemma star_greedy_inv p s k res :
  star_greedy p s k = Some res -> exists s', k s' = Some res.
Proof.
  revert res. induction s as [|c s IH]; intros res; cbn; [eauto|].
  destruct (p c); [|eauto].
  destruct (star_greedy p s k) as [m|] eqn:Hm; [|eauto].
  intros [= <-]. eauto.
Qed.

Lemma star_lazy_inv p s k res :
  star_lazy p s k = Some res -> exists s', k s' = Some res.
Proof.
  revert res. induction s as [|c s IH]; intros res; cbn.
  - destruct (k "") eqn:Hk; [intros [= <-]; eauto | done].
  - destruct (k (String c s)) eqn:Hk; [intros [= <-]; eauto|].
    destruct (p c); [eauto | done].
Qed.

Lemma upto_greedy_inv n p s k res :
  upto_greedy n p s k = Some res -> exists s', k s' = Some res.
Proof.
  revert s res. induction n as [|n IH]; intros s res; cbn; [eauto|].
  destruct s as [|c s]; [eauto|]. destruct (p c); [|eauto].
  destruct (upto_greedy n p s k) as [m|] eqn:Hm; [|eauto].
  intros [= <-]. eauto.
Qed.

(** Every answer of a match is an answer of its continuation, and a
    property [Q] of the captured group that holds of every captured text
    holds at the continuation when it holds at the start. *)
Lemma run_inv (Q : option string -> Prop) (HQ : forall x, Q (Some x)) r :
  forall (P : mstate -> Prop) s cap k res,
    Q cap ->
    (forall s' cap' res', Q cap' -> k s' cap' = Some res' -> P res') ->
    run r s cap k = Some res -> P res.
Proof.
  induction r as [lit|p|r1 IH1 r2 IH2|r1 IH1 r2 IH2|greedy p|n p|r1 IH1|r1 IH1|];
    intros P s cap k res Hcap Hk; cbn.
  - destruct (strip_ci lit s); [by apply Hk | done].
  - destruct s as [|c s]; [done|]. destruct (p c); [by apply Hk | done].
  - apply IH1; [done|]. intros s' cap' res' Hcap'. by apply IH2.
  - destruct (run r1 s cap k) as [m|] eqn:H1.
    + intros [= <-]. by eapply IH1.
    + by apply IH2.
  - destruct greedy.
    + intros [s' Hs']%star_greedy_inv. by eapply Hk.
    + intros [s' Hs']%star_lazy_inv. by eapply Hk.
  - intros [s' Hs']%upto_greedy_inv. by eapply Hk.
  - apply IH1; [done|]. intros s' cap' res' _. by apply Hk.
  - destruct (run r1 s cap (fun s' cap' => Some (s', cap'))) as [[rest cap']|] eqn:H1;
      [|done].
    assert (Q cap') as Hcap'.
    { apply (IH1 (fun res => Q (snd res)) s cap
               (fun s' c' => Some (s', c')) (rest, cap') Hcap); [|done].
      intros s' c' res' Hc' [= <-]. done. }
    by apply Hk.
  - destruct s; [by apply Hk | done].
Qed.

Lemma run_sets_group r :
  forall (P : mstate -> Prop) s cap k res,
    sets_group r = true ->
    (forall s' cap' res', is_Some cap' -> k s' cap' = Some res' -> P res') ->
    run r s cap k = Some res -> P res.
Proof.
  induction r as [lit|p|r1 IH1 r2 IH2|r1 IH1 r2 IH2|greedy p|n p|r1 IH1|r1 IH1|];
    intros P s cap k res Hsets Hk; cbn in Hsets |- *; try done.
  - destruct (sets_group r1) eqn:H1.
    + apply IH1; [done|]. intros s' cap' res' Hcap'.
      by apply (run_inv is_Some (fun x => ltac:(eauto))).
    + cbn in Hsets.
      apply (run_inv (fun _ => True) (fun _ => I)); [done|].
      intros s' cap' res' _. by apply IH2.
  - apply andb_true_iff in Hsets as [Hs1 Hs2].
    destruct (run r1 s cap k) as [m|] eqn:H1.
    + intros [= <-]. by eapply IH1.
    + by apply IH2.
  - apply (run_inv (fun _ => True) (fun _ => I)); [done|].
    intros s' cap' res' _. apply Hk. eauto.
Qed.

(** A match of a pattern that goes through the group has its group. *)
Lemma search_group r s m :
  sets_group r = true -> search r s = Some m -> is_Some (snd m).
Proof.
  intros Hsets. revert m. induction s as [|c s IH]; intros m; cbn.
  - destruct (match_here r "") as [[rest cap]|] eqn:Hm; [|done].
    intros [= <-]. cbn.
    apply (run_sets_group r (fun res => is_Some (snd res)) _ _ _ _ Hsets) in Hm;
      [done|]. by intros s' cap' res' Hc [= <-].
  - destruct (match_here r (String c s)) as [[rest cap]|] eqn:Hm; [|by apply IH].
    intros [= <-]. cbn.
    apply (run_sets_group r (fun res => is_Some (snd res)) _ _ _ _ Hsets) in Hm;
      [done|]. by intros s' cap' res' Hc [= <-].
Qed.

Lemma array_set_length arr idx v :
  length (array_set arr idx v)
  = if (idx <? length arr)%nat then length arr else S (length arr).
Proof.
  unfold array_set. destruct (idx <? length arr)%nat.
  - by rewrite length_insert.
  - rewrite length_app. cbn. lia.
Qed.

Lemma array_set_append arr v : array_set arr (length arr) v = arr ++ [v].
Proof. unfold array_set. by rewrite Nat.ltb_irrefl. Qed.

Lemma array_set_last arr v v' :
  array_set (arr ++ [v]) (length arr) v' = arr ++ [v'].
Proof.
  unfold array_set.
  assert ((length arr <? length (arr ++ [v]))%nat = true) as ->.
  { apply Nat.ltb_lt. rewrite length_app. cbn. lia. }
  rewrite insert_app_r_alt by lia. rewrite Nat.sub_diag. reflexivity.
Qed.

Section WithEngine.

Context (eng : string -> compiled).

Lemma segment_each_step text obj idx s by_description :
  length (guide_objectives s) = idx ->
  description_pattern eng (description obj) = Pattern by_description ->
  let s1 :=
    match first_match [search (objective_re (idx + 1)); by_description] text with
    | Some v => set_objective s idx v
    | None => s
    end in
  guide_objectives
    (if negb (truthy (default "" (guide_objectives s1 !! idx)))
     then set_objective s1 idx "" else s1)
  = guide_objectives s ++ [first_slot eng text idx obj].
Proof.
  intros Hlen Hpat. unfold first_slot, heading_or_description. rewrite Hpat.
  destruct (first_match _ text) as [v|]; cbn zeta.
  - assert (guide_objectives (set_objective s idx v) = guide_objectives s ++ [v])
      as Hs1.
    { unfold set_objective. cbn [guide_objectives]. subst idx.
      apply array_set_append. }
    assert (guide_objectives (set_objective s idx v) !! idx = Some v) as Hl.
    { rewrite Hs1, lookup_app_r by lia. rewrite Hlen, Nat.sub_diag. done. }
    rewrite Hl. cbn [default from_option id].
    destruct v as [|c v]; cbn [truthy negb]; [|done].
    unfold set_objective at 1. cbn [guide_objectives]. rewrite Hs1. subst idx.
    apply array_set_last.
  - rewrite lookup_ge_None_2 by lia. cbn [default from_option id truthy negb].
    unfold set_objective. cbn [guide_objectives]. subst idx.
    apply array_set_append.
Qed.

Lemma set_objective_fields s idx v :
  overview (set_objective s idx v) = overview s /\
  tips (set_objective s idx v) = tips s /\
  raw (set_objective s idx v) = raw s.
Proof. done. Qed.

(** The first loop: it ends normally exactly when every pattern compiles,
    and then it has appended the slot of every objective. *)
Lemma segment_each_spec text objs : forall idx s,
  length (guide_objectives s) = idx ->
  raw (fst (segment_each eng text objs idx s)) = raw s /\
  match segment_each eng text objs idx s with
  | (s', Normal _) =>
      forallb (compiles eng) objs = true /\
      guide_objectives s'
      = guide_objectives s ++ imap (fun k => first_slot eng text (idx + k)) objs
  | (s', Throw _) =>
      forallb (compiles eng) objs = false /\
      (length (guide_objectives s') <= idx + length objs)%nat /\
      (idx <= length (guide_objectives s'))%nat
  end.
Proof.
  induction objs as [|obj objs IH]; intros idx s Hlen.
  - cbn. by rewrite app_nil_r.
  - cbn [segment_each forallb]. unfold compiles at 1 3.
    destruct (description_pattern eng (description obj)) as [|by_description] eqn:Hpat.
    + cbn. split; [done|]. split; [done|]. lia.
    + pose proof (segment_each_step text obj idx s by_description Hlen Hpat) as Hstep.
      cbn zeta in Hstep.
      set (s1 := match first_match _ text with
                 | Some v => set_objective s idx v
                 | None => s
                 end) in *.
      set (s2 := if negb (truthy (default "" (guide_objectives s1 !! idx)))
                 then set_objective s1 idx "" else s1) in *.
      assert (raw s2 = raw s) as Hraw.
      { subst s2 s1. by repeat case_match. }
      assert (length (guide_objectives s2) = S idx) as Hlen2.
      { rewrite Hstep, length_app. cbn. lia. }
      replace (idx + 1) with (S idx) in * by lia.
      destruct (IH (S idx) s2 Hlen2) as [Hr IHs]. rewrite Hr, Hraw.
      split; [done|].
      destruct (segment_each eng text objs (S idx) s2) as [s' [[]|e]]; cbn [andb].
      * destruct IHs as [-> ->]. split; [done|].
        rewrite Hstep, <- app_assoc. cbn [app imap]. rewrite Nat.add_0_r.
        do 2 f_equal. apply imap_ext. intros k x _. cbn. f_equal. lia.
      * destruct IHs as (-> & Hle & Hge). split; [done|]. cbn [length]. lia.
Qed.

Lemma extract_overview_ok text s :
  snd (extract_overview text s) = Normal () /\
  guide_objectives (fst (extract_overview text s)) = guide_objectives s /\
  raw (fst (extract_overview text s)) = raw s.
Proof.
  unfold extract_overview.
  destruct (search overview_re text) as [m|] eqn:Hm; [|done].
  apply search_group in Hm as [g Hg]; [|reflexivity].
  unfold group1. rewrite Hg. done.
Qed.

Lemma extract_tips_ok text s :
  snd (extract_tips text s) = Normal () /\
  guide_objectives (fst (extract_tips text s)) = guide_objectives s /\
  raw (fst (extract_tips text s)) = raw s.
Proof.
  unfold extract_tips.
  destruct (search tips_re text) as [m|] eqn:Hm; [|done].
  apply search_group in Hm as [g Hg]; [|reflexivity].
  unfold group1. rewrite Hg. done.
Qed.

(** The [try] block up to the per-objective matching. *)
Lemma match_objectives_spec text q :
  raw (fst (match_objectives eng text q (sections0 text))) = text /\
  match match_objectives eng text q (sections0 text) with
  | (s', Normal _) =>
      forallb (compiles eng) (objectives q) = true /\
      guide_objectives s' = imap (first_slot eng text) (objectives q)
  | (s', Throw _) =>
      forallb (compiles eng) (objectives q) = false /\
      (length (guide_objectives s') <= length (objectives q))%nat
  end.
Proof.
  unfold match_objectives, then_.
  destruct (extract_overview_ok text (sections0 text)) as (Ho & Hog & Hor).
  destruct (extract_overview text (sections0 text)) as [s1 r1].
  cbn [fst snd] in *. subst r1.
  destruct (extract_tips_ok text s1) as (Ht & Htg & Htr).
  destruct (extract_tips text s1) as [s2 r2]. cbn [fst snd] in *. subst r2.
  assert (length (guide_objectives s2) = 0) as Hlen by by rewrite Htg, Hog.
  destruct (segment_each_spec text (objectives q) 0 s2 Hlen) as [Hraw Hspec].
  rewrite Hraw, Htr, Hor. split; [done|].
  destruct (segment_each eng text (objectives q) 0 s2) as [s' [[]|e]].
  - destruct Hspec as [-> ->]. split; [done|]. rewrite Htg, Hog. done.
  - destruct Hspec as (-> & Hle & _). split; [done|]. lia.
Qed.

Lemma array_set_in_range arr idx v :
  (idx < length arr)%nat -> array_set arr idx v = <[idx := v]> arr.
Proof. unfold array_set. intros H. apply Nat.ltb_lt in H. by rewrite H. Qed.

(** The loop of the [catch] block leaves the text in every slot. *)
Lemma assign_raw_spec text objs : forall idx s,
  (idx <= length (guide_objectives s) <= idx + length objs)%nat ->
  guide_objectives (assign_raw text objs idx s)
  = take idx (guide_objectives s) ++ replicate (length objs) text /\
  raw (assign_raw text objs idx s) = raw s.
Proof.
  induction objs as [|obj objs IH]; intros idx s Hlen; cbn [assign_raw length].
  - cbn in *. rewrite app_nil_r, take_ge by lia. done.
  - set (s1 := set_objective s idx text).
    assert (guide_objectives s1 !! idx = Some text /\
            take idx (guide_objectives s1) = take idx (guide_objectives s) /\
            (S idx <= length (guide_objectives s1) <= S idx + length objs)%nat)
      as (Hl & Ht & Hlen1).
    { subst s1. unfold set_objective. cbn [guide_objectives].
      destruct (Nat.lt_ge_cases idx (length (guide_objectives s))) as [Hlt | Hge].
      - rewrite array_set_in_range by done.
        rewrite list_lookup_insert_eq by done.
        rewrite take_insert_ge by lia. rewrite length_insert. split; [done|].
        split; [done|]. cbn in Hlen. lia.
      - assert (idx = length (guide_objectives s)) as -> by lia.
        rewrite array_set_append, lookup_app_r, Nat.sub_diag by lia.
        rewrite take_app_length', length_app by done. split; [done|].
        rewrite take_ge by lia. split; [done|]. cbn in *. lia. }
    destruct (IH (S idx) s1 Hlen1) as [-> ->]. split; [|done].
    rewrite (take_S_r _ _ _ Hl), Ht, <- app_assoc. done.
Qed.

(** The loop over the parts of the guide block rewrites every slot. *)
Lemma assign_parts_spec guideText objs : forall idx s,
  (idx + length objs <= length (guide_objectives s))%nat ->
  guide_objectives
    (assign_parts (split parts_re guideText) guideText objs idx s)
  = take idx (guide_objectives s) ++
    imap (fun k _ => part_slot guideText (idx + k)) objs ++
    drop (idx + length objs) (guide_objectives s) /\
  raw (assign_parts (split parts_re guideText) guideText objs idx s) = raw s.
Proof.
  induction objs as [|obj objs IH]; intros idx s Hlen; cbn [assign_parts length imap].
  - cbn [app]. rewrite Nat.add_0_r, take_drop. done.
  - fold (part_slot guideText idx).
    set (s1 := set_objective s idx (part_slot guideText idx)).
    cbn [length] in Hlen.
    assert (guide_objectives s1
            = <[idx := part_slot guideText idx]> (guide_objectives s)) as Hs1.
    { subst s1. unfold set_objective. cbn [guide_objectives].
      apply array_set_in_range. lia. }
    assert (S idx + length objs <= length (guide_objectives s1))%nat as Hlen1.
    { rewrite Hs1, length_insert. lia. }
    destruct (IH (S idx) s1 Hlen1) as [-> ->]. split; [|done].
    rewrite Hs1.
    rewrite (take_S_r _ _ (part_slot guideText idx))
      by (apply list_lookup_insert_eq; lia).
    rewrite take_insert_ge by lia. rewrite drop_insert_lt by lia.
    rewrite <- app_assoc. cbn [app]. rewrite Nat.add_0_r.
    do 3 f_equal.
    + apply imap_ext. intros k x _. cbn. f_equal. lia.
    + f_equal. lia.
Qed.

Lemma split_guide_section_spec text q s :
  length (guide_objectives s) = length (objectives q) ->
  snd (split_guide_section text q s) = Normal () /\
  raw (fst (split_guide_section text q s)) = raw s /\
  guide_objectives (fst (split_guide_section text q s))
  = if forallb (fun obj => String.eqb obj "") (guide_objectives s) then
      match search guide_section_re text with
      | Some (_, Some g) => imap (fun k _ => part_slot (trim g) k) (objectives q)
      | _ => guide_objectives s
      end
    else guide_objectives s.
Proof.
  intros Hlen. unfold split_guide_section.
  destruct (forallb _ (guide_objectives s)); [|done].
  destruct (search guide_section_re text) as [[m0 m1]|] eqn:Hm; [|done].
  pose proof (search_group guide_section_re text _ eq_refl Hm) as [g Hg]. cbn in Hg. subst m1.
  unfold group1. cbn [snd fst].
  destruct (assign_parts_spec (trim g) (objectives q) 0 s) as [-> ->]; [cbn; lia|].
  split; [done|]. split; [done|].
  cbn [take app Nat.add]. rewrite drop_ge by lia. by rewrite app_nil_r.
Qed.

(** The slots of the guide in closed form. *)
Lemma parseLLMResponse_cases text q :
  raw (parseLLMResponse eng text q) = text /\
  (forallb (compiles eng) (objectives q) = true ->
   snd (segment eng text q (sections0 text)) = Normal () /\
   guide_objectives (parseLLMResponse eng text q)
   = let first := imap (first_slot eng text) (objectives q) in
     if forallb (fun obj => String.eqb obj "") first then
       match search guide_section_re text with
       | Some (_, Some g) => imap (fun k _ => part_slot (trim g) k) (objectives q)
       | _ => first
       end
     else first) /\
  (forallb (compiles eng) (objectives q) = false ->
   (exists e, snd (segment eng text q (sections0 text)) = Throw e) /\
   guide_objectives (parseLLMResponse eng text q)
   = replicate (length (objectives q)) text).
Proof.
  unfold parseLLMResponse, segment, then_.
  destruct (match_objectives_spec text q) as [Hraw Hspec].
  destruct (match_objectives eng text q (sections0 text)) as [s1 [[]|e]];
    cbn [fst] in Hraw.
  - destruct Hspec as [Hc Hslots].
    assert (length (guide_objectives s1) = length (objectives q)) as Hlen
      by by rewrite Hslots, length_imap.
    destruct (split_guide_section_spec text q s1 Hlen) as (Hn & Hr & Hg).
    destruct (split_guide_section text q s1) as [s2 r2]. cbn [fst snd] in *.
    subst r2. rewrite Hr, Hraw, Hc. split; [done|]. split; [|done].
    intros _. split; [done|]. by rewrite Hg, Hslots.
  - destruct Hspec as [Hc Hle]. rewrite Hc.
    destruct (assign_raw_spec text (objectives q) 0 s1) as [Hg Hr]; [lia|].
    rewrite Hr, Hraw. split; [done|]. split; [done|]. intros _.
    split; [eauto|]. by rewrite Hg.
Qed.
End WithEngine.

(** X10. Whatever the answer of the model and whatever the pattern
    compiler does, the guide has one slot per objective of the quest and
    its [raw] field is the answer itself. *)
Theorem parseLLMResponse_slots (eng : string -> compiled) (text : string)
    (q : quest) :
  length (guide_objectives (parseLLMResponse eng text q)) = length (objectives q) /\
  raw (parseLLMResponse eng text q) = text.
Proof.
  destruct (parseLLMResponse_cases eng text q) as (Hraw & Hok & Hthrow).
  split; [|done].
  destruct (forallb (compiles eng) (objectives q)).
  - destruct (Hok eq_refl) as [_ ->]. cbn zeta.
    repeat case_match; by rewrite length_imap.
  - destruct (Hthrow eq_refl) as [_ ->]. by rewrite length_replicate.
Qed.

(** X11. The [try] block of [parseLLMResponse] throws exactly when the
    pattern built from the first 30 characters of some objective's
    description does not compile; the overview, tips and guide-block
    patterns never make it throw.  In that case every slot holds the whole
    answer. *)
Theorem parseLLMResponse_throw (eng : string -> compiled) (text : string)
    (q : quest) :
  (forallb (compiles eng) (objectives q) = false <->
   exists e, snd (segment eng text q (sections0 text)) = Throw e) /\
  (forallb (compiles eng) (objectives q) = false ->
   guide_objectives (parseLLMResponse eng text q)
   = replicate (length (objectives q)) text).
Proof.
  destruct (parseLLMResponse_cases eng text q) as (_ & Hok & Hthrow).
  split; [|by intros H; apply Hthrow].
  split; [by intros H; apply Hthrow|].
  intros [e He]. destruct (forallb (compiles eng) (objectives q)); [|done].
  destruct (Hok eq_refl) as [Hn _]. congruence.
Qed.

(** X12. When every pattern compiles, no objective finds its heading or
    its description in the answer, and the answer has a step-by-step
    block, slot [k] is the [k]-th part of the trimmed block, cut at blank
    lines and before numbered items, or the whole trimmed block when that
    part is missing or empty; so every slot past the last part holds the
    whole block. *)
Theorem parseLLMResponse_split (eng : string -> compiled) (text : string)
    (q : quest) (m0 g : string) :
  forallb (compiles eng) (objectives q) = true ->
  forallb (fun slot => String.eqb slot "")
    (imap (first_slot eng text) (objectives q)) = true ->
  search guide_section_re text = Some (m0, Some g) ->
  guide_objectives (parseLLMResponse eng text q)
    = imap (fun k _ => part_slot (trim g) k) (objectives q) /\
  (forall i, (length (split parts_re (trim g)) <= i < length (objectives q))%nat ->
     guide_objectives (parseLLMResponse eng text q) !! i = Some (trim g)).
Proof.
  intros Hc Hempty Hblock.
  destruct (parseLLMResponse_cases eng text q) as (_ & Hok & _).
  destruct (Hok Hc) as [_ ->]. cbn zeta. rewrite Hempty, Hblock.
  split; [done|]. intros i [Hparts Hi].
  destruct (lookup_lt_is_Some_2 (objectives q) i Hi) as [obj Hobj].
  rewrite list_lookup_imap, Hobj. cbn. f_equal.
  unfold part_slot. by rewrite lookup_ge_None_2.
Qed.

(** X13. When every pattern compiles and either the text that the
    patterns of some objective find is not empty once trimmed, or the
    answer has no step-by-step block, each slot is what the patterns of its
    own objective find (the heading first, the description next), trimmed,
    and the empty string when they find nothing. *)
Theorem parseLLMResponse_per_objective (eng : string -> compiled) (text : string)
    (q : quest) :
  forallb (compiles eng) (objectives q) = true ->
  (forallb (fun slot => String.eqb slot "")
     (imap (first_slot eng text) (objectives q)) = false \/
   search guide_section_re text = None) ->
  guide_objectives (parseLLMResponse eng text q)
    = imap (first_slot eng text) (objectives q).
Proof.
  intros Hc Hcase.
  destruct (parseLLMResponse_cases eng text q) as (_ & Hok & _).
  destruct (Hok Hc) as [_ ->]. cbn zeta.
  destruct Hcase as [-> | ->]; [done|].
  destruct (forallb (fun obj => String.eqb obj "") _); reflexivity.
Qed.

Lemma parseLLMResponse_throw_witness :
  forallb (compiles no_regexp) (objectives unclosed_quest) = false /\
  guide_objectives (parseLLMResponse no_regexp headed_answer unclosed_quest)
    = [headed_answer; headed_answer].
Proof.
  assert (forallb (compiles no_regexp) (objectives unclosed_quest) = false) as H
    by (vm_compute; reflexivity).
  split; [exact H|].
  exact (proj2 (parseLLMResponse_throw no_regexp headed_answer unclosed_quest) H).
Defined.

Lemma parseLLMResponse_split_witness :
  forallb (compiles no_regexp) (objectives three_objectives) = true /\
  forallb (fun slot => String.eqb slot "")
    (imap (first_slot no_regexp two_chunks) (objectives three_objectives)) = true /\
  search guide_section_re two_chunks
    = Some ("Step-by-Step Guide:" +:+ LF +:+ "Go to dorms" +:+ LF +:+ LF +:+
            "Find the key",
            Some ("Go to dorms" +:+ LF +:+ LF +:+ "Find the key")) /\
  guide_objectives (parseLLMResponse no_regexp two_chunks three_objectives)
    = [ "Go to dorms"; "Find the key";
        "Go to dorms" +:+ LF +:+ LF +:+ "Find the key" ].
Proof.
  assert (forallb (compiles no_regexp) (objectives three_objectives) = true) as Hc
    by (vm_compute; reflexivity).
  assert (forallb (fun slot => String.eqb slot "")
            (imap (first_slot no_regexp two_chunks) (objectives three_objectives))
          = true) as He by (vm_compute; reflexivity).
  assert (search guide_section_re two_chunks
          = Some ("Step-by-Step Guide:" +:+ LF +:+ "Go to dorms" +:+ LF +:+ LF +:+
                  "Find the key",
                  Some ("Go to dorms" +:+ LF +:+ LF +:+ "Find the key"))) as Hb
    by (vm_compute; reflexivity).
  split; [exact Hc|]. split; [exact He|]. split; [exact Hb|].
  exact (proj1 (parseLLMResponse_split no_regexp two_chunks three_objectives
                  _ _ Hc He Hb)).
Defined.

Lemma parseLLMResponse_per_objective_witness :
  forallb (compiles no_regexp) (objectives three_objectives) = true /\
  (forallb (fun slot => String.eqb slot "")
     (imap (first_slot no_regexp headed_answer) (objectives three_objectives))
   = false \/
   search guide_section_re headed_answer = None) /\
  guide_objectives (parseLLMResponse no_regexp headed_answer three_objectives)
    = [": go there"; ": do that"; ""].
Proof.
  assert (forallb (compiles no_regexp) (objectives three_objectives) = true) as Hc
    by (vm_compute; reflexivity).
  assert (forallb (fun slot => String.eqb slot "")
            (imap (first_slot no_regexp headed_answer) (objectives three_objectives))
          = false \/
          search guide_section_re headed_answer = None) as Hcase
    by (left; vm_compute; reflexivity).
  split; [exact Hc|]. split; [exact Hcase|].
  exact (parseLLMResponse_per_objective no_regexp headed_answer three_objectives
           Hc Hcase).
Defined.

End SegmentationProps.

(** ** The image collector *)

Section CollectorProps.

Import Js Images Examples.

Lemma substring0_le n s : (String.length (substring0 n s) <= n)%nat.
Proof.
  unfold substring0. revert s. induction n as [|n IH]; intros [|c s]; simpl; try lia.
  specialize (IH s). lia.
Qed.



(** An element that makes the callback throw ends the loop with that throw. *)
Lemma scrape_each_throw resolve link kw elems : forall acc elem,
  elem ∈ elems ->
  (exists e, scrape_image resolve link kw elem = Throw e) ->
  exists e, scrape_each resolve link kw elems acc = Throw e.
Proof.
  induction elems as [|x elems IH]; intros acc elem Hin Hthrow.
  - by apply elem_of_nil in Hin.
  - cbn. destruct (scrape_image resolve link kw x) as [pushed|e] eqn:Hx; cbn; [|eauto].
    apply elem_of_cons in Hin as [-> | Hin].
    + destruct Hthrow as [e He]. congruence.
    + by eapply IH.
Qed.

(** X21. [scrapeWikiImages] returns no image when the address of the
    page is empty, when the fetch throws or does not answer OK, and also
    when the page holds one [img] element without [src] that is neither
    small nor an icon by its alternative text: reading its [src] throws,
    and the other images of the page are lost with it. *)
Theorem scrapeWikiImages_empty fetch resolve link (q : quest) :
  (link = "" \/
   (exists e, fetch link = FetchThrows e) \/
   (exists page, fetch link = FetchResponse false page) \/
   (exists page elem, fetch link = FetchResponse true page /\ elem ∈ page /\
      reads_missing_src elem = true)) ->
  scrapeWikiImages fetch resolve link q = [].
Proof.
  unfold scrapeWikiImages.
  intros [-> | [[e He] | [[page Hp] | (page & elem & Hp & Hin & Hmiss)]]];
    [done | ..]; destruct (truthy link); cbn [negb]; try done.
  - by rewrite He.
  - by rewrite Hp.
  - rewrite Hp. cbn [negb].
    destruct (scrape_each_throw resolve link (quest_keywords q) page [] elem Hin)
      as [e ->]; [|done].
    unfold reads_missing_src in Hmiss.
    apply andb_true_iff in Hmiss as [[Hs Ha]%andb_true_iff Hsrc].
    apply negb_true_iff in Hs, Ha, Hsrc.
    unfold scrape_image. rewrite Hs, Ha.
    destruct (src elem); [|eauto]. by rewrite bool_decide_eq_false in Hsrc; destruct Hsrc.
Qed.

Lemma icon_of_spec idx it : Forall (is_icon_of idx) (icon_of idx it).
Proof.
  unfold icon_of. destruct (iconLink it) as [link|]; [|constructor].
  destruct (truthy link) eqn:Hl; constructor; [|constructor]. by split_and!.
Qed.

Lemma objective_icons_spec idx o : Forall (is_icon_of idx) (objective_icons idx o).
Proof.
  unfold objective_icons. rewrite !Forall_app. split_and!.
  - destruct (item o); cbn; [apply icon_of_spec | constructor].
  - destruct (items o) as [its|]; cbn; [|constructor].
    induction its as [|it its IH]; cbn; [constructor|].
    apply Forall_app. split; [apply icon_of_spec | done].
  - destruct (markerItem o); cbn; [apply icon_of_spec | constructor].
Qed.

Lemma icons_not_full idx l :
  Forall (is_icon_of idx) l -> List.find is_full_image l = None.
Proof.
  induction 1 as [|img l (Ht & _) _ IH]; [done|]. cbn.
  unfold is_full_image at 1. by rewrite Ht.
Qed.

Lemma list_find_app {A} (P : A -> bool) l1 l2 :
  List.find P (l1 ++ l2)
  = match List.find P l1 with
    | Some x => Some x
    | None => List.find P l2
    end.
Proof. induction l1 as [|x l1 IH]; cbn; [done|]. by destruct (P x). Qed.

(** The entry that [extractAPIImages] holds for an index. *)
Lemma extract_objectives_find objs : forall start idx,
  List.find (fun e => (objectiveIndex e =? idx)%nat) (extract_objectives start objs)
  = match (if (start <=? idx)%nat then objs !! (idx - start) else None) with
    | Some o =>
        match objective_icons idx o with
        | [] => None
        | icons => Some {| objectiveIndex := idx; images := icons |}
        end
    | None => None
    end.
Proof.
  induction objs as [|o objs IH]; intros start idx; cbn [extract_objectives].
  - cbn. by destruct (start <=? idx)%nat.
  - rewrite list_find_app, (IH (S start) idx).
    destruct (Nat.eqb_spec start idx) as [-> | Hne].
    + rewrite Nat.leb_refl, Nat.sub_diag.
      assert ((S idx <=? idx)%nat = false) as -> by (apply Nat.leb_gt; lia).
      cbn [lookup list_lookup].
      destruct (objective_icons idx o) as [|icon rest] eqn:Hicons; cbn; [done|].
      by rewrite Nat.eqb_refl.
    + assert (List.find (fun e => (objectiveIndex e =? idx)%nat)
                (if (0 <? length (objective_icons start o))%nat
                 then [{| objectiveIndex := start; images := objective_icons start o |}]
                 else []) = None) as ->.
      { destruct (0 <? _)%nat; [|done]. cbn.
        by destruct (Nat.eqb_spec start idx). }
      destruct (Nat.leb_spec start idx) as [Hle | Hgt].
      * assert ((S start <=? idx)%nat = true) as -> by (apply Nat.leb_le; lia).
        replace (idx - start) with (S (idx - S start)) by lia. done.
      * assert ((S start <=? idx)%nat = false) as -> by (apply Nat.leb_gt; lia).
        done.
Qed.

(** X23. On the image set that [getQuestImages] builds for a quest, an
    objective that refers to items gets the icon of the first of them (its
    item, then its items, then its marker), whatever was scraped.  An
    objective without item icon, or an index past the objectives, gets no
    image exactly when nothing was scraped, and otherwise the address of
    one of the scraped images. *)
Theorem findImageForObjective_structural fetch resolve (q : quest) (o : objective)
    (idx : nat) :
  (forall o' icon rest,
     objectives q !! idx = Some o' ->
     objective_icons idx o' = icon :: rest ->
     findImageForObjective o idx (getQuestImages fetch resolve q)
       = Some (ai_url icon) /\
     truthy (ai_url icon) = true) /\
  ((objectives q !! idx = None \/
    exists o', objectives q !! idx = Some o' /\ objective_icons idx o' = []) ->
   (findImageForObjective o idx (getQuestImages fetch resolve q) = None <->
    wikiImages (getQuestImages fetch resolve q) = []) /\
   (forall u,
      findImageForObjective o idx (getQuestImages fetch resolve q) = Some u ->
      exists w, w ∈ wikiImages (getQuestImages fetch resolve q) /\ u = url w)).
Proof.
  assert (objectiveImages (getQuestImages fetch resolve q)
          = extract_objectives 0 (objectives q)) as Hobj by reflexivity.
  split.
  - intros o' icon rest Ho Hicons. unfold findImageForObjective.
    rewrite Hobj, extract_objectives_find. cbn [Nat.leb]. rewrite Nat.sub_0_r, Ho, Hicons.
    pose proof (objective_icons_spec idx o') as Hspec. rewrite Hicons in Hspec.
    rewrite (icons_not_full idx _ Hspec). split; [done|].
    inversion Hspec as [|? ? (_ & _ & _ & Hu) _]; by subst.
  - intros Hnone. unfold findImageForObjective.
    rewrite Hobj, extract_objectives_find. cbn [Nat.leb]. rewrite Nat.sub_0_r.
    assert (match objectives q !! idx with
            | Some o0 =>
                match objective_icons idx o0 with
                | [] => None
                | icons => Some {| objectiveIndex := idx; images := icons |}
                end
            | None => None
            end = None) as ->.
    { destruct Hnone as [-> | (o' & -> & ->)]; done. }
    destruct (wikiImages (getQuestImages fetch resolve q)) as [|w ws] eqn:Hw.
    + split; [done|]. intros u. done.
    + split; [split; intros; by repeat case_match|].
      intros u. destruct (List.find _ (w :: ws)) as [img|] eqn:Hfind.
      * intros [= <-]. exists img. split; [|done].
        apply find_some in Hfind as [Hin _]. by apply list_elem_of_In.
      * intros [= <-]. exists w. split; [left | done].
Qed.

Lemma extract_objectives_entries objs : forall start,
  Forall (fun e =>
            (start <= objectiveIndex e)%nat /\
            exists o, objs !! (objectiveIndex e - start) = Some o /\
              images e = objective_icons (objectiveIndex e) o /\
              images e <> [] /\
              Forall (is_icon_of (objectiveIndex e)) (images e))
    (extract_objectives start objs) /\
  StronglySorted (fun a b => (objectiveIndex a < objectiveIndex b)%nat)
    (extract_objectives start objs).
Proof.
  induction objs as [|o objs IH]; intros start; cbn [extract_objectives].
  - split; constructor.
  - destruct (IH (S start)) as [Hall Hsorted].
    assert (Forall (fun e =>
              (start <= objectiveIndex e)%nat /\
              exists o', (o :: objs) !! (objectiveIndex e - start) = Some o' /\
                images e = objective_icons (objectiveIndex e) o' /\
                images e <> [] /\
                Forall (is_icon_of (objectiveIndex e)) (images e))
              (extract_objectives (S start) objs)) as Hrest.
    { eapply Forall_impl; [exact Hall|]. cbn beta.
      intros e (Hle & o' & Hl & Hrest). split; [lia|]. exists o'.
      replace (objectiveIndex e - start) with (S (objectiveIndex e - S start)) by lia.
      done. }
    destruct (0 <? length (objective_icons start o))%nat eqn:Hne; cbn [app].
    + split.
      * constructor; [|done]. cbn [objectiveIndex images]. split; [lia|]. exists o.
        rewrite Nat.sub_diag. split; [done|]. split; [done|].
        split; [|apply objective_icons_spec].
        apply Nat.ltb_lt in Hne. destruct (objective_icons start o); [cbn in Hne; lia | done].
      * constructor; [done|]. eapply Forall_impl; [exact Hall|].
        cbn [objectiveIndex]. intros e [Hle _]. lia.
    + done.
Qed.

Lemma extract_objectives_none objs : forall start,
  Forall (fun o => item o = None /\ items o = None /\ markerItem o = None) objs ->
  extract_objectives start objs = [].
Proof.
  induction objs as [|o objs IH]; intros start Hnone; [done|].
  inversion Hnone as [|? ? (Hi & His & Hm) Hrest]; subst.
  cbn [extract_objectives]. rewrite (IH _ Hrest).
  unfold objective_icons. by rewrite Hi, His, Hm.
Qed.

(** Every objective with an icon has its entry. *)
Lemma extract_objectives_complete objs : forall start k o,
  objs !! k = Some o ->
  objective_icons (start + k) o <> [] ->
  {| objectiveIndex := start + k; images := objective_icons (start + k) o |}
    ∈ extract_objectives start objs.
Proof.
  induction objs as [|o' objs IH]; intros start k o Hk Hne; [done|].
  cbn [extract_objectives]. destruct k as [|k].
  - cbn in Hk. injection Hk as ->. rewrite Nat.add_0_r in *.
    destruct (objective_icons start o) as [|i l] eqn:Hi; [done|].
    cbn [length Nat.ltb Nat.leb app]. left.
  - cbn in Hk. apply elem_of_app. right.
    replace (start + S k)%nat with (S start + k)%nat in * by lia.
    by apply IH.
Qed.

(** X22. [extractAPIImages] keeps one entry per objective that refers to
    at least one item with an icon, and only those: every such objective
    has the entry that carries its index and its icons; the entries come
    by increasing objective index, none is empty, and each holds the icons
    of its objective, all typed [icon] and tagged with its index.  A quest
    whose objectives refer to no item yields no entry.  The map image is
    that of the quest's map when it has a non-empty image link, and none
    otherwise. *)
Theorem extractAPIImages_entries (q : quest) :
  (forall idx o,
     objectives q !! idx = Some o ->
     objective_icons idx o <> [] ->
     {| objectiveIndex := idx; images := objective_icons idx o |}
       ∈ api_objectiveImages (extractAPIImages q)) /\
  Forall (fun e =>
            exists o, objectives q !! objectiveIndex e = Some o /\
              images e = objective_icons (objectiveIndex e) o /\
              images e <> [] /\
              Forall (is_icon_of (objectiveIndex e)) (images e))
    (api_objectiveImages (extractAPIImages q)) /\
  StronglySorted (fun a b => (objectiveIndex a < objectiveIndex b)%nat)
    (api_objectiveImages (extractAPIImages q)) /\
  (Forall (fun o => item o = None /\ items o = None /\ markerItem o = None)
     (objectives q) ->
   api_objectiveImages (extractAPIImages q) = []) /\
  (forall m link,
     map q = Some m -> imageLink m = Some link -> link <> "" ->
     exists img, api_mapImage (extractAPIImages q) = Some img /\
       ai_url img = link /\ ai_source img = "api") /\
  ((forall m, map q = Some m -> imageLink m = None \/ imageLink m = Some "") ->
   api_mapImage (extractAPIImages q) = None).
Proof.
  unfold extractAPIImages. cbn [api_objectiveImages api_mapImage].
  destruct (extract_objectives_entries (objectives q) 0) as [Hall Hsorted].
  split_and!.
  - intros idx o Hidx Hne.
    exact (extract_objectives_complete (objectives q) 0 idx o Hidx Hne).
  - eapply Forall_impl; [exact Hall|]. cbn beta.
    intros e (_ & o & Hl & Hrest). exists o. by rewrite Nat.sub_0_r in Hl.
  - exact Hsorted.
  - apply extract_objectives_none.
  - intros m link -> -> Hlink. destruct link as [|c link]; [done|].
    cbn [truthy]. eauto.
  - intros Hmap. destruct (map q) as [m|]; [|done].
    destruct (Hmap m eq_refl) as [-> | ->]; done.
Qed.

Lemma startsWith_cons c s a p :
  startsWith (String c s) (String a p)
  = if Ascii.eqb a c then startsWith s p else false.
Proof. reflexivity. Qed.

Lemma startsWith_nil s : startsWith s "" = true.
Proof. by destruct s. Qed.

(** X24. [normalizeImageUrl] answers [null] for the empty address, leaves
    an [http://] or [https://] address as it is, and puts [https:] in
    front of a protocol-relative one; on such addresses its result starts
    with [http://] or [https://] and is left unchanged by a second
    normalisation, whatever the base. *)
Theorem normalizeImageUrl_absolute (resolve : string -> string -> option string)
    (url baseUrl : string) :
  (url = "" -> normalizeImageUrl resolve url baseUrl = None) /\
  (startsWith url "http://" || startsWith url "https://" = true ->
   normalizeImageUrl resolve url baseUrl = Some url) /\
  (startsWith url "//" = true ->
   normalizeImageUrl resolve url baseUrl = Some ("https:" +:+ url)) /\
  (startsWith url "http://" || startsWith url "https://" || startsWith url "//" = true ->
   forall r baseUrl',
     normalizeImageUrl resolve url baseUrl = Some r ->
     startsWith r "http://" || startsWith r "https://" = true /\
     normalizeImageUrl resolve r baseUrl' = Some r).
Proof.
  assert (startsWith url "http://" || startsWith url "https://" = true ->
          normalizeImageUrl resolve url baseUrl = Some url) as Habs.
  { intros H. unfold normalizeImageUrl. rewrite H.
    destruct url; [done|]. done. }
  assert (startsWith url "//" = true ->
          exists rest, url = String "/" (String "/" rest)) as Hshape.
  { clear Habs. destruct url as [|c1 url1]; [done|].
    destruct url1 as [|c2 rest].
    - rewrite startsWith_cons. by destruct (Ascii.eqb "/" c1).
    - rewrite !startsWith_cons.
      destruct (Ascii.eqb_spec "/" c1) as [Hc1|]; [|done].
      destruct (Ascii.eqb_spec "/" c2) as [Hc2|]; [|done].
      subst c1 c2. eauto. }
  assert (startsWith url "//" = true ->
          normalizeImageUrl resolve url baseUrl = Some ("https:" +:+ url)) as Hrel.
  { intros H. destruct (Hshape H) as [rest ->]. unfold normalizeImageUrl. cbn.
    by rewrite startsWith_nil. }
  split_and!; [by intros -> | done | done |].
  intros H r baseUrl' Hr.
  destruct (startsWith url "http://" || startsWith url "https://") eqn:Ha.
  - rewrite (Habs eq_refl) in Hr. injection Hr as <-. split; [done|].
    unfold normalizeImageUrl. rewrite Ha. by destruct url.
  - cbn [orb] in H. rewrite (Hrel H) in Hr. injection Hr as <-.
    destruct (Hshape H) as [rest ->]. unfold normalizeImageUrl.
    replace ("https:" +:+ String "/" (String "/" rest))
      with (String "h" (String "t" (String "t" (String "p" (String "s"
             (String ":" (String "/" (String "/" rest)))))))) by reflexivity.
    cbn. by rewrite ?startsWith_nil.
Qed.


Lemma scrapeWikiImages_empty_witness :
  (exists page elem,
     srcless_fetch "https://wiki.example/Supplier" = FetchResponse true page /\
     elem ∈ page /\ reads_missing_src elem = true) /\
  scrapeWikiImages srcless_fetch no_resolve "https://wiki.example/Supplier"
    items_quest = [].
Proof.
  assert (exists page elem,
            srcless_fetch "https://wiki.example/Supplier" = FetchResponse true page /\
            elem ∈ page /\ reads_missing_src elem = true) as H.
  { exists srcless_page,
      {| src := None; alt_attr := Some "Depot"; title_attr := None;
         width := None; height := None; closest_text := "" |}.
    split; [reflexivity|]. split; [|reflexivity].
    apply elem_of_app. right. apply list_elem_of_singleton. reflexivity. }
  split; [exact H|].
  exact (scrapeWikiImages_empty srcless_fetch no_resolve
           "https://wiki.example/Supplier" items_quest
           (or_intror (or_intror (or_intror H)))).
Defined.

Lemma findImageForObjective_structural_witness :
  objectives items_quest !! 1
    = Some {| obj_id := "o2"; description := "Hand over the tools";
              optional := false; obj_type := "giveItem";
              item := Some {| item_name := "Wrench";
                              iconLink := Some "https://assets.example/wrench.webp" |};
              items := Some [ {| item_name := "Pliers";
                                 iconLink := Some "https://assets.example/pliers.webp" |} ];
              markerItem := None |} /\
  findImageForObjective relay_objective 1
    (getQuestImages bunker_fetch no_resolve items_quest)
  = Some "https://assets.example/wrench.webp".
Proof.
  split; [reflexivity|].
  exact (proj1 (proj1 (findImageForObjective_structural bunker_fetch no_resolve
                         items_quest relay_objective 1) _ _ _ eq_refl eq_refl)).
Defined.

Lemma extractAPIImages_entries_witness :
  objectives items_quest !! 1%nat
    = Some {| obj_id := "o2"; description := "Hand over the tools";
              optional := false; obj_type := "giveItem";
              item := Some {| item_name := "Wrench";
                              iconLink := Some "https://assets.example/wrench.webp" |};
              items := Some [ {| item_name := "Pliers";
                                 iconLink := Some "https://assets.example/pliers.webp" |} ];
              markerItem := None |} /\
  {| objectiveIndex := 1;
     images :=
       [ {| ai_url := "https://assets.example/wrench.webp";
            ai_description := "Wrench"; ai_source := "api";
            ai_objectiveIndex := Some 1%nat; ai_type := Some "icon" |};
         {| ai_url := "https://assets.example/pliers.webp";
            ai_description := "Pliers"; ai_source := "api";
            ai_objectiveIndex := Some 1%nat; ai_type := Some "icon" |} ] |}
    ∈ api_objectiveImages (extractAPIImages items_quest).
Proof.
  split; [reflexivity|].
  refine (proj1 (extractAPIImages_entries items_quest) 1%nat _ eq_refl _).
  discriminate.
Defined.

Lemma normalizeImageUrl_absolute_witness :
  startsWith "//static.example/a.png" "//" = true /\
  normalizeImageUrl no_resolve "//static.example/a.png" "https://wiki.example/Q"
    = Some "https://static.example/a.png".
Proof.
  split; [reflexivity|].
  exact (proj1 (proj2 (proj2 (normalizeImageUrl_absolute no_resolve
                                "//static.example/a.png" "https://wiki.example/Q")))
           eq_refl).
Defined.

End CollectorProps.

(** ** The order of preference of the per-objective match *)

Section Preference.

Import Js Images Examples.

Lemma sorted_entries_single idx (l : list objective_images) :
  StronglySorted (fun a b => (objectiveIndex a < objectiveIndex b)%nat) l ->
  (length (List.filter (fun obj => (objectiveIndex obj =? idx)%nat) l) <= 1)%nat.
Proof.
  induction 1 as [|e l Hl IH He]; cbn [List.filter]; [cbn; lia|].
  destruct (Nat.eqb_spec (objectiveIndex e) idx) as [Heq|Hne]; [|done].
  assert (List.filter (fun obj => (objectiveIndex obj =? idx)%nat) l = []) as ->;
    [|cbn; lia].
  clear IH Hl. induction l as [|e' l IH]; [done|].
  apply Forall_cons in He as [Hlt He]. cbn [List.filter].
  destruct (Nat.eqb_spec (objectiveIndex e') idx); [lia | by apply IH].
Qed.

(** The images the collector gathers for a quest have one entry per index
    at most, and come in the order of their scores. *)
Lemma getQuestImages_well_formed fetch resolve q idx :
  single_entry idx (getQuestImages fetch resolve q) /\
  sorted_desc (wikiImages (getQuestImages fetch resolve q)).
Proof.
  split; [|apply getQuestImages_sorted].
  unfold single_entry. apply sorted_entries_single.
  destruct (extract_objectives_entries (objectives q) 0) as [_ Hs].
  unfold getQuestImages. cbn [objectiveImages]. exact Hs.
Qed.

(** With one entry at most, the structural images of an index are those
    of the entry the code looks at. *)
Lemma structural_images_single idx imgs :
  single_entry idx imgs ->
  structural_images idx imgs
  = match List.find (fun obj => (objectiveIndex obj =? idx)%nat)
            (objectiveImages imgs) with
    | Some entry => images entry
    | None => []
    end.
Proof.
  unfold single_entry, structural_images. rewrite find_head_filter.
  destruct (List.filter _ (objectiveImages imgs)) as [|e [|e' l]]; cbn; try lia.
  - done.
  - intros _. apply app_nil_r.
Qed.

Lemma matchImage_sorted o idx imgs :
  single_entry idx imgs -> sorted_desc (wikiImages imgs) ->
  findImageForObjective o idx imgs = matchImage o idx imgs.
Proof.
  intros Hsingle Hsorted. unfold findImageForObjective, matchImage.
  rewrite (structural_images_single idx imgs Hsingle).
  assert (best_scoring (List.filter
            (fun w => Qlt_bool (1 # 2) (objective_relevance o w)) (wikiImages imgs))
          = List.find (fun w => Qlt_bool (1 # 2) (objective_relevance o w))
              (wikiImages imgs)) as Hbest.
  { rewrite best_scoring_sorted by by apply filter_sorted.
    by rewrite find_head_filter. }
  rewrite Hbest. unfold objective_relevance.
  destruct (List.find _ (objectiveImages imgs)) as [[i [|first rest]]|];
    cbn [images].
  + cbn [List.find]. by destruct (wikiImages imgs).
  + destruct (List.find is_full_image (first :: rest)) as [full|] eqn:Hfull;
      [done|].
    cbn [List.find] in *. by destruct (is_full_image first).
  + cbn [List.find]. by destruct (wikiImages imgs).
Qed.

Lemma Qlt_bool_spec a b : Qlt_bool a b = true <-> (a < b)%Q.
Proof.
  unfold Qlt_bool. rewrite negb_true_iff. split.
  - intros H. apply Qnot_le_lt. intros Hle. apply Qle_bool_iff in Hle. congruence.
  - intros H. destruct (Qle_bool b a) eqn:Hle; [|done].
    apply Qle_bool_iff in Hle. by apply Qle_not_lt in Hle.
Qed.

Lemma find_first {A} (f : A -> bool) pre x post :
  Forall (fun y => f y = false) pre -> f x = true ->
  List.find f (pre ++ x :: post) = Some x.
Proof.
  induction 1 as [|y pre Hy _ IH]; cbn; intros Hx; [by rewrite Hx|].
  rewrite Hy. by apply IH.
Qed.

(** C5, as stated, fails on two image sets.  On [unsorted_images] the
    image returned is the first one whose relevance to the objective
    exceeds 0.5, although a later one has both a higher relevance and a
    higher score.  On [split_images] the icon of the index is passed over
    for a scraped image, because the first entry of the index is empty. *)
Lemma findImageForObjective_first_match :
  ((1 # 2 < objective_relevance relay_objective station_scraped)%Q /\
   (objective_relevance relay_objective station_scraped
    < objective_relevance relay_objective relay_scraped)%Q /\
   (relevanceScore station_scraped < relevanceScore relay_scraped)%Q /\
   findImageForObjective relay_objective 0 unsorted_images
     = Some (url station_scraped) /\
   matchImage relay_objective 0 unsorted_images = Some (url relay_scraped)) /\
  (structural_images 0 split_images = [relay_icon] /\
   relevanceScore relay_scraped = 9 # 10 /\
   findImageForObjective relay_objective 0 split_images = Some (url relay_scraped) /\
   matchImage relay_objective 0 split_images = Some (ai_url relay_icon)).
Proof. split; split_and!; by vm_compute. Qed.

(** C5, amended.  On an image set that has one entry at most for the
    index and whose scraped images are ordered by decreasing score, as is
    every image set the collector builds, the image found for an objective
    is the one of the matching contract: the structural full image of that
    index, else its structural icon, else the best-scoring scraped image
    among those whose relevance to the words of the objective exceeds 0.5,
    else the first scraped image, else none.  On every image set, an index
    whose first entry has images and no full image among them gets the URL
    of its first icon, whatever the scraped images are; and an index whose
    first entry is missing or without images gets the first scraped image,
    in the order of the set, whose relevance exceeds 0.5. *)
Theorem findImageForObjective_preference (o : objective) (idx : nat)
    (imgs : image_set) :
  (single_entry idx imgs -> sorted_desc (wikiImages imgs) ->
   findImageForObjective o idx imgs = matchImage o idx imgs) /\
  (forall fetch resolve q,
     findImageForObjective o idx (getQuestImages fetch resolve q)
     = matchImage o idx (getQuestImages fetch resolve q)) /\
  (forall entry icon rest,
     List.find (fun obj => (objectiveIndex obj =? idx)%nat) (objectiveImages imgs)
       = Some entry ->
     images entry = icon :: rest ->
     List.find is_full_image (icon :: rest) = None ->
     findImageForObjective o idx imgs = Some (ai_url icon)) /\
  (forall pre w post,
     (forall entry,
        List.find (fun obj => (objectiveIndex obj =? idx)%nat) (objectiveImages imgs)
          = Some entry ->
        images entry = []) ->
     wikiImages imgs = pre ++ w :: post ->
     Forall (fun w' => ~ (1 # 2 < objective_relevance o w')%Q) pre ->
     (1 # 2 < objective_relevance o w)%Q ->
     findImageForObjective o idx imgs = Some (url w)).
Proof.
  split_and!.
  - apply matchImage_sorted.
  - intros fetch resolve q.
    destruct (getQuestImages_well_formed fetch resolve q idx) as [Hsingle Hsorted].
    by apply matchImage_sorted.
  - intros entry icon rest Hentry Himgs Hnofull. unfold findImageForObjective.
    rewrite Hentry. destruct entry as [i l]. cbn in Himgs. subst l.
    by rewrite Hnofull.
  - intros pre w post Hnone Hwiki Hpre Hw. unfold findImageForObjective.
    assert (List.find
              (fun img =>
                 Qlt_bool (1 # 2)
                   (calculateRelevance (wi_description img +:+ " " +:+ alt img)
                      (long_words (description o))))
              (pre ++ w :: post) = Some w) as Hfound.
    { apply (find_first (fun w' => Qlt_bool (1 # 2) (objective_relevance o w'))).
      - eapply Forall_impl; [exact Hpre|]. cbn beta. intros w' Hw'.
        destruct (Qlt_bool (1 # 2) (objective_relevance o w')) eqn:Hb; [|done].
        exfalso. apply Hw'. by apply Qlt_bool_spec.
      - by apply Qlt_bool_spec. }
    rewrite Hwiki.
    destruct (List.find _ (objectiveImages imgs)) as [[i l]|] eqn:Hentry.
    + pose proof (Hnone _ eq_refl) as Himgs. cbn in Himgs. subst l.
      destruct (pre ++ w :: post) as [|first l'] eqn:Hl; [by destruct pre|].
      by rewrite Hfound.
    + destruct (pre ++ w :: post) as [|first l'] eqn:Hl; [by destruct pre|].
      by rewrite Hfound.
Qed.

Lemma findImageForObjective_preference_witness :
  single_entry 0 relay_images /\
  sorted_desc (wikiImages relay_images) /\
  (1 # 2 < objective_relevance relay_objective relay_scraped)%Q /\
  relevanceScore relay_scraped = 9 # 10 /\
  findImageForObjective relay_objective 0 relay_images
    = matchImage relay_objective 0 relay_images /\
  findImageForObjective relay_objective 0 relay_images = Some (ai_url relay_icon).
Proof.
  assert (single_entry 0 relay_images) as Hsingle by (unfold single_entry; cbn; lia).
  assert (sorted_desc (wikiImages relay_images)) as Hsorted.
  { repeat constructor. }
  split; [exact Hsingle|]. split; [exact Hsorted|].
  split; [by vm_compute|]. split; [reflexivity|].
  destruct (findImageForObjective_preference relay_objective 0 relay_images)
    as (Hmatch & _ & Hicon & _).
  split; [exact (Hmatch Hsingle Hsorted)|].
  exact (Hicon {| objectiveIndex := 0; images := [relay_icon] |} relay_icon []
           eq_refl eq_refl eq_refl).
Defined.

End Preference.

(** ** The cache and a change of objectives *)

Section InvalidationProps.

Import Js Cache Examples.

Lemma generateCacheKey_hash questId objs1 objs2 :
  generateCacheKey questId objs1 = generateCacheKey questId objs2 ->
  objectivesHash objs1 = objectivesHash objs2.
Proof.
  unfold generateCacheKey. intros H.
  by do 3 apply string_app_inv_head in H.
Qed.

(** X6. The cache tells the objective lists of a quest apart by their
    eight-digit hash alone.  After a successful write, a lookup for the
    same quest with another objective list returns the written data until
    it expires when the hashes of the two lists agree, as they do for
    [scavs_35940] and [scavs_48311], and answers as it would have before
    the write when they differ. *)
Theorem cache_objectives_change questId objs1 objs2 (data : enrichment)
    (ttl : option Z) (now now' : Z) (c c' : quest_cache) :
  setCachedQuestGuide questId objs1 data ttl now c = (Normal true, c') ->
  (objectivesHash objs1 = objectivesHash objs2 ->
   (now' <= expiry ttl now)%Z ->
   fst (getCachedQuestGuide questId objs2 now' c') = Normal (Some data)) /\
  (objectivesHash objs1 <> objectivesHash objs2 ->
   fst (getCachedQuestGuide questId objs2 now' c')
   = fst (getCachedQuestGuide questId objs2 now' c)).
Proof.
  intros Hset. split.
  - intros Hhash Hnow.
    assert (generateCacheKey questId objs2 = generateCacheKey questId objs1) as Hkey.
    { unfold generateCacheKey. by rewrite Hhash. }
    destruct (get_after_set _ _ _ _ _ now' _ _ Hset Hnow) as [Hget _].
    unfold getCachedQuestGuide in *. by rewrite Hkey.
  - intros Hhash. revert Hset. rewrite setCachedQuestGuide_cases.
    destruct (is_full c); [done|]. intros [= <-].
    unfold getCachedQuestGuide, NodeCache.get. cbn [NodeCache.data].
    rewrite lookup_insert_ne.
    + destruct (NodeCache.data c !! _) as [e|]; [|done].
      by destruct (NodeCache.expired now' e).
    + intros Hkey. by apply generateCacheKey_hash in Hkey.
Qed.

Lemma cache_objectives_change_witness :
  description scavs_35940 <> description scavs_48311 /\
  fst (getCachedQuestGuide "5936d90786f7742b1420ba5b" (Some [scavs_48311]) 1000
         (snd (setCachedQuestGuide "5936d90786f7742b1420ba5b" (Some [scavs_35940])
                 sample_data None 0 questCache0)))
  = Normal (Some sample_data).
Proof.
  split; [discriminate|].
  refine (proj1 (cache_objectives_change "5936d90786f7742b1420ba5b"
                   (Some [scavs_35940]) (Some [scavs_48311]) sample_data None 0 1000
                   questCache0 _ _) _ _).
  - rewrite setCachedQuestGuide_cases. reflexivity.
  - by vm_compute.
  - by vm_compute.
Defined.

End InvalidationProps.

(** ** The selection of the quests *)

Section SearchProps.

Import Js Search Examples.

Lemma string_app_assoc (a b c : string) : (a +:+ b) +:+ c = a +:+ b +:+ c.
Proof.
  induction a as [|x a IH]; [done|]. by rewrite !string_app_cons, IH.
Qed.

Lemma startsWith_spec s p : startsWith s p = true <-> exists r, s = p +:+ r.
Proof.
  revert s. induction p as [|a p IH]; intros s.
  - destruct s; cbn; split; eauto.
  - destruct s as [|b s]; cbn.
    + split; [done|]. intros [r Hr]. by rewrite string_app_cons in Hr.
    + destruct (Ascii.eqb_spec a b) as [->|Hne].
      * rewrite IH. split; intros [r Hr]; exists r.
        -- by rewrite string_app_cons, Hr.
        -- rewrite string_app_cons in Hr. by injection Hr.
      * split; [done|]. intros [r Hr]. rewrite string_app_cons in Hr.
        injection Hr as ? ?. congruence.
Qed.

Lemma includes_spec s k : includes s k = true <-> exists a b, s = a +:+ k +:+ b.
Proof.
  induction s as [|c s IH].
  - cbn [includes]. rewrite orb_false_r, startsWith_spec. split.
    + intros [r Hr]. by exists "", r.
    + intros (a & b & Hab). destruct a; [by exists b|].
      by rewrite string_app_cons in Hab.
  - cbn [includes]. rewrite orb_true_iff, startsWith_spec, IH. split.
    + intros [[r Hr]|(a & b & Hab)].
      * by exists "", r.
      * exists (String c a), b. by rewrite string_app_cons, Hab.
    + intros (a & b & Hab). destruct a as [|x a].
      * left. by exists b.
      * right. rewrite string_app_cons in Hab. injection Hab as _ Hab. eauto.
Qed.

Lemma includes_trans s k w :
  includes s k = true -> includes k w = true -> includes s w = true.
Proof.
  rewrite !includes_spec. intros (a & b & ->) (c & d & ->).
  exists (a +:+ c), (d +:+ b). by rewrite !string_app_assoc.
Qed.

Lemma includes_cons c s w : includes s w = true -> includes (String c s) w = true.
Proof. intros H. cbn [includes]. rewrite H. apply orb_true_r. Qed.

Lemma startsWith_includes s w : startsWith s w = true -> includes s w = true.
Proof. intros H. destruct s; cbn [includes]; by rewrite H. Qed.

(** The pieces of a split occur in the string, the first one at its start. *)
Lemma split_ws_pieces s :
  (exists t ts, split_ws s = t :: ts /\ startsWith s t = true /\
     match s with
     | String c _ => is_space c = true -> t = ""
     | EmptyString => True
     end) /\
  Forall (fun w => includes s w = true) (split_ws s).
Proof.
  induction s as [|c s [(t & ts & Hsplit & Hpre & Hsp) IH]].
  - split; [by exists "", []|]. by repeat constructor.
  - cbn [split_ws]. destruct (is_space c) eqn:Hc.
    + destruct s as [|c' s'].
      * split; [by exists "", [""]|]. by repeat constructor.
      * destruct (is_space c') eqn:Hc'.
        -- split.
           ++ exists t, ts. rewrite (Hsp eq_refl). by rewrite (Hsp eq_refl) in Hsplit.
           ++ eapply Forall_impl; [exact IH|]. intros w. apply includes_cons.
        -- split; [by exists "", (split_ws (String c' s'))|].
           constructor; [done|].
           eapply Forall_impl; [exact IH|]. intros w. apply includes_cons.
    + rewrite Hsplit. split.
      * exists (String c t), ts. split; [done|]. split; [|done]. cbn.
        by rewrite Ascii.eqb_refl.
      * rewrite Hsplit in IH. apply Forall_cons in IH as [Ht Hts].
        constructor.
        -- apply startsWith_includes. cbn. by rewrite Ascii.eqb_refl.
        -- eapply Forall_impl; [exact Hts|]. intros w. apply includes_cons.
Qed.

Lemma split_ws_includes s w : w ∈ split_ws s -> includes s w = true.
Proof.
  intros Hw. destruct (split_ws_pieces s) as [_ H].
  rewrite Forall_forall in H. by apply H.
Qed.

Lemma filter_sublist {A} (f : A -> bool) l : sublist (List.filter f l) l.
Proof.
  induction l as [|x l IH]; cbn; [constructor|].
  destruct (f x); by constructor.
Qed.

Lemma filter_nil_iff {A} (f : A -> bool) l :
  List.filter f l = [] <-> Forall (fun x => f x = false) l.
Proof.
  induction l as [|x l IH]; cbn.
  - split; [constructor | done].
  - destruct (f x) eqn:Hx.
    + split; [done|]. intros H. apply Forall_cons in H as [H _]. congruence.
    + rewrite IH. split; [by constructor|]. intros H. by apply Forall_cons in H as [_ H].
Qed.

Lemma includes_empty s : includes s "" = true.
Proof. by destruct s. Qed.

Lemma searchWords_includes s w : w ∈ searchWords s -> includes s w = true.
Proof.
  unfold searchWords. rewrite list_elem_of_In, List.filter_In, <- list_elem_of_In.
  intros [Hw _]. by apply split_ws_includes.
Qed.

(** A name that holds the query holds each of its words. *)
Lemma phrase_match_words s task :
  phrase_match s task = true -> words_match (searchWords s) task = true.
Proof.
  unfold phrase_match, words_match. intros H. apply forallb_forall. intros w Hw.
  eapply includes_trans; [exact H|]. apply searchWords_includes.
  by apply list_elem_of_In.
Qed.

Lemma matchingTasks_cases allTasks questName :
  matchingTasks allTasks questName
  = match List.filter (phrase_match (toLowerCase questName)) allTasks with
    | [] => List.filter (words_match (searchWords (toLowerCase questName))) allTasks
    | matching => matching
    end.
Proof.
  unfold matchingTasks.
  by destruct (List.filter (phrase_match (toLowerCase questName)) allTasks).
Qed.

(** X25. [searchQuest] answers with tasks of the list it was given, in
    their order.  The name of each of them holds every word of the query,
    case apart.  When the name of some task holds the whole query, the
    answer is made of exactly the tasks whose names do; otherwise of
    exactly the tasks whose names hold every word.  So the answer is empty
    exactly when no name holds every word, and the empty query selects
    every task. *)
Theorem matchingTasks_spec (allTasks : list quest) (questName : string) :
  let searchLower := toLowerCase questName in
  sublist (matchingTasks allTasks questName) allTasks /\
  (forall task, task ∈ matchingTasks allTasks questName ->
     forall word, word ∈ searchWords searchLower ->
       includes (toLowerCase (name task)) word = true) /\
  ((exists task, task ∈ allTasks /\ phrase_match searchLower task = true) ->
   matchingTasks allTasks questName
   = List.filter (phrase_match searchLower) allTasks) /\
  ((forall task, task ∈ allTasks -> phrase_match searchLower task = false) ->
   matchingTasks allTasks questName
   = List.filter (words_match (searchWords searchLower)) allTasks) /\
  (matchingTasks allTasks questName = [] <->
   forall task, task ∈ allTasks ->
     words_match (searchWords searchLower) task = false) /\
  (questName = "" -> matchingTasks allTasks questName = allTasks).
Proof.
  intros searchLower. rewrite matchingTasks_cases. fold searchLower.
  split_and!.
  - destruct (List.filter (phrase_match searchLower) allTasks) eqn:Hm.
    + apply filter_sublist.
    + rewrite <- Hm. apply filter_sublist.
  - intros task Htask word Hword.
    assert (words_match (searchWords searchLower) task = true) as Hall.
    { destruct (List.filter (phrase_match searchLower) allTasks) as [|m ms] eqn:Hm.
      - by apply list_elem_of_In, List.filter_In in Htask as [_ ?].
      - rewrite <- Hm in Htask.
        apply list_elem_of_In, List.filter_In in Htask as [_ ?].
        by apply phrase_match_words. }
    unfold words_match in Hall. rewrite forallb_forall in Hall.
    by apply Hall, list_elem_of_In.
  - intros (task & Htask & Hp).
    destruct (List.filter (phrase_match searchLower) allTasks) eqn:Hm; [|done].
    apply filter_nil_iff in Hm. rewrite Forall_forall in Hm.
    specialize (Hm task Htask). congruence.
  - intros Hnone.
    assert (List.filter (phrase_match searchLower) allTasks = []) as ->; [|done].
    apply filter_nil_iff, Forall_forall. done.
  - split.
    + intros Hnil task Htask.
      destruct (words_match (searchWords searchLower) task) eqn:Hw; [|done].
      destruct (List.filter (phrase_match searchLower) allTasks) eqn:Hm; [|done].
      apply filter_nil_iff in Hnil. rewrite Forall_forall in Hnil.
      specialize (Hnil task Htask). congruence.
    + intros Hnone.
      assert (List.filter (phrase_match searchLower) allTasks = []) as ->.
      { apply filter_nil_iff, Forall_forall. intros task Htask.
        destruct (phrase_match searchLower task) eqn:Hp; [|done].
        apply phrase_match_words in Hp. rewrite Hnone in Hp; done. }
      apply filter_nil_iff, Forall_forall. done.
  - intros ->. subst searchLower. cbn [toLowerCase].
    assert (forall l : list quest, List.filter (phrase_match "") l = l) as Hall.
    { induction l as [|x l IH]; [done|]. cbn [List.filter].
      unfold phrase_match at 1. by rewrite includes_empty, IH. }
    rewrite Hall. by destruct allTasks.
Qed.

Lemma matchingTasks_spec_witness :
  (forall task, task ∈ punisher_tasks ->
     phrase_match (toLowerCase "Punisher 2") task = false) /\
  matchingTasks punisher_tasks "Punisher 2"
  = [named_task "t3" "The Punisher - Part 2"].
Proof.
  assert (forall task, task ∈ punisher_tasks ->
            phrase_match (toLowerCase "Punisher 2") task = false) as Hnone.
  { intros task Htask. unfold punisher_tasks in Htask.
    repeat (apply elem_of_cons in Htask as [->|Htask]; [by vm_compute|]).
    by apply elem_of_nil in Htask. }
  split; [exact Hnone|].
  destruct (matchingTasks_spec punisher_tasks "Punisher 2") as (_ & _ & _ & Hwords & _).
  rewrite (Hwords Hnone). by vm_compute.
Defined.

End SearchProps.

(** ** The embeds *)

Section EmbedProps.

Import Js Embeds Examples.

Lemma objective_embeds_length llm imgs objs : forall i count,
  length (objective_embeds objs i count llm imgs) = Nat.min count (length objs).
Proof.
  induction objs as [|o objs IH]; intros i [|count]; cbn; try done.
  by rewrite IH.
Qed.

Lemma objective_embeds_lookup llm imgs objs : forall i count k o,
  (k < count)%nat -> objs !! k = Some o ->
  objective_embeds objs i count llm imgs !! k
  = Some (createObjectiveEmbed o (i + k)
            (or_else (default "" (guide_objectives llm !! (i + k))) "") imgs).
Proof.
  induction objs as [|o' objs IH]; intros i count k o Hk Ho; [done|].
  destruct count as [|count]; [lia|]. destruct k as [|k].
  - cbn in Ho. injection Ho as ->. cbn [objective_embeds lookup list_lookup].
    by rewrite Nat.add_0_r.
  - cbn in Ho. cbn [objective_embeds]. rewrite lookup_cons.
    rewrite (IH (S i) count k o) by (done || lia).
    by replace (S i + k)%nat with (i + S k)%nat by lia.
Qed.

Lemma footer_on_last_snoc text l e :
  footer_on_last text (l ++ [e]) = l ++ [setFooter text e].
Proof.
  unfold footer_on_last. rewrite reverse_snoc, reverse_cons.
  by rewrite reverse_involutive.
Qed.

Lemma footer_on_last_length text l : length (footer_on_last text l) = length l.
Proof.
  destruct (decide (l = [])) as [->|Hne]; [done|].
  destruct (exists_last Hne) as (l' & e & ->).
  by rewrite footer_on_last_snoc, !length_app.
Qed.


Lemma footer_on_last_lookup text l k :
  footer_on_last text l !! k
  = if (S k =? length l)%nat then setFooter text <$> l !! k else l !! k.
Proof.
  destruct (decide (l = [])) as [->|Hne]; [done|].
  destruct (exists_last Hne) as (l' & e & ->).
  rewrite footer_on_last_snoc, length_app. cbn [length].
  destruct (Nat.eqb_spec (S k) (length l' + 1)) as [Hk|Hk].
  - assert (k = length l') as -> by lia.
    by rewrite !list_lookup_middle.
  - destruct (decide (k < length l')%nat).
    + by rewrite !lookup_app_l.
    + rewrite !lookup_ge_None_2; [done | |]; rewrite length_app; cbn; lia.
Qed.

Lemma substring0_truthy n s :
  (0 < n)%nat -> truthy s = true -> (0 < String.length (substring0 n s))%nat.
Proof. destruct n, s; cbn; (done || lia). Qed.

(** X26. [sendEnhancedResponse] sends the overview embed first, the guide
    embed second when the guide has an overview or tips, then one embed
    per objective for the first six objectives, and the rewards embed last
    when there is one: at most nine embeds, so that the final cut to ten
    never drops any.  The embed of objective [k] carries the guide text of
    slot [k] (none when the slot is missing), and when the quest has more
    than six objectives the sixth objective embed carries the note that
    counts the objectives left out. *)
Theorem sendEnhancedResponse_layout (overviewEmbed : embed)
    (rewardsEmbed : option embed) (q : quest) (data : enrichment)
    (allQuests : option (list quest)) :
  let n := length (objectives q) in
  let g := if truthy (overview (llmGuide data)) || truthy (tips (llmGuide data))
           then 1%nat else 0%nat in
  let r := sendEnhancedResponse overviewEmbed rewardsEmbed q data allQuests in
  length r = (1 + g + Nat.min n 6 + match rewardsEmbed with Some _ => 1 | None => 0 end)%nat /\
  (length r <= 9)%nat /\
  (exists e, r !! 0%nat = Some e /\ title e = title overviewEmbed) /\
  (g = 1%nat -> r !! 1%nat = Some (createGuideEmbed (llmGuide data))) /\
  (forall k o, (k < 6)%nat -> objectives q !! k = Some o ->
     r !! (1 + g + k)%nat
     = Some (let e := createObjectiveEmbed o k
                        (or_else (default "" (guide_objectives (llmGuide data) !! k)) "")
                        (images data) in
             if (k =? 5)%nat && (6 <? n)%nat
             then setFooter
                    (Gemini.dec (n - 6) +:+
                     " more objective(s) not shown. Check the wiki for full details.")
                    e
             else e)) /\
  (forall e, rewardsEmbed = Some e -> last r = Some e).
Proof.
  intros n g r.
  set (more_footer := fun n : nat =>
         Gemini.dec (n - 6) +:+
         " more objective(s) not shown. Check the wiki for full details.").
  change (Gemini.dec (n - 6) +:+
          " more objective(s) not shown. Check the wiki for full details.")
    with (more_footer n).
  set (llm := llmGuide data) in *. set (imgs := images data) in *.
  set (objsE := objective_embeds (objectives q) 0 (Nat.min n 6) llm imgs).
  assert (length objsE = Nat.min n 6) as HlenO.
  { unfold objsE. rewrite objective_embeds_length. fold n. lia. }
  assert (exists ov' E1 E2,
            title ov' = title overviewEmbed /\
            E1 = (ov' :: if truthy (overview llm) || truthy (tips llm)
                         then [createGuideEmbed llm] else []) ++ objsE /\
            E2 = (if (Nat.min n 6 <? n)%nat
                  then footer_on_last (more_footer n) E1 else E1) /\
            r = firstn 10
                  (match rewardsEmbed with
                   | Some e => if (length E2 <? 10)%nat then E2 ++ [e] else E2
                   | None => E2
                   end)) as (ov' & E1 & E2 & Hov & HE1 & HE2 & Hr).
  { eexists _, _, _. split; [|split; [reflexivity|split; [reflexivity|]]]; cycle 1.
    - unfold r, sendEnhancedResponse. fold llm imgs n objsE.
      unfold more_footer.
      destruct (truthy (overview llm) || truthy (tips llm)); cbn [app].
      + replace (n - Nat.min n 6)%nat with (n - 6)%nat by lia. reflexivity.
      + replace (n - Nat.min n 6)%nat with (n - 6)%nat by lia. reflexivity.
    - destruct allQuests as [qs|]; [|done]. by destruct (1 <? length qs)%nat. }
  assert (length E1 = (1 + g + Nat.min n 6)%nat) as HlenE1.
  { subst E1. rewrite length_app, HlenO. unfold g.
    by destruct (truthy (overview llm) || truthy (tips llm)). }
  assert (length E2 = (1 + g + Nat.min n 6)%nat) as HlenE2.
  { subst E2. destruct (Nat.min n 6 <? n)%nat; [|done].
    by rewrite footer_on_last_length. }
  assert (g <= 1)%nat as Hg.
  { unfold g. destruct (truthy (overview llm) || truthy (tips llm)); lia. }
  assert (r = E2 ++ match rewardsEmbed with Some e => [e] | None => [] end) as Hr'.
  { rewrite Hr. destruct rewardsEmbed as [e|].
    - assert ((length E2 <? 10)%nat = true) as -> by (apply Nat.ltb_lt; lia).
      apply firstn_all2. rewrite length_app. cbn. lia.
    - rewrite app_nil_r. apply firstn_all2. lia. }
  assert (forall k, (k < length E2)%nat -> r !! k = E2 !! k) as Hlook.
  { intros k Hk. rewrite Hr'. by apply lookup_app_l. }
  assert (forall k, (S k < length E1)%nat -> E2 !! k = E1 !! k) as Hfront.
  { intros k Hk. subst E2. destruct (Nat.min n 6 <? n)%nat; [|done].
    rewrite footer_on_last_lookup.
    by assert ((S k =? length E1)%nat = false) as -> by (apply Nat.eqb_neq; lia). }
  split_and!.
  - rewrite Hr', length_app, HlenE2. by destruct rewardsEmbed.
  - rewrite Hr', length_app, HlenE2. destruct rewardsEmbed; cbn; lia.
  - rewrite Hlook by lia. subst E2. destruct (Nat.min n 6 <? n)%nat.
    + rewrite footer_on_last_lookup. subst E1. cbn [app lookup list_lookup].
      destruct (1 =? _)%nat; cbn; eauto.
    + subst E1. cbn. eauto.
  - intros Hg1. rewrite Hlook by lia.
    assert (E1 !! 1%nat = Some (createGuideEmbed llm)) as HE1g.
    { subst E1. unfold g in Hg1.
      by destruct (truthy (overview llm) || truthy (tips llm)). }
    subst E2. destruct (Nat.min n 6 <? n)%nat eqn:Hmore; [|done].
    rewrite footer_on_last_lookup.
    assert ((2 =? length E1)%nat = false) as ->; [|done].
    apply Nat.eqb_neq. apply Nat.ltb_lt in Hmore. lia.
  - intros k o Hk Ho.
    assert (k < n)%nat as Hkn by (apply lookup_lt_Some in Ho; done).
    rewrite Hlook by lia.
    assert (E1 !! (1 + g + k)%nat
            = Some (createObjectiveEmbed o k
                      (or_else (default "" (guide_objectives llm !! k)) "") imgs))
      as HE1k.
    { subst E1. rewrite lookup_app_r.
      - replace (1 + g + k - _)%nat with k.
        + unfold objsE. rewrite (objective_embeds_lookup llm imgs _ 0 _ k o); [done | lia | done].
        + unfold g. destruct (truthy (overview llm) || truthy (tips llm)); cbn; lia.
      - unfold g. destruct (truthy (overview llm) || truthy (tips llm)); cbn; lia. }
    subst E2. destruct (Nat.ltb_spec (Nat.min n 6) n) as [Hmore|Hall].
    + rewrite footer_on_last_lookup, HlenE1, HE1k.
      assert ((6 <? n)%nat = true) as -> by (apply Nat.ltb_lt; lia).
      rewrite andb_true_r.
      destruct (Nat.eqb_spec k 5) as [->|Hk5].
      * by assert ((S (1 + g + 5) =? 1 + g + Nat.min n 6)%nat = true) as ->
          by (apply Nat.eqb_eq; lia).
      * by assert ((S (1 + g + k) =? 1 + g + Nat.min n 6)%nat = false) as ->
          by (apply Nat.eqb_neq; lia).
    + rewrite HE1k.
      assert ((6 <? n)%nat = false) as -> by (apply Nat.ltb_ge; lia).
      by rewrite andb_false_r.
  - intros e ->. rewrite Hr'. apply last_snoc.
Qed.


Lemma substring0_all n s : (String.length s <= n)%nat -> substring0 n s = s.
Proof.
  unfold substring0. revert s. induction n as [|n IH]; intros [|c s]; simpl; try done.
  - lia.
  - intros H. rewrite IH; [done | lia].
Qed.

(** X27. The texts of the guide embed and of an objective embed respect the
    limits of the chat platform: a description, when set, has between 1
    and 4096 characters, and the tips field between 1 and 1024.  The
    description of an objective embed is always set, and holds the
    objective's description in bold followed by the first 3800 characters
    of the guide text (or the placeholder) uncut when the objective's
    description has at most 290 characters. *)
Theorem embed_text_limits (llm : guide) (o : objective) (index : nat)
    (guideText : string) (imgs : Images.image_set) :
  (forall d, embed_description (createGuideEmbed llm) = Some d ->
     (1 <= String.length d <= 4096)%nat) /\
  (forall nm v, (nm, v) ∈ fields (createGuideEmbed llm) ->
     (1 <= String.length v <= 1024)%nat) /\
  (exists d, embed_description (createObjectiveEmbed o index guideText imgs) = Some d /\
     (1 <= String.length d <= 4096)%nat /\
     ((String.length (description o) <= 290)%nat ->
      d = "**" +:+ description o +:+ "**" +:+ Regex.LF +:+ Regex.LF +:+
          (if truthy guideText then substring0 3800 guideText
           else "_No detailed guide available for this objective._"))).
Proof.
  split_and!.
  - unfold createGuideEmbed. cbn [embed_description]. intros d Hd.
    destruct (truthy (overview llm)) eqn:Ht; [|done]. injection Hd as <-.
    split; [by apply substring0_truthy; [lia|] | apply substring0_le].
  - unfold createGuideEmbed. cbn [fields]. intros nm v Hin.
    destruct (truthy (tips llm)) eqn:Ht; [|by apply elem_of_nil in Hin].
    apply list_elem_of_singleton in Hin. injection Hin as -> ->.
    split; [by apply substring0_truthy; [lia|] | apply substring0_le].
  - unfold createObjectiveEmbed. cbn [embed_description]. eexists. split; [reflexivity|].
    split; [split|].
    + apply substring0_truthy; [lia|]. done.
    + apply substring0_le.
    + intros Hlen. apply substring0_all.
      rewrite !string_length_app. 
      assert (String.length (if truthy guideText then substring0 3800 guideText
                             else "_No detailed guide available for this objective._")
              <= 3800)%nat as Hg.
      { destruct (truthy guideText); [apply substring0_le | cbn; lia]. }
      change (String.length "**") with 2%nat.
      change (String.length Regex.LF) with 1%nat. lia.
Qed.

Lemma concat_head_length sep x l :
  (String.length x <= String.length (String.concat sep (x :: l)))%nat.
Proof.
  destruct l as [|y l]; [done|].
  change (String.concat sep (x :: y :: l))
    with (x +:+ sep +:+ String.concat sep (y :: l)).
  rewrite string_length_app. lia.
Qed.

(** X28. The baseline view shows an objectives field exactly when the quest
    has objectives.  Its text has between 3 and 1024 characters: the
    numbered lines of the first ten objectives when they fit in 1024
    characters, and otherwise their first 1021 characters followed by
    three dots. *)
Theorem objectives_field_limit (q : quest) :
  (objectives_field q = None <-> objectives q = []) /\
  (forall value, objectives_field q = Some value ->
     (3 <= String.length value <= 1024)%nat /\
     let objText :=
       String.concat Regex.LF (imap objective_line (take 10 (objectives q))) in
     ((String.length objText <= 1024)%nat -> value = objText) /\
     ((1024 < String.length objText)%nat ->
      value = substring0 1021 objText +:+ "..." /\ String.length value = 1024%nat)).
Proof.
  unfold objectives_field. destruct (objectives q) as [|o objs] eqn:Hobjs.
  - by split.
  - split; [by split|].
    set (objText := String.concat Regex.LF (imap objective_line (take 10 (o :: objs)))).
    assert (3 <= String.length objText)%nat as Hlow.
    { unfold objText. change (take 10 (o :: objs)) with (o :: take 9 objs).
      change (imap objective_line (o :: take 9 objs))
        with (objective_line 0 o :: imap (objective_line ∘ S) (take 9 objs)).
      etrans; [|apply concat_head_length].
      unfold objective_line. rewrite !string_length_app.
      change (String.length ". ") with 2%nat.
      change (Gemini.dec (0 + 1)) with "1". cbn [String.length]. lia. }
    assert (String.length (substring0 1021 objText +:+ "...")
            = (Nat.min 1021 (String.length objText) + 3)%nat) as Hlen.
    { by rewrite string_length_app, substring0_length. }
    intros value Hv. apply (inj Some) in Hv. subst value.
    destruct (Nat.ltb_spec 1024 (String.length objText)) as [Hlong|Hshort].
    + split; [lia|]. split; [lia|]. split; [done|lia].
    + split; [lia|]. split; [done|lia].
Qed.


Lemma sendEnhancedResponse_layout_witness :
  objectives seven_objectives !! 5%nat = Some (plain_objective "o6" "Foxtrot task") /\
  footer <$> sendEnhancedResponse overview_embed None seven_objectives sample_data None
               !! 7%nat
  = Some (Some "1 more objective(s) not shown. Check the wiki for full details.").
Proof.
  split; [reflexivity|].
  destruct (sendEnhancedResponse_layout overview_embed None seven_objectives
              sample_data None) as (_ & _ & _ & _ & Hobj & _).
  specialize (Hobj 5%nat (plain_objective "o6" "Foxtrot task")).
  refine (eq_trans (f_equal (fmap footer) (Hobj _ eq_refl)) _); [lia | reflexivity].
Defined.

Lemma embed_text_limits_witness :
  (String.length (description (plain_objective "o1" "Alpha task")) <= 290)%nat /\
  embed_description
    (createObjectiveEmbed (plain_objective "o1" "Alpha task") 0 "" no_images)
  = Some ("**Alpha task**" +:+ Regex.LF +:+ Regex.LF +:+
          "_No detailed guide available for this objective._").
Proof.
  assert (String.length (description (plain_objective "o1" "Alpha task")) <= 290)%nat
    as Hlen by (cbn; lia).
  split; [exact Hlen|].
  destruct (embed_text_limits sample_guide (plain_objective "o1" "Alpha task") 0 ""
              no_images) as (_ & _ & d & -> & _ & Hd).
  by rewrite (Hd Hlen).
Defined.

Lemma objectives_field_limit_witness :
  objectives_field three_objectives
  = Some ("1. Alpha task" +:+ Regex.LF +:+ "2. Bravo task" +:+ Regex.LF +:+
          "3. Charlie task") /\
  (3 <= String.length ("1. Alpha task" +:+ Regex.LF +:+ "2. Bravo task" +:+
                       Regex.LF +:+ "3. Charlie task") <= 1024)%nat.
Proof.
  assert (objectives_field three_objectives
          = Some ("1. Alpha task" +:+ Regex.LF +:+ "2. Bravo task" +:+ Regex.LF +:+
                  "3. Charlie task")) as Hfield by (by vm_compute).
  split; [exact Hfield|].
  exact (proj1 (proj2 (objectives_field_limit three_objectives) _ Hfield)).
Defined.

End EmbedProps.

(** ** The capacity of the store *)

Section CapacityProps.

Import Js Cache Examples.

Lemma call_capacity op (c : quest_cache) :
  (0 <= NodeCache.maxKeys c)%Z ->
  (NodeCache.keys c <= NodeCache.maxKeys c)%Z ->
  NodeCache.maxKeys (call op c) = NodeCache.maxKeys c /\
  (NodeCache.keys (call op c) <= NodeCache.maxKeys c)%Z.
Proof.
  intros Hmax Hkeys. destruct op as [i o now|i o d ttl now| |i o]; cbn [call].
  - rewrite getCachedQuestGuide_get.
    destruct (get_keys_le (generateCacheKey i o) now c) as [Hle ->]. split; [done|lia].
  - rewrite setCachedQuestGuide_cases. destruct (is_full c) eqn:Hfull; [done|].
    cbn [snd NodeCache.maxKeys]. split; [done|].
    unfold is_full in Hfull. unfold NodeCache.keys in *. cbn [NodeCache.data].
    rewrite map_size_insert.
    apply andb_false_iff in Hfull as [Hneg|Hlt].
    + apply Z.ltb_ge in Hneg. lia.
    + apply Z.leb_gt in Hlt. destruct (NodeCache.data c !! _); unfold Datatypes.id; lia.
  - unfold clearCache, NodeCache.flushAll, NodeCache.keys. cbn.
    rewrite map_size_empty. split; [done|lia].
  - unfold clearQuestCache, NodeCache.del.
    destruct (NodeCache.data c !! generateCacheKey i o) eqn:Hk; cbn; [|done].
    split; [done|]. unfold NodeCache.keys in *. cbn [NodeCache.data].
    rewrite map_size_delete, Hk. lia.
Qed.

(** X7. The store never outgrows its key limit: whatever lookups, writes
    and clearings are made, in any order, on a store that holds no more
    keys than its limit allows, the limit stays the same and the number
    of keys stays within it.  For the store of the module, this is 500
    keys. *)
Theorem cache_capacity (ops : list cache_call) (c : quest_cache) :
  (0 <= NodeCache.maxKeys c)%Z ->
  (NodeCache.keys c <= NodeCache.maxKeys c)%Z ->
  NodeCache.maxKeys (calls ops c) = NodeCache.maxKeys c /\
  (NodeCache.keys (calls ops c) <= NodeCache.maxKeys c)%Z.
Proof.
  revert c. induction ops as [|op ops IH]; intros c Hmax Hkeys; [done|].
  unfold calls. cbn [foldl]. fold (calls ops (call op c)).
  destruct (call_capacity op c Hmax Hkeys) as [Hm Hk].
  destruct (IH (call op c)) as [Hm' Hk']; [lia | lia |].
  rewrite Hm', Hm. split; [done|lia].
Qed.

Lemma cache_capacity_witness :
  (NodeCache.keys full_cache <= NodeCache.maxKeys full_cache)%Z /\
  (NodeCache.keys
     (calls [CallSet "q-three" None sample_data None 0;
             CallGet "q-three" None 1; CallClearQuest "q-three" None]
        full_cache) <= 500)%Z.
Proof.
  split; [by vm_compute|].
  refine (proj2 (cache_capacity _ full_cache _ _)); by vm_compute.
Defined.

End CapacityProps.

(** ** The cost of a request *)

Section CostProps.

Import Js Cache Generator Orchestrator Examples.

(** X18. A request costs at most one run of the generator, one run of the
    collector and two calls of the model; the collector runs exactly when
    the generator does, and neither runs exactly when the lookup finds the
    quest in the store. *)
Theorem enrich_cost (P : Presenter) (E : Env) (q : quest) (quests : list quest)
    (now : Z) (w : world) :
  exists evs,
    trace (snd (enrich P E q quests now w)) = trace w ++ evs /\
    (generator_calls evs <= 1)%nat /\
    collector_calls evs = generator_calls evs /\
    (model_invocations evs <= 2 * generator_calls evs)%nat /\
    (generator_calls evs = 0%nat <->
     exists d, lookup q now (questCache w) = Normal (Some d)).
Proof.
  destruct (lookup_normal q now (questCache w)) as [[d|] Hl].
  - exists []. destruct (enrich_hit P E q quests now w d Hl) as (_ & Htr & _).
    rewrite app_nil_r. split_and!; [done | cbn; lia | done | cbn; lia |]. split; eauto.
  - rewrite (enrich_miss P E q quests now w Hl).
    destruct (generateQuestGuide_frame E q (miss_world q now w))
      as (_ & _ & evs & Htrace & Hevs & Hcalls).
    destruct (model_events_no_calls evs Hevs) as [Hg0 Hc0].
    destruct (generateQuestGuide E q (miss_world q now w)) as [generated w'].
    cbn [snd] in Htrace.
    exists ([EvGuideGenerator (id q)] ++ evs ++ [EvImageCollector (id q)]).
    assert (forall c, trace (with_cache c (record (EvImageCollector (id q)) w'))
                      = trace w ++ [EvGuideGenerator (id q)] ++ evs
                        ++ [EvImageCollector (id q)]) as Hwc.
    { intros c. unfold with_cache, record. cbn [trace]. rewrite Htrace.
      unfold miss_world, record, with_cache. cbn [trace]. by rewrite <- !app_assoc. }
    assert (trace (record (EvImageCollector (id q)) w')
            = trace w ++ [EvGuideGenerator (id q)] ++ evs
              ++ [EvImageCollector (id q)]) as Hr.
    { unfold record. cbn [trace]. rewrite Htrace.
      unfold miss_world, record, with_cache. cbn [trace]. by rewrite <- !app_assoc. }
    rewrite !generator_calls_app, !collector_calls_app, !model_invocations_app, Hg0, Hc0.
    unfold maxAttempts in Hcalls.
    split_and!.
    + destruct generated as [[llm|]|e]; cbn zeta iota beta; cbn [snd]; try done.
      by destruct (setCachedQuestGuide _ _ _ _ _ _) as [[b|e] c]; cbn [snd].
    + cbn. lia.
    + cbn. lia.
    + cbn. cbn in Hcalls. lia.
    + split; [cbn; lia|]. intros [d Hd]. congruence.
Qed.

End CostProps.

(** ** The pipeline, claim by claim *)

Section PipelineClaims.

Import Js Regex Gemini Cache Generator Orchestrator Examples.

(** C9. [setCachedQuestGuide] never throws to its caller: it always
    returns a boolean; when the store throws on the write, the error is
    swallowed, the answer is [false] and the store is left as the throw
    left it; and after an answer [false] the store is the one before the
    call, so that the caller goes on without the entry. *)
Theorem setCachedQuestGuide_swallows questId objectives (data : enrichment)
    (ttl : option Z) (now : Z) (c : quest_cache) :
  (exists success,
     fst (setCachedQuestGuide questId objectives data ttl now c) = Normal success) /\
  (forall e c1,
     NodeCache.set (generateCacheKey questId objectives) data (ttl_or_default ttl)
       now c = (Throw e, c1) ->
     setCachedQuestGuide questId objectives data ttl now c = (Normal false, c1)) /\
  (fst (setCachedQuestGuide questId objectives data ttl now c) = Normal false ->
   snd (setCachedQuestGuide questId objectives data ttl now c) = c).
Proof.
  split_and!.
  - rewrite setCachedQuestGuide_cases. destruct (is_full c); eauto.
  - intros e c1 Hset. unfold setCachedQuestGuide. by rewrite Hset.
  - rewrite setCachedQuestGuide_cases. by destruct (is_full c).
Qed.

Lemma setCachedQuestGuide_swallows_witness :
  NodeCache.set (generateCacheKey "q-three" (Some (objectives three_objectives)))
    sample_data (ttl_or_default None) 0 full_cache
  = (Throw "ECACHEFULL", full_cache) /\
  setCachedQuestGuide "q-three" (Some (objectives three_objectives)) sample_data
    None 0 full_cache = (Normal false, full_cache).
Proof.
  assert (NodeCache.set
            (generateCacheKey "q-three" (Some (objectives three_objectives)))
            sample_data (ttl_or_default None) 0 full_cache
          = (Throw "ECACHEFULL", full_cache)) as Hthrow.
  { unfold NodeCache.set.
    assert ((-1 <? NodeCache.maxKeys full_cache)%Z
            && (NodeCache.maxKeys full_cache <=? NodeCache.keys full_cache)%Z = true)
      as -> by (vm_compute; reflexivity).
    reflexivity. }
  split; [exact Hthrow|].
  exact (proj1 (proj2 (setCachedQuestGuide_swallows "q-three"
                         (Some (objectives three_objectives)) sample_data None 0
                         full_cache)) _ _ Hthrow).
Defined.


Lemma all_empty_replicate (l : list string) :
  forallb (fun slot => String.eqb slot "") l = true -> l = replicate (length l) "".
Proof.
  induction l as [|x l IH]; [done|]. cbn.
  intros [Hx Hl]%andb_true_iff. apply String.eqb_eq in Hx. subst x.
  by rewrite <- IH.
Qed.



(** C7, as stated, fails when the step-by-step block has fewer parts than
    the quest has objectives: the slots past the last part hold the whole
    block, which is neither the last part nor empty. *)
Lemma parseLLMResponse_missing_chunk :
  split parts_re ("Go to dorms" +:+ LF +:+ LF +:+ "Find the key")
    = ["Go to dorms"; "Find the key"] /\
  guide_objectives (parseLLMResponse no_regexp two_chunks three_objectives) !! 2%nat
    = Some ("Go to dorms" +:+ LF +:+ LF +:+ "Find the key") /\
  "Go to dorms" +:+ LF +:+ LF +:+ "Find the key" <> "Find the key" /\
  "Go to dorms" +:+ LF +:+ LF +:+ "Find the key" <> "".
Proof. split_and!; by vm_compute. Qed.

(** C7, amended. When every slot is empty after the patterns of the
    objectives were tried, the step-by-step block, trimmed, is cut at blank
    lines and before numbered items, and slot [i] gets part [i]; a slot
    whose part is missing or empty gets the whole trimmed block.  Three
    parts separated by blank lines go to three objectives in their order.
    Without a step-by-step block every slot stays empty. *)
Theorem parseLLMResponse_chunks (eng : string -> compiled) (text : string)
    (q : quest) :
  forallb (compiles eng) (objectives q) = true ->
  forallb (fun slot => String.eqb slot "")
    (imap (first_slot eng text) (objectives q)) = true ->
  (forall m0 g i,
     search guide_section_re text = Some (m0, Some g) ->
     (i < length (objectives q))%nat ->
     guide_objectives (parseLLMResponse eng text q) !! i
     = Some (match split parts_re (trim g) !! i with
             | Some part => if truthy part then part else trim g
             | None => trim g
             end)) /\
  (search guide_section_re text = None ->
   guide_objectives (parseLLMResponse eng text q)
   = replicate (length (objectives q)) "") /\
  guide_objectives (parseLLMResponse eng three_chunks three_objectives)
    = ["Go to dorms"; "Find the key"; "Extract"].
Proof.
  intros Hc Hempty.
  destruct (parseLLMResponse_cases eng text q) as (_ & Hok & _).
  destruct (Hok Hc) as [_ Hslots]. cbn zeta in Hslots. rewrite Hempty in Hslots.
  split_and!.
  - intros m0 g i Hblock Hi. rewrite Hslots, Hblock.
    destruct (lookup_lt_is_Some_2 (objectives q) i Hi) as [obj Hobj].
    rewrite list_lookup_imap, Hobj.
    change (Some (part_slot (trim g) i)
            = Some (match split parts_re (trim g) !! i with
                    | Some part => if truthy part then part else trim g
                    | None => trim g
                    end)).
    f_equal. unfold part_slot, or_else.
    destruct (split parts_re (trim g) !! i) as [part|]; [reflexivity|].
    change (default "" None) with "". by destruct (trim g).
  - intros Hnone. rewrite Hslots, Hnone.
    rewrite (all_empty_replicate _ Hempty). by rewrite length_imap.
  - by vm_compute.
Qed.

Lemma parseLLMResponse_chunks_witness :
  forallb (compiles no_regexp) (objectives three_objectives) = true /\
  forallb (fun slot => String.eqb slot "")
    (imap (first_slot no_regexp two_chunks) (objectives three_objectives)) = true /\
  search guide_section_re two_chunks
    = Some ("Step-by-Step Guide:" +:+ LF +:+ "Go to dorms" +:+ LF +:+ LF +:+
            "Find the key",
            Some ("Go to dorms" +:+ LF +:+ LF +:+ "Find the key")) /\
  guide_objectives (parseLLMResponse no_regexp two_chunks three_objectives) !! 1%nat
    = Some "Find the key".
Proof.
  assert (forallb (compiles no_regexp) (objectives three_objectives) = true) as Hc
    by (vm_compute; reflexivity).
  assert (forallb (fun slot => String.eqb slot "")
            (imap (first_slot no_regexp two_chunks) (objectives three_objectives))
          = true) as He by (vm_compute; reflexivity).
  assert (search guide_section_re two_chunks
          = Some ("Step-by-Step Guide:" +:+ LF +:+ "Go to dorms" +:+ LF +:+ LF +:+
                  "Find the key",
                  Some ("Go to dorms" +:+ LF +:+ LF +:+ "Find the key"))) as Hb
    by (vm_compute; reflexivity).
  split; [exact Hc|]. split; [exact He|]. split; [exact Hb|].
  destruct (parseLLMResponse_chunks no_regexp two_chunks three_objectives Hc He)
    as (Hparts & _).
  exact (Hparts _ _ 1%nat Hb ltac:(cbn; lia)).
Defined.

(** The events a run of the generator adds to the trace. *)
Lemma generateQuestGuide_events E q w :
  exists evs, trace (snd (generateQuestGuide E q w)) = trace w ++ evs /\
    (evs = [] \/
     (exists prompt, evs = [EvModelCall prompt]) \/
     (exists prompt, evs = [EvModelCall prompt; EvDelay 1000; EvModelCall prompt])).
Proof.
  destruct (client_available E w) eqn:Hav.
  - destruct (generateQuestGuide_ready E q w Hav) as (w' & Ht & Hm & Hq & ->).
    destruct (buildQuestPrompt E q) as [prompt|e].
    + rewrite retry_loop_cases.
      destruct (model E (model_calls w') prompt) as [m1|t1].
      * destruct (model E (S (model_calls w')) prompt) as [m2|t2];
          cbn -[Gemini.parseLLMResponse]; rewrite Ht, <- !app_assoc;
          eexists; (split; [reflexivity|]); right; right; eauto.
      * cbn -[Gemini.parseLLMResponse]. rewrite Ht.
        eexists; (split; [reflexivity|]); right; left; eauto.
    + cbn. rewrite Ht. exists []. rewrite app_nil_r. eauto.
  - destruct (generateQuestGuide_unready E q w Hav) as (_ & -> & _).
    exists []. rewrite app_nil_r. eauto.
Qed.

(** C4, as stated, fails where the model is never reached: without an API
    key, and for a quest whose prompt cannot be built, a model that always
    fails is not invoked at all. *)
Lemma generateQuestGuide_never_invoked :
  (forall n prompt, model keyless_failing_env n prompt = ModelThrows "503") /\
  model_invocations
    (trace (snd (generateQuestGuide keyless_failing_env three_objectives world0)))
  = 0%nat /\
  (forall n prompt, model promptless_env n prompt = ModelThrows "503") /\
  model_invocations
    (trace (snd (generateQuestGuide promptless_env three_objectives world0)))
  = 0%nat.
Proof. split_and!; by vm_compute. Qed.

(** C4, amended. [generateQuestGuide] never throws, and a run adds to the
    trace no event at all, one call of the model, or two calls with a
    delay of 1000 ms between them: the model is invoked twice at most.
    With a client at hand and the prompt built, a first answer ends the
    run after one call, and a model that fails at every call is invoked
    exactly twice, after which the generator returns [null].  Without a
    client, or when the prompt cannot be built, the model is not invoked
    and the generator returns [null]. *)
Theorem generateQuestGuide_attempts (E : Env) (q : quest) (w : world) :
  (exists g, fst (generateQuestGuide E q w) = Normal g) /\
  (exists evs, trace (snd (generateQuestGuide E q w)) = trace w ++ evs /\
     (evs = [] \/
      (exists prompt, evs = [EvModelCall prompt]) \/
      (exists prompt,
         evs = [EvModelCall prompt; EvDelay 1000; EvModelCall prompt]))) /\
  (model_invocations (trace (snd (generateQuestGuide E q w)))
     <= model_invocations (trace w) + 2)%nat /\
  (forall prompt,
     client_available E w = true ->
     buildQuestPrompt E q = Normal prompt ->
     (forall text,
        model E (model_calls w) prompt = ModelReturns text ->
        trace (snd (generateQuestGuide E q w)) = trace w ++ [EvModelCall prompt] /\
        exists g, fst (generateQuestGuide E q w) = Normal (Some g)) /\
     ((forall n, exists message, model E n prompt = ModelThrows message) ->
      trace (snd (generateQuestGuide E q w))
        = trace w ++ [EvModelCall prompt; EvDelay 1000; EvModelCall prompt] /\
      model_invocations (trace (snd (generateQuestGuide E q w)))
        = (model_invocations (trace w) + 2)%nat /\
      fst (generateQuestGuide E q w) = Normal None)) /\
  ((client_available E w = false \/ exists e, buildQuestPrompt E q = Throw e) ->
   trace (snd (generateQuestGuide E q w)) = trace w /\
   fst (generateQuestGuide E q w) = Normal None).
Proof.
  destruct (generateQuestGuide_frame E q w) as (Hret & _ & evs & Htr & _ & Hle).
  split; [done|]. split; [apply generateQuestGuide_events|]. split.
  { rewrite Htr, model_invocations_app. unfold maxAttempts in Hle. lia. }
  clear Hret evs Htr Hle. split.
  - intros prompt Hav Hprompt.
    destruct (generateQuestGuide_ready E q w Hav) as (w' & Ht & Hm & Hq & ->).
    rewrite Hprompt, retry_loop_cases, Hm. split.
    + intros text ->. cbn -[Gemini.parseLLMResponse]. rewrite Ht. eauto.
    + intros Hfail. destruct (Hfail (model_calls w)) as [m1 ->].
      destruct (Hfail (S (model_calls w))) as [m2 ->]. cbn -[model_invocations].
      rewrite Ht, <- !app_assoc, model_invocations_app. done.
  - intros [Hav | [e He]].
    + by destruct (generateQuestGuide_unready E q w Hav) as (-> & -> & _).
    + destruct (client_available E w) eqn:Hav.
      * destruct (generateQuestGuide_ready E q w Hav) as (w' & Ht & Hm & Hq & ->).
        rewrite He. cbn. by rewrite Ht.
      * by destruct (generateQuestGuide_unready E q w Hav) as (-> & -> & _).
Qed.

Lemma generateQuestGuide_attempts_witness :
  client_available failing_env world0 = true /\
  buildQuestPrompt failing_env three_objectives = Normal "Quest: Shortage" /\
  (forall n, exists message,
     model failing_env n "Quest: Shortage" = ModelThrows message) /\
  trace (snd (generateQuestGuide failing_env three_objectives world0))
    = trace world0 ++ [EvModelCall "Quest: Shortage"; EvDelay 1000;
                        EvModelCall "Quest: Shortage"] /\
  fst (generateQuestGuide failing_env three_objectives world0) = Normal None.
Proof.
  assert (forall n, exists message,
            model failing_env n "Quest: Shortage" = ModelThrows message) as Hfail.
  { intros n. by exists "503". }
  split; [reflexivity|]. split; [reflexivity|]. split; [exact Hfail|].
  destruct (generateQuestGuide_attempts failing_env three_objectives world0)
    as (_ & _ & _ & Hrun & _).
  destruct (Hrun "Quest: Shortage" eq_refl eq_refl) as (_ & Hboth).
  destruct (Hboth Hfail) as (Htrace & _ & Hnull).
  split; [exact Htrace | exact Hnull].
Defined.

(** C1, as stated, fails when the first of two requests stores nothing,
    or when what it stored is no longer served: the second request then
    runs the generator and the collector again.  That is so when the
    generator returns [null], when the store is full, and when the second
    request comes more than seven days after the first.  It also fails
    when [sendEnhancedResponse] throws on a hit: the reply is the error
    text, not the stored result. *)
Lemma enrich_twice_regenerates :
  (let w1 := snd (enrich accepting failing_env three_objectives [three_objectives]
                    0 world0) in
   let w2 := snd (enrich accepting failing_env three_objectives [three_objectives]
                    1000 w1) in
   generator_calls (trace w2) = 2%nat /\ collector_calls (trace w2) = 2%nat) /\
  (let w1 := snd (enrich accepting answering_env three_objectives [three_objectives]
                    0 full_world) in
   let w2 := snd (enrich accepting answering_env three_objectives [three_objectives]
                    1000 w1) in
   generator_calls (trace w2) = 2%nat /\ collector_calls (trace w2) = 2%nat) /\
  (let w1 := snd (enrich accepting answering_env three_objectives [three_objectives]
                    0 world0) in
   let w2 := snd (enrich accepting answering_env three_objectives [three_objectives]
                    604800001 w1) in
   is_Some (NodeCache.data (questCache w1) !! cache_key three_objectives) /\
   generator_calls (trace w2) = 2%nat /\ collector_calls (trace w2) = 2%nat) /\
  lookup three_objectives 5 (questCache warm_world) = Normal (Some three_data) /\
  fst (enrich refusing_enhanced answering_env three_objectives [three_objectives]
         5 warm_world) = Normal ErrorReply.
Proof.
  split; [by vm_compute|]. split; [by vm_compute|]. split.
  { cbv zeta. split; [|by vm_compute]. eexists. vm_compute. reflexivity. }
  split; by vm_compute.
Qed.

(** C1, amended. A request that finds the quest in the store hands the
    stored result, unchanged, to [sendEnhancedResponse] and does no work
    of generation: the trace and the call counter stay as they are, and
    the reply is the enhanced view of the stored result when
    [sendEnhancedResponse] returns.  Of two requests for the same quest,
    the second no later than seven days after the first, when the first
    misses, the generator returns a guide and the store is not full, the
    generator and the collector are called once each over both, and the
    second is served from the store. *)
Theorem enrich_serves_cache (P : Presenter) (E : Env) (q : quest)
    (quests : list quest) (now1 now2 : Z) (w : world) :
  (forall d,
     lookup q now1 (questCache w) = Normal (Some d) ->
     trace (snd (enrich P E q quests now1 w)) = trace w /\
     model_calls (snd (enrich P E q quests now1 w)) = model_calls w /\
     (forall u, send_enhanced P q d (allQuests quests) = Normal u ->
        fst (enrich P E q quests now1 w) = Normal (Enhanced d))) /\
  (forall g,
     lookup q now1 (questCache w) = Normal None ->
     fst (generateQuestGuide E q (miss_world q now1 w)) = Normal (Some g) ->
     is_full (questCache w) = false ->
     (now2 <= expiry None now1)%Z ->
     let data :=
       {| llmGuide := g;
          images := Images.getQuestImages (fetch E) (resolve_url E) q |} in
     let w1 := snd (enrich P E q quests now1 w) in
     let w2 := snd (enrich P E q quests now2 w1) in
     generator_calls (trace w2) = (generator_calls (trace w) + 1)%nat /\
     collector_calls (trace w2) = (collector_calls (trace w) + 1)%nat /\
     lookup q now2 (questCache w1) = Normal (Some data) /\
     trace w2 = trace w1 /\
     (forall u, send_enhanced P q data (allQuests quests) = Normal u ->
        fst (enrich P E q quests now2 w1) = Normal (Enhanced data))).
Proof.
  split.
  - intros d Hhit.
    destruct (enrich_hit P E q quests now1 w d Hhit) as (Hr & Ht & Hm & _).
    split; [done|]. split; [done|]. intros u Hu. by rewrite Hr, Hu.
  - intros g Hmiss Hgen Hroom Hnow data w1 w2.
    destruct (enrich_stores P E q quests now1 now2 w g Hmiss Hgen Hroom Hnow)
      as (_ & Hhit & Hg & Hc).
    fold data w1 in Hhit, Hg, Hc.
    destruct (enrich_hit P E q quests now2 w1 data Hhit) as (Hsecond & Htr & _).
    fold w2 in Htr. rewrite Htr. split_and!; try done.
    intros u Hu. by rewrite Hsecond, Hu.
Qed.

Lemma enrich_serves_cache_witness :
  lookup three_objectives 5 (questCache warm_world) = Normal (Some three_data) /\
  send_enhanced accepting three_objectives three_data (allQuests [three_objectives])
    = Normal tt /\
  fst (enrich accepting answering_env three_objectives [three_objectives] 5
         warm_world) = Normal (Enhanced three_data) /\
  trace (snd (enrich accepting answering_env three_objectives [three_objectives] 5
                warm_world)) = trace warm_world.
Proof.
  assert (lookup three_objectives 5 (questCache warm_world)
          = Normal (Some three_data)) as Hhit by (vm_compute; reflexivity).
  split; [exact Hhit|]. split; [reflexivity|].
  destruct (proj1 (enrich_serves_cache accepting answering_env three_objectives
                     [three_objectives] 5 5 warm_world) three_data Hhit)
    as (Htrace & _ & Hreply).
  split; [exact (Hreply tt eq_refl) | exact Htrace].
Defined.

(** C2, as stated, fails for a quest whose regular view cannot be built:
    [createQuestEmbed] throws in the fallback branch and again in the
    inner [catch], and the reply is the error text.  It also fails when
    the chat platform refuses the regular view: the handler itself fails. *)
Lemma enrich_fallback_unbuilt :
  lookup three_objectives 0 (questCache world0) = Normal None /\
  fst (generateQuestGuide promptless_env three_objectives
         (miss_world three_objectives 0 world0)) = Normal None /\
  fst (enrich refusing_regular promptless_env three_objectives [three_objectives]
         0 world0) = Normal ErrorReply /\
  fst (generateQuestGuide failing_env three_objectives
         (miss_world three_objectives 0 world0)) = Normal None /\
  fst (enrich unreachable failing_env three_objectives [three_objectives] 0 world0)
    = Throw "Unknown Message".
Proof. split_and!; by vm_compute. Qed.

(** C2, amended. When the lookup misses and the generator returns [null],
    nothing is written to the store: it is as the lookup left it, holds no
    entry under the fingerprint of the quest, and has no more keys than
    before.  The reply is the regular quest view, without notice, when
    [createQuestEmbed] returns and the chat platform accepts the view. *)
Theorem enrich_no_partial_cache (P : Presenter) (E : Env) (q : quest)
    (quests : list quest) (now : Z) (w : world) :
  lookup q now (questCache w) = Normal None ->
  fst (generateQuestGuide E q (miss_world q now w)) = Normal None ->
  questCache (snd (enrich P E q quests now w)) = after_lookup q now (questCache w) /\
  NodeCache.data (questCache (snd (enrich P E q quests now w))) !! cache_key q = None /\
  (NodeCache.keys (questCache (snd (enrich P E q quests now w)))
   <= NodeCache.keys (questCache w))%Z /\
  (forall u u',
     regular_embed P q quests = Normal u ->
     thinking_edit P (Regular None) = Normal u' ->
     fst (enrich P E q quests now w) = Normal (Regular None)).
Proof.
  intros Hmiss Hnull. rewrite (enrich_miss P E q quests now w Hmiss).
  destruct (generateQuestGuide_frame E q (miss_world q now w)) as (_ & Hcache & _).
  destruct (generateQuestGuide E q (miss_world q now w)) as [generated w1].
  cbn in Hnull, Hcache. subst generated. cbn [fst snd].
  assert (questCache (record (EvImageCollector (id q)) w1)
          = after_lookup q now (questCache w)) as Hc.
  { unfold record. cbn [questCache]. rewrite Hcache. by unfold miss_world. }
  rewrite Hc. split; [done|].
  destruct (lookup_get q now (questCache w)) as [Hl Ha]. rewrite Ha.
  rewrite Hl in Hmiss. split; [by apply get_miss_absent|].
  split; [apply get_keys_le|].
  intros u u' Hu Hu'. rewrite Hu. unfold deliver. by rewrite Hu'.
Qed.

Lemma enrich_no_partial_cache_witness :
  lookup three_objectives 0 (questCache world0) = Normal None /\
  fst (generateQuestGuide failing_env three_objectives
         (miss_world three_objectives 0 world0)) = Normal None /\
  NodeCache.data
    (questCache (snd (enrich accepting failing_env three_objectives
                        [three_objectives] 0 world0)))
    !! cache_key three_objectives = None /\
  fst (enrich accepting failing_env three_objectives [three_objectives] 0 world0)
    = Normal (Regular None).
Proof.
  assert (lookup three_objectives 0 (questCache world0) = Normal None) as Hmiss
    by (vm_compute; reflexivity).
  assert (fst (generateQuestGuide failing_env three_objectives
                 (miss_world three_objectives 0 world0)) = Normal None) as Hnull
    by (vm_compute; reflexivity).
  split; [exact Hmiss|]. split; [exact Hnull|].
  destruct (enrich_no_partial_cache accepting failing_env three_objectives
              [three_objectives] 0 world0 Hmiss Hnull) as (_ & Habsent & _ & Hreply).
  split; [exact Habsent | exact (Hreply tt tt eq_refl eq_refl)].
Defined.

End PipelineClaims.
